(** * The live interview session engine of botinterview (App.tsx)

    A shallow embedding of the streaming core of the application: the
    capture callback's resampling, the message handler of the live channel
    (turn aggregation, interruption, playback scheduling), the session
    token discipline, and the post-session transcript analysis with its
    recovery parse. Around this core: the steps of the session controller
    as the event loop can order them, the gesture service
    (services/gestureService.ts), and the way of the resume text and of
    the settings through services/pdfService.ts, components/SetupForm.tsx
    and constants.ts.

    Conventions of the embedding:
    - a JavaScript string is the list of its UTF-16 code units;
    - a JavaScript number that may be fractional (clock times, durations,
      sample rates, JSON numbers) is an exact rational; rounding to binary64
      is not modelled;
    - React state setters are applied to the store in the order they are
      called (all of them are either constant or functional updates);
    - an async function is cut at its [await]s into the pieces that run
      atomically on the event loop; between two pieces any other handler
      may run. [onmessage] has one [await], on [decodeAudioData] of the
      audio service: the decode is not modelled, its outcome (the duration
      of the buffer, or a failure) comes with the event that resumes the
      handler. The teardown [stopAllMedia] is taken as one step;
    - [JSON.parse] is the parser of the ECMA-404 grammar given below; the
      remote model is a function from the prompt to its answer. *)

From Stdlib Require Import ZArith NArith QArith Qround Qminmax Lia Lra.
From Stdlib Require Import String Ascii Sorted.
From stdpp Require Import base list gmap sets.

Local Open Scope Z_scope.

(** ** JavaScript strings *)

Definition code_unit := N.
Definition jsstring := list code_unit.

(** [js s] is the JavaScript string spelled by the ASCII literal [s]. *)
Fixpoint js (s : string) : jsstring :=
  match s with
  | EmptyString => []
  | String c r => N_of_ascii c :: js r
  end.

(** [jsq s] is [js s] with every apostrophe of [s] standing for a double
    quote (code unit 34), so that JSON texts can be written down. *)
Definition jsq (s : string) : jsstring :=
  (λ c : code_unit, if N.eqb c 39 then 34%N else c) <$> js s.

Definition LF : code_unit := 10%N.

(** Truthiness of a string: non-empty. *)
Definition truthy (s : jsstring) : bool :=
  match s with [] => false | _ => true end.

(** WhiteSpace and LineTerminator code points of ECMAScript: what
    [String.prototype.trim] strips and what [\s] matches. *)
Definition isWhiteSpace (c : code_unit) : bool :=
  let c := Z.of_N c in
  (9 <=? c) && (c <=? 13) || (c =? 32) || (c =? 160) || (c =? 5760)
  || (8192 <=? c) && (c <=? 8202) || (c =? 8232) || (c =? 8233)
  || (c =? 8239) || (c =? 8287) || (c =? 12288) || (c =? 65279).

(** [truthy (s.trim())]: trimming leaves something exactly when some code
    unit of [s] is not white space. *)
Definition trim_truthy (s : jsstring) : bool :=
  existsb (λ c, negb (isWhiteSpace c)) s.

(** ** Capture pipeline: the resampling of [onaudioprocess] *)

Definition Qgtb (a b : Q) : bool := negb (Qle_bool a b).

Definition targetSampleRate : Q := 16000.

Section Resample.
Context {sample : Type}.
(** What a [Float32Array] slot holds after [undefined] is stored in it. *)
Variable NaN : sample.

(** [inputData[k]] for a non-negative integer [k]. *)
Definition typed_get (inputData : list sample) (k : Z) : sample :=
  default NaN (inputData !! Z.to_nat k).

(** The value of [finalData] handed to [createPcmBlob]. *)
Definition finalData (sourceSampleRate : Q) (inputData : list sample)
  : list sample :=
  if Qgtb sourceSampleRate targetSampleRate then
    let ratio := (sourceSampleRate / targetSampleRate)%Q in
    let newLength :=
      Qfloor (inject_Z (Z.of_nat (length inputData)) / ratio) in
    (λ i : nat, typed_get inputData (Qfloor (inject_Z (Z.of_nat i) * ratio)))
      <$> seq 0 (Z.to_nat newLength)
  else inputData.

(** The specification's reading, to be compared with [finalData]:
    decimation at the integer-truncated ratio [r] of the two rates, every
    [r]-th sample being kept. *)
Definition decimate_truncated (sourceSampleRate : Q)
    (inputData : list sample) : list sample :=
  let r := Qfloor (sourceSampleRate / targetSampleRate) in
  (λ i : nat, typed_get inputData (Z.of_nat i * r))
    <$> seq 0 (Z.to_nat (Z.of_nat (length inputData) / r)).
End Resample.

(** ** Session controller: the store *)

Inductive InterviewState :=
  IDLE | CONNECTING | ACTIVE | ANALYZING | FEEDBACK | ERROR.

Inductive Role := user | model.
Record ChatMessage := { role : Role; text : jsstring }.

(** Audio source nodes are objects; a node is identified by the order of
    its creation. *)
Definition node := positive.

Inductive AudioContextState := running | suspended | closed.

(** What the handlers ask of the audio device. *)
Inductive AudioCmd :=
  | LoopStart (n : node)                        (* silence loop, [start()] *)
  | BufferStart (n : node) (when duration : Q)  (* [source.start(when)] *)
  | NodeStop (n : node).                        (* [source.stop()] *)

Record Store := mkStore {
  (* refs *)
  currentSessionIdRef : jsstring;
  nextStartTimeRef : Q;
  sourcesRef : gset node;
  currentInputRef : jsstring;
  currentOutputRef : jsstring;
  fullTranscriptRef : jsstring;
  outputAudioContextRef : option AudioContextState;
  (* React state *)
  transcripts : list ChatMessage;
  currentInputTrans : jsstring;
  currentOutputTrans : jsstring;
  tokenUsage : Z;
  state : InterviewState;
  (* the world outside the component *)
  audioDevice : list AudioCmd;
  nodesCreated : node
}.

Definition set_currentSessionIdRef (v : jsstring) (st : Store) : Store :=
  mkStore v (nextStartTimeRef st) (sourcesRef st) (currentInputRef st)
    (currentOutputRef st) (fullTranscriptRef st) (outputAudioContextRef st)
    (transcripts st) (currentInputTrans st) (currentOutputTrans st)
    (tokenUsage st) (state st) (audioDevice st) (nodesCreated st).
Definition set_nextStartTimeRef (v : Q) (st : Store) : Store :=
  mkStore (currentSessionIdRef st) v (sourcesRef st) (currentInputRef st)
    (currentOutputRef st) (fullTranscriptRef st) (outputAudioContextRef st)
    (transcripts st) (currentInputTrans st) (currentOutputTrans st)
    (tokenUsage st) (state st) (audioDevice st) (nodesCreated st).
Definition set_sourcesRef (v : gset node) (st : Store) : Store :=
  mkStore (currentSessionIdRef st) (nextStartTimeRef st) v (currentInputRef
    st) (currentOutputRef st) (fullTranscriptRef st) (outputAudioContextRef
    st) (transcripts st) (currentInputTrans st) (currentOutputTrans st)
    (tokenUsage st) (state st) (audioDevice st) (nodesCreated st).
Definition set_currentInputRef (v : jsstring) (st : Store) : Store :=
  mkStore (currentSessionIdRef st) (nextStartTimeRef st) (sourcesRef st) v
    (currentOutputRef st) (fullTranscriptRef st) (outputAudioContextRef st)
    (transcripts st) (currentInputTrans st) (currentOutputTrans st)
    (tokenUsage st) (state st) (audioDevice st) (nodesCreated st).
Definition set_currentOutputRef (v : jsstring) (st : Store) : Store :=
  mkStore (currentSessionIdRef st) (nextStartTimeRef st) (sourcesRef st)
    (currentInputRef st) v (fullTranscriptRef st) (outputAudioContextRef st)
    (transcripts st) (currentInputTrans st) (currentOutputTrans st)
    (tokenUsage st) (state st) (audioDevice st) (nodesCreated st).
Definition set_fullTranscriptRef (v : jsstring) (st : Store) : Store :=
  mkStore (currentSessionIdRef st) (nextStartTimeRef st) (sourcesRef st)
    (currentInputRef st) (currentOutputRef st) v (outputAudioContextRef st)
    (transcripts st) (currentInputTrans st) (currentOutputTrans st)
    (tokenUsage st) (state st) (audioDevice st) (nodesCreated st).
Definition set_outputAudioContextRef (v : option AudioContextState) (st : Store) : Store :=
  mkStore (currentSessionIdRef st) (nextStartTimeRef st) (sourcesRef st)
    (currentInputRef st) (currentOutputRef st) (fullTranscriptRef st) v
    (transcripts st) (currentInputTrans st) (currentOutputTrans st)
    (tokenUsage st) (state st) (audioDevice st) (nodesCreated st).
Definition set_transcripts (v : list ChatMessage) (st : Store) : Store :=
  mkStore (currentSessionIdRef st) (nextStartTimeRef st) (sourcesRef st)
    (currentInputRef st) (currentOutputRef st) (fullTranscriptRef st)
    (outputAudioContextRef st) v (currentInputTrans st) (currentOutputTrans
    st) (tokenUsage st) (state st) (audioDevice st) (nodesCreated st).
Definition set_currentInputTrans (v : jsstring) (st : Store) : Store :=
  mkStore (currentSessionIdRef st) (nextStartTimeRef st) (sourcesRef st)
    (currentInputRef st) (currentOutputRef st) (fullTranscriptRef st)
    (outputAudioContextRef st) (transcripts st) v (currentOutputTrans st)
    (tokenUsage st) (state st) (audioDevice st) (nodesCreated st).
Definition set_currentOutputTrans (v : jsstring) (st : Store) : Store :=
  mkStore (currentSessionIdRef st) (nextStartTimeRef st) (sourcesRef st)
    (currentInputRef st) (currentOutputRef st) (fullTranscriptRef st)
    (outputAudioContextRef st) (transcripts st) (currentInputTrans st) v
    (tokenUsage st) (state st) (audioDevice st) (nodesCreated st).
Definition set_tokenUsage (v : Z) (st : Store) : Store :=
  mkStore (currentSessionIdRef st) (nextStartTimeRef st) (sourcesRef st)
    (currentInputRef st) (currentOutputRef st) (fullTranscriptRef st)
    (outputAudioContextRef st) (transcripts st) (currentInputTrans st)
    (currentOutputTrans st) v (state st) (audioDevice st) (nodesCreated st).
Definition set_state (v : InterviewState) (st : Store) : Store :=
  mkStore (currentSessionIdRef st) (nextStartTimeRef st) (sourcesRef st)
    (currentInputRef st) (currentOutputRef st) (fullTranscriptRef st)
    (outputAudioContextRef st) (transcripts st) (currentInputTrans st)
    (currentOutputTrans st) (tokenUsage st) v (audioDevice st) (nodesCreated
    st).
Definition set_audioDevice (v : list AudioCmd) (st : Store) : Store :=
  mkStore (currentSessionIdRef st) (nextStartTimeRef st) (sourcesRef st)
    (currentInputRef st) (currentOutputRef st) (fullTranscriptRef st)
    (outputAudioContextRef st) (transcripts st) (currentInputTrans st)
    (currentOutputTrans st) (tokenUsage st) (state st) v (nodesCreated st).
Definition set_nodesCreated (v : node) (st : Store) : Store :=
  mkStore (currentSessionIdRef st) (nextStartTimeRef st) (sourcesRef st)
    (currentInputRef st) (currentOutputRef st) (fullTranscriptRef st)
    (outputAudioContextRef st) (transcripts st) (currentInputTrans st)
    (currentOutputTrans st) (tokenUsage st) (state st) (audioDevice st) v.

Notation "st |> f" := (f st) (at level 45, left associativity, only parsing).

Definition initialStore : Store :=
  mkStore [] 0 ∅ [] [] [] None [] [] [] 0 IDLE [] 1%positive.

Definition jsstring_eqb (a b : jsstring) : bool := bool_decide (a = b).

(** [ctx.createBufferSource()]: a node nobody has seen before. *)
Definition createBufferSource (st : Store) : node * Store :=
  (nodesCreated st, set_nodesCreated (Pos.succ (nodesCreated st)) st).

(** [sourcesRef.current.forEach(s => s.stop()); sourcesRef.current.clear()] *)
Definition stopSources (st : Store) : Store :=
  st |> set_audioDevice
          (audioDevice st ++ (NodeStop <$> elements (sourcesRef st)))
     |> set_sourcesRef ∅.

(** [stopAllMedia], as far as the store goes: the token is cleared in its
    first statement, the output context is closed and its ref dropped
    unless it was closed already, every source is stopped. *)
Definition stopAllMedia (st : Store) : Store :=
  st |> set_currentSessionIdRef []
     |> set_outputAudioContextRef
          (match outputAudioContextRef st with
           | Some closed => Some closed
           | _ => None
           end)
     |> stopSources.

(** [startSilenceLoop(ctx)] *)
Definition startSilenceLoop (st : Store) : Store :=
  let '(silenceSource, st) := createBufferSource st in
  st |> set_audioDevice (audioDevice st ++ [LoopStart silenceSource])
     |> set_sourcesRef ({[silenceSource]} ∪ sourcesRef st).

(** [startInterview] after its cooldown, on the path where the network,
    the credential and the microphone are all available: the new token is
    installed, cursors and React state are reset, both audio contexts are
    created and their silence loops started. [newSessionId] is
    [Date.now().toString()]. *)
Definition startInterview_setup (newSessionId : jsstring) (st : Store) : Store :=
  st |> set_currentSessionIdRef newSessionId
     |> set_nextStartTimeRef 0
     |> set_currentInputRef []
     |> set_currentOutputRef []
     |> set_fullTranscriptRef []
     |> set_state CONNECTING
     |> set_transcripts []
     |> set_currentInputTrans []
     |> set_currentOutputTrans []
     |> set_tokenUsage 0
     |> set_outputAudioContextRef (Some running)
     |> startSilenceLoop
     |> startSilenceLoop.

Definition startInterview (newSessionId : jsstring) (st : Store) : Store :=
  st |> stopAllMedia |> startInterview_setup newSessionId.

(** [handleHardReset] *)
Definition handleHardReset (st : Store) : Store :=
  st |> set_currentSessionIdRef []
     |> stopAllMedia
     |> set_outputAudioContextRef None
     |> set_sourcesRef ∅
     |> set_nextStartTimeRef 0
     |> set_currentInputRef []
     |> set_currentOutputRef []
     |> set_fullTranscriptRef []
     |> set_transcripts []
     |> set_currentInputTrans []
     |> set_currentOutputTrans []
     |> set_tokenUsage 0
     |> set_state IDLE.

(** ** The live channel's callbacks *)

Record LiveServerMessage := {
  (* [msg.serverContent?.outputTranscription?.text] *)
  outputTranscription : option jsstring;
  (* [msg.serverContent?.inputTranscription?.text] *)
  inputTranscription : option jsstring;
  (* [msg.serverContent?.turnComplete] *)
  turnComplete : bool;
  (* [msg.serverContent?.interrupted] *)
  interrupted : bool;
  (* [msg.serverContent?.modelTurn?.parts?.[0]?.inlineData?.data] *)
  inlineData : option jsstring
}.

Definition onopen (newSessionId : jsstring) (st : Store) : Store :=
  if negb (jsstring_eqb (currentSessionIdRef st) newSessionId) then st
  else set_state ACTIVE st.

Definition appendOutputTranscription (msg : LiveServerMessage) (st : Store)
  : Store :=
  match outputTranscription msg with
  | Some text =>
      if truthy text then
        let st := set_currentOutputRef (currentOutputRef st ++ text) st in
        set_currentOutputTrans (currentOutputRef st) st
      else st
  | None => st
  end.

Definition appendInputTranscription (msg : LiveServerMessage) (st : Store)
  : Store :=
  match inputTranscription msg with
  | Some text =>
      if truthy text then
        let st := set_currentInputRef (currentInputRef st ++ text) st in
        set_currentInputTrans (currentInputRef st) st
      else st
  | None => st
  end.

(** [Math.ceil((input.length + output.length) / 3.5)] *)
Definition newTokens (input output : jsstring) : Z :=
  Qceiling (inject_Z (Z.of_nat (length input + length output)) / 3.5).

Definition clearAccumulators (st : Store) : Store :=
  st |> set_currentInputRef []
     |> set_currentOutputRef []
     |> set_currentInputTrans []
     |> set_currentOutputTrans [].

(** The [if (msg.serverContent?.turnComplete)] block. *)
Definition handleTurnComplete (st : Store) : Store :=
  let input := currentInputRef st in
  let output := currentOutputRef st in
  let st :=
    if trim_truthy input || trim_truthy output then
      st |> set_transcripts
              (transcripts st ++
                 [ {| role := user; text := input |};
                   {| role := model; text := output |} ])
         |> set_tokenUsage (tokenUsage st + newTokens input output)
         |> set_fullTranscriptRef
              (fullTranscriptRef st ++ js "Candidate: " ++ input ++ [LF]
                 ++ js "Interviewer: " ++ output ++ [LF])
    else st in
  clearAccumulators st.

(** [x || 0] on a number. *)
Definition or_zero (x : Q) : Q := if Qeq_bool x 0 then 0%Q else x.

(** The [if (msg.serverContent?.interrupted)] block; [currentTime] is the
    reading of the output context's clock. *)
Definition handleInterrupted (currentTime : Q) (st : Store) : Store :=
  let st := stopSources st in
  let st :=
    set_nextStartTimeRef
      (match outputAudioContextRef st with
       | Some _ => or_zero currentTime
       | None => 0%Q
       end) st in
  let input := currentInputRef st in
  let output := currentOutputRef st in
  if trim_truthy input || trim_truthy output then
    st |> set_transcripts
            (transcripts st ++
               [ {| role := user; text := input |};
                 {| role := model; text := output ++ js " (interrupted)" |} ])
       |> set_fullTranscriptRef
            (fullTranscriptRef st ++ js "Candidate: " ++ input ++ [LF]
               ++ js "Interviewer: " ++ output ++ js " (interrupted)" ++ [LF])
       |> clearAccumulators
  else st.

(** The part of [onmessage] that runs before its only [await]. The second
    component tells whether the handler went on to [decodeAudioData] and is
    now suspended there. *)
Definition onmessage (newSessionId : jsstring) (msg : LiveServerMessage)
    (currentTime : Q) (st : Store) : Store * bool :=
  if negb (jsstring_eqb (currentSessionIdRef st) newSessionId) then (st, false)
  else
    let st := appendOutputTranscription msg st in
    let st := appendInputTranscription msg st in
    let st := if turnComplete msg then handleTurnComplete st else st in
    let st := if interrupted msg then handleInterrupted currentTime st else st in
    match inlineData msg with
    | Some base64Audio =>
        if truthy base64Audio then
          match outputAudioContextRef st with
          | Some running => (st, true)
          | _ => (st, false)
          end
        else (st, false)
    | None => (st, false)
    end.

(** Lines 529-546: the decoded buffer is put on the timeline.
    [currentTime] is [ctx.currentTime] of the context the handler captured
    before suspending. *)
Definition scheduleBuffer (currentTime duration : Q) (st : Store) : Store :=
  let st :=
    set_nextStartTimeRef (Qmax (nextStartTimeRef st) currentTime) st in
  let '(source, st) := createBufferSource st in
  let st :=
    set_audioDevice
      (audioDevice st ++ [BufferStart source (nextStartTimeRef st) duration])
      st in
  let st := set_nextStartTimeRef (nextStartTimeRef st + duration)%Q st in
  set_sourcesRef ({[source]} ∪ sourcesRef st) st.

(** The rest of [onmessage], run when [decodeAudioData] settles:
    [decoded] is the duration of the decoded buffer, or [None] when the
    decode threw (the error is logged and the chunk skipped). *)
Definition onmessage_decoded (decoded : option Q) (currentTime : Q)
    (st : Store) : Store :=
  match decoded with
  | Some duration => scheduleBuffer currentTime duration st
  | None => st
  end.

(** The [ended] listener of a scheduled source. *)
Definition onended (source : node) (st : Store) : Store :=
  set_sourcesRef (sourcesRef st ∖ {[source]}) st.

Definition onclose (newSessionId : jsstring) (st : Store) : Store :=
  if jsstring_eqb (currentSessionIdRef st) newSessionId then
    st |> set_state ERROR |> stopAllMedia
  else st.

Definition onerror (newSessionId : jsstring) (st : Store) : Store :=
  if negb (jsstring_eqb (currentSessionIdRef st) newSessionId) then st
  else st |> set_state ERROR |> stopAllMedia.

(** [onaudioprocess]: the frame handed to [createPcmBlob], if any. *)
Definition onaudioprocess {sample} (NaN : sample) (newSessionId : jsstring)
    (sourceSampleRate : Q) (inputData : list sample) (st : Store)
  : option (list sample) :=
  if negb (jsstring_eqb (currentSessionIdRef st) newSessionId) then None
  else Some (finalData NaN sourceSampleRate inputData).

(** The [then] callback of [onaudioprocess], run once the session promise
    has resolved: the token is compared again before the frame is sent. *)
Definition onaudioprocess_then {frame} (newSessionId : jsstring)
    (pcmBlob : frame) (st : Store) : option frame :=
  if negb (jsstring_eqb (currentSessionIdRef st) newSessionId) then None
  else Some pcmBlob.

(** ** String operations used by the recovery parse *)

Fixpoint startsWith (pat s : jsstring) : bool :=
  match pat, s with
  | [], _ => true
  | p :: pat', c :: s' => N.eqb p c && startsWith pat' s'
  | _ :: _, [] => false
  end.

(** [s.replace(/pat/g, repl)] for a pattern without metacharacters:
    left-to-right, matches do not overlap. [skip] counts the code units of
    the current match that are still to be dropped. *)
Fixpoint replaceAll_from (pat repl : jsstring) (skip : nat) (s : jsstring)
  : jsstring :=
  match s with
  | [] => []
  | c :: t =>
      match skip with
      | S k => replaceAll_from pat repl k t
      | O =>
          if startsWith pat s
          then repl ++ replaceAll_from pat repl (length pat - 1) t
          else c :: replaceAll_from pat repl 0 t
      end
  end.

Definition replaceAll (pat repl s : jsstring) : jsstring :=
  replaceAll_from pat repl 0 s.

Fixpoint take_while {A} (p : A → bool) (l : list A) : list A :=
  match l with
  | x :: r => if p x then x :: take_while p r else []
  | [] => []
  end.

Fixpoint drop_while {A} (p : A → bool) (l : list A) : list A :=
  match l with
  | x :: r => if p x then drop_while p r else l
  | [] => []
  end.

Definition COMMA : code_unit := 44%N.

(** [s.replace(/,\s*X/g, 'X')] for a closing bracket [X]: a comma, the
    longest run of white space, then [X]. *)
Fixpoint dropCommaBefore_from (X : code_unit) (skip : nat) (s : jsstring)
  : jsstring :=
  match s with
  | [] => []
  | c :: t =>
      match skip with
      | S k => dropCommaBefore_from X k t
      | O =>
          if N.eqb c COMMA && startsWith [X] (drop_while isWhiteSpace t)
          then X :: dropCommaBefore_from X
                      (S (length (take_while isWhiteSpace t))) t
          else c :: dropCommaBefore_from X 0 t
      end
  end.

Definition dropCommaBefore (X : code_unit) (s : jsstring) : jsstring :=
  dropCommaBefore_from X 0 s.

(** [s.indexOf(c)] and [s.lastIndexOf(c)] for a single code unit. *)
Fixpoint indexOf_from (c : code_unit) (i : Z) (s : jsstring) : Z :=
  match s with
  | [] => -1
  | x :: r => if N.eqb x c then i else indexOf_from c (i + 1) r
  end.

Definition indexOf (c : code_unit) (s : jsstring) : Z := indexOf_from c 0 s.

Fixpoint lastIndexOf_from (c : code_unit) (i found : Z) (s : jsstring) : Z :=
  match s with
  | [] => found
  | x :: r => lastIndexOf_from c (i + 1) (if N.eqb x c then i else found) r
  end.

Definition lastIndexOf (c : code_unit) (s : jsstring) : Z :=
  lastIndexOf_from c 0 (-1) s.

(** [s.substring(from, to)]: both ends are clamped to the string and
    swapped when they come in the wrong order. *)
Definition substring (s : jsstring) (from to : Z) : jsstring :=
  let len := Z.of_nat (length s) in
  let a := Z.min (Z.max from 0) len in
  let b := Z.min (Z.max to 0) len in
  let lo := Z.min a b in
  let hi := Z.max a b in
  take (Z.to_nat (hi - lo)) (drop (Z.to_nat lo) s).

(** ** JSON values and [JSON.parse] *)

#[warnings="-register-all"]
Inductive value :=
  | JNull
  | JBool (b : bool)
  | JNumber (q : Q)
  | JString (s : jsstring)
  | JArray (items : list value)
  | JObject (props : list (jsstring * value)).

Inductive Exn :=
  | Error (message : jsstring)
  | SyntaxError
  | TypeError.

Inductive completion (A : Type) :=
  | Return (a : A)
  | Throw (e : Exn).
Arguments Return {A} a.
Arguments Throw {A} e.

Inductive presult (A : Type) :=
  | POk (a : A) (rest : jsstring)
  | PErr
  | PFuel.
Arguments POk {A} a rest.
Arguments PErr {A}.
Arguments PFuel {A}.

Local Open Scope N_scope.

Definition isJsonWs (c : code_unit) : bool :=
  (c =? 9) || (c =? 10) || (c =? 13) || (c =? 32).

Fixpoint skipWs (s : jsstring) : jsstring :=
  match s with
  | c :: t => if isJsonWs c then skipWs t else s
  | [] => []
  end.

Definition isDigit (c : code_unit) : bool := (48 <=? c) && (c <=? 57).

Definition hexVal (c : code_unit) : option N :=
  if isDigit c then Some (c - 48)
  else if (65 <=? c) && (c <=? 70) then Some (c - 55)
  else if (97 <=? c) && (c <=? 102) then Some (c - 87)
  else None.

(** The character an escape [\e] stands for, [\u] apart. *)
Definition unescape (e : code_unit) : option code_unit :=
  if e =? 34 then Some 34          (* quote *)
  else if e =? 92 then Some 92     (* backslash *)
  else if e =? 47 then Some 47     (* solidus *)
  else if e =? 98 then Some 8      (* b *)
  else if e =? 102 then Some 12    (* f *)
  else if e =? 110 then Some 10    (* n *)
  else if e =? 114 then Some 13    (* r *)
  else if e =? 116 then Some 9     (* t *)
  else None.

(** The characters of a string literal after its opening quote, up to and
    including the closing one. *)
Fixpoint parseChars (s acc : jsstring) : option (jsstring * jsstring) :=
  match s with
  | [] => None
  | c :: t =>
      if c =? 34 then Some (rev acc, t)
      else if c =? 92 then
        match t with
        | [] => None
        | e :: t' =>
            if e =? 117 then
              match t' with
              | h1 :: h2 :: h3 :: h4 :: t'' =>
                  match hexVal h1, hexVal h2, hexVal h3, hexVal h4 with
                  | Some a, Some b, Some c, Some d =>
                      parseChars t'' ((((a * 16 + b) * 16 + c) * 16 + d) :: acc)
                  | _, _, _, _ => None
                  end
              | _ => None
              end
            else
              match unescape e with
              | Some u => parseChars t' (u :: acc)
              | None => None
              end
        end
      else if c <? 32 then None
      else parseChars t (c :: acc)
  end.

Local Open Scope Z_scope.

(** The value of a run of decimal digits read after [acc]. *)
Fixpoint digitsValue (acc : Z) (ds : jsstring) : Z :=
  match ds with
  | [] => acc
  | d :: r => digitsValue (10 * acc + Z.of_N (d - 48)) r
  end.

(** [m * 10 ^ e] as a rational. *)
Definition scale10 (m e : Z) : Q :=
  if 0 <=? e then inject_Z (m * 10 ^ e) else Qmake m (Z.to_pos (10 ^ (- e))).

Definition parseSign (s : jsstring) : bool * jsstring :=
  match s with
  | c :: t => if N.eqb c 45 then (true, t) else (false, s)
  | [] => (false, s)
  end.

(** The integer part: a single zero, or a run of digits that does not
    start with zero. *)
Definition parseInt (s : jsstring) : option (jsstring * jsstring) :=
  match s with
  | c :: t =>
      if N.eqb c 48 then Some ([c], t)
      else if isDigit c
      then Some (take_while isDigit s, drop_while isDigit s)
      else None
  | [] => None
  end.

(** The fraction, if any: a dot and at least one digit. *)
Definition parseFrac (s : jsstring) : option (jsstring * jsstring) :=
  match s with
  | c :: t =>
      if N.eqb c 46 then
        match take_while isDigit t with
        | [] => None
        | fd => Some (fd, drop_while isDigit t)
        end
      else Some ([], s)
  | [] => Some ([], s)
  end.

(** The exponent, if any: e or E, an optional sign, at least one digit. *)
Definition parseExp (s : jsstring) : option (Z * jsstring) :=
  match s with
  | c :: t =>
      if N.eqb c 101 || N.eqb c 69 then
        let '(eneg, t) :=
          match t with
          | sg :: t' =>
              if N.eqb sg 45 then (true, t')
              else if N.eqb sg 43 then (false, t')
              else (false, t)
          | [] => (false, t)
          end in
        match take_while isDigit t with
        | [] => None
        | ed =>
            let e := digitsValue 0 ed in
            Some (if eneg then - e else e, drop_while isDigit t)
        end
      else Some (0, s)
  | [] => Some (0, s)
  end.

(** A JSON number: an optional minus sign, the integer part, an optional
    fraction, an optional exponent. *)
Definition parseNumber (s : jsstring) : option (Q * jsstring) :=
  let '(neg, s) := parseSign s in
  match parseInt s with
  | None => None
  | Some (int, s) =>
      match parseFrac s with
      | None => None
      | Some (fd, s) =>
          match parseExp s with
          | None => None
          | Some (e, rest) =>
              let m := digitsValue 0 (int ++ fd) in
              let q := scale10 m (e - Z.of_nat (length fd)) in
              Some (if neg then Qopp q else q, rest)
          end
      end
  end.

Local Open Scope N_scope.

(** Recursive descent over the JSON grammar. Every call spends one unit of
    [fuel]; [PFuel] tells an exhausted budget from a syntax error. *)
Fixpoint parseValue (fuel : nat) (s : jsstring) : presult value :=
  match fuel with
  | O => PFuel
  | S fuel =>
      match skipWs s with
      | [] => PErr
      | c :: t =>
          if c =? 123 then
            match skipWs t with
            | c' :: t' =>
                if c' =? 125 then POk (JObject []) t'
                else
                  match parseMembers fuel (c' :: t') [] with
                  | POk props r => POk (JObject props) r
                  | PErr => PErr
                  | PFuel => PFuel
                  end
            | [] => PErr
            end
          else if c =? 91 then
            match skipWs t with
            | c' :: t' =>
                if c' =? 93 then POk (JArray []) t'
                else
                  match parseElements fuel (c' :: t') [] with
                  | POk items r => POk (JArray items) r
                  | PErr => PErr
                  | PFuel => PFuel
                  end
            | [] => PErr
            end
          else if c =? 34 then
            match parseChars t [] with
            | Some (str, r) => POk (JString str) r
            | None => PErr
            end
          else if startsWith (js "true") (c :: t)
          then POk (JBool true) (drop 4 (c :: t))
          else if startsWith (js "false") (c :: t)
          then POk (JBool false) (drop 5 (c :: t))
          else if startsWith (js "null") (c :: t)
          then POk JNull (drop 4 (c :: t))
          else
            match parseNumber (c :: t) with
            | Some (q, r) => POk (JNumber q) r
            | None => PErr
            end
      end
  end
with parseElements (fuel : nat) (s : jsstring) (acc : list value)
  : presult (list value) :=
  match fuel with
  | O => PFuel
  | S fuel =>
      match parseValue fuel s with
      | POk v r =>
          match skipWs r with
          | c :: t =>
              if c =? 44 then parseElements fuel t (v :: acc)
              else if c =? 93 then POk (rev (v :: acc)) t
              else PErr
          | [] => PErr
          end
      | PErr => PErr
      | PFuel => PFuel
      end
  end
with parseMembers (fuel : nat) (s : jsstring) (acc : list (jsstring * value))
  : presult (list (jsstring * value)) :=
  match fuel with
  | O => PFuel
  | S fuel =>
      match skipWs s with
      | c :: t =>
          if c =? 34 then
            match parseChars t [] with
            | Some (key, r) =>
                match skipWs r with
                | c2 :: t2 =>
                    if c2 =? 58 then
                      match parseValue fuel t2 with
                      | POk v r2 =>
                          match skipWs r2 with
                          | c3 :: t3 =>
                              if c3 =? 44
                              then parseMembers fuel t3 ((key, v) :: acc)
                              else if c3 =? 125
                              then POk (rev ((key, v) :: acc)) t3
                              else PErr
                          | [] => PErr
                          end
                      | PErr => PErr
                      | PFuel => PFuel
                      end
                    else PErr
                | [] => PErr
                end
            | None => PErr
            end
          else PErr
      | [] => PErr
      end
  end.

Local Open Scope Z_scope.

(** A budget under which the descent is never cut short: see
    [parse_fuel_enough] below. *)
Definition parseFuel (s : jsstring) : nat := (2 * length s + 2)%nat.

(** [JSON.parse(text)]: one value, white space around it, nothing else. *)
Definition JSON_parse (text : jsstring) : completion value :=
  match parseValue (parseFuel text) text with
  | POk v r =>
      match skipWs r with
      | [] => Return v
      | _ :: _ => Throw SyntaxError
      end
  | _ => Throw SyntaxError
  end.

(** ** Transcript analyzer *)

Definition BACKTICKS : jsstring := [96; 96; 96]%N.
Definition LBRACE : code_unit := 123%N.
Definition RBRACE : code_unit := 125%N.
Definition RBRACKET : code_unit := 93%N.

Definition sanitizeAndParseJSON (jsonText : jsstring) : completion value :=
  (* 1. Remove markdown code blocks if any *)
  let cleaned :=
    replaceAll BACKTICKS [] (replaceAll (BACKTICKS ++ js "json") [] jsonText) in
  (* 2. Find the first opening and the last closing brace *)
  let firstBrace := indexOf LBRACE cleaned in
  let lastBrace := lastIndexOf RBRACE cleaned in
  if negb (firstBrace =? -1) && negb (lastBrace =? -1) then
    let cleaned := substring cleaned firstBrace (lastBrace + 1) in
    (* 3. Attempt parsing *)
    match JSON_parse cleaned with
    | Return v => Return v
    | Throw e =>
        (* 4. Attempt to fix trailing commas *)
        let cleaned :=
          dropCommaBefore RBRACKET (dropCommaBefore RBRACE cleaned) in
        match JSON_parse cleaned with
        | Return v => Return v
        | Throw e2 => Throw e
        end
    end
  else Throw (Error (js "No JSON object found in response")).

(** [v.key], for the property names read by the analyzer: none of them
    is found on a prototype, so only the own properties of an object
    count. [None] is [undefined]; of a repeated key the last one stands. *)
Definition getProp (v : value) (key : jsstring) : option value :=
  match v with
  | JObject props =>
      snd <$> head (filter (λ kv, bool_decide (kv.1 = key)) (rev props))
  | _ => None
  end.

(** Truthiness of a value that may be [undefined]. *)
Definition truthyValue (v : option value) : bool :=
  match v with
  | None => false
  | Some JNull => false
  | Some (JBool b) => b
  | Some (JNumber q) => negb (Qeq_bool q 0)
  | Some (JString s) => truthy s
  | Some (JArray _) => true
  | Some (JObject _) => true
  end.

(** [v || d] *)
Definition orDefault (v : option value) (d : value) : value :=
  match v with
  | Some x => if truthyValue v then x else d
  | None => d
  end.

Record GestureMetrics := {
  smileCount : Z;
  eyeTouchCount : Z;
  handGestureCount : Z
}.

(** The report as it exists at run time: [parsed] is of type [any], so
    apart from the score and the two arrays the fields hold whatever value
    the payload had. *)
Record Metrics := {
  technical : value;
  communication : value;
  confidence : value;
  clarity : value;
  problemSolving : value
}.

Record FeedbackData := {
  score : Q;
  summary : value;
  strengths : list value;
  improvements : list value;
  metrics : Metrics;
  gestureMetrics : option GestureMetrics
}.

Definition emptyMetrics : Metrics :=
  {| technical := JNumber 0; communication := JNumber 0;
     confidence := JNumber 0; clarity := JNumber 0;
     problemSolving := JNumber 0 |}.

Definition emptyData (gestureResults : option GestureMetrics) : FeedbackData :=
  {| score := 0;
     summary := JString (js
       "No meaningful conversation was recorded. Please check microphone settings.");
     strengths := [JString (js "N/A")];
     improvements := [JString (js "Ensure microphone is enabled");
                      JString (js "Check network connection")];
     metrics := emptyMetrics;
     gestureMetrics := gestureResults |}.

(** The report of the [catch (parseError)] branch. *)
Definition invalidFormatData (gestureResults : option GestureMetrics)
  : FeedbackData :=
  {| score := 0;
     summary := JString (js
       "The AI analyzed the interview but returned an invalid format.");
     strengths := [JString (js "Analysis Error")];
     improvements := [JString (js "Please try again")];
     metrics := emptyMetrics;
     gestureMetrics := gestureResults |}.

Definition emergencyData (gestureResults : option GestureMetrics)
  : FeedbackData :=
  {| score := 0;
     summary := JString (js "Network or API error during analysis.");
     strengths := [JString (js "N/A")];
     improvements := [JString (js "N/A")];
     metrics := emptyMetrics;
     gestureMetrics := gestureResults |}.

(** [parsed.metrics?.key || 0] *)
Definition metric (parsed : value) (key : jsstring) : value :=
  orDefault
    (match getProp parsed (js "metrics") with
     | None | Some JNull => None
     | Some m => getProp m key
     end)
    (JNumber 0).

(** The object literal built from [parsed]; reading a property of [null]
    throws. *)
Definition feedbackOfParsed (gestureResults : option GestureMetrics)
    (parsed : value) : completion FeedbackData :=
  match parsed with
  | JNull => Throw TypeError
  | _ =>
      Return
        {| score :=
             match getProp parsed (js "score") with
             | Some (JNumber q) => q
             | _ => 0
             end;
           summary :=
             orDefault (getProp parsed (js "summary"))
               (JString (js "Analysis complete."));
           strengths :=
             match getProp parsed (js "strengths") with
             | Some (JArray items) => items
             | _ => [JString (js "No specific strengths detected")]
             end;
           improvements :=
             match getProp parsed (js "improvements") with
             | Some (JArray items) => items
             | _ => [JString (js "No specific improvements detected")]
             end;
           metrics :=
             {| technical := metric parsed (js "technical");
                communication := metric parsed (js "communication");
                confidence := metric parsed (js "confidence");
                clarity := metric parsed (js "clarity");
                problemSolving := metric parsed (js "problemSolving") |};
           gestureMetrics := gestureResults |}
  end.

(** The inner [try] block of [handleEndInterview]: the text is parsed and
    the fields are read. *)
Definition buildFeedback (gestureResults : option GestureMetrics)
    (jsonText : jsstring) : completion FeedbackData :=
  match sanitizeAndParseJSON jsonText with
  | Return parsed => feedbackOfParsed gestureResults parsed
  | Throw e => Throw e
  end.

(** The inner [try] with its [catch (parseError)]. *)
Definition feedbackOfText (gestureResults : option GestureMetrics)
    (jsonText : jsstring) : FeedbackData :=
  match buildFeedback gestureResults jsonText with
  | Return feedbackData => feedbackData
  | Throw parseError => invalidFormatData gestureResults
  end.

(** [handleEndInterview] up to the point where the final transcript is
    read. *)
Definition handleEndInterview_begin (st : Store) : Store :=
  st |> set_currentSessionIdRef [] |> stopAllMedia |> set_state ANALYZING.

Definition finalTranscript (st : Store) : jsstring :=
  fullTranscriptRef st
  ++ (if truthy (currentInputRef st)
      then LF :: js "Candidate (Final): " ++ currentInputRef st else [])
  ++ (if truthy (currentOutputRef st)
      then LF :: js "Interviewer (Final): " ++ currentOutputRef st else []).

(** How the remote endpoint answers [generateContent]: the call (or the
    reading of [response.text]) fails with some exception, or there is a
    response whose text may be [undefined]. *)
Inductive RemoteResult :=
  | Rejected (e : Exn)
  | Responded (text : option jsstring).

(** [text || d] *)
Definition orText (text : option jsstring) (d : jsstring) : jsstring :=
  match text with
  | Some t => if truthy t then t else d
  | None => d
  end.

(** What the analysis does to the outside while it runs. *)
Inductive Effect :=
  | Delay (ms : Z)                       (* [setTimeout(resolve, ms)] *)
  | GenerateContent (prompt : jsstring).

Section Analysis.
(** The instruction template of constants.ts and the credential. *)
Variable FEEDBACK_GENERATION_PROMPT : jsstring.
Variable API_KEY : option jsstring.
(** The remote model. *)
Variable generateContent : jsstring → RemoteResult.

Definition analysisPrompt (finalTranscript : jsstring) : jsstring :=
  FEEDBACK_GENERATION_PROMPT ++ [LF; LF] ++ js "TRANSCRIPT:" ++ [LF]
    ++ finalTranscript.

(** The outer [try] block: the credential is looked up, the remote model
    asked, its answer turned into a report. *)
Definition requestFeedback (gestureResults : option GestureMetrics)
    (finalTranscript : jsstring) : list Effect * completion FeedbackData :=
  match API_KEY with
  | Some (_ :: _) =>
      let prompt := analysisPrompt finalTranscript in
      ([GenerateContent prompt],
       match generateContent prompt with
       | Responded text =>
           let jsonText := orText text (js "{}") in
           Return (feedbackOfText gestureResults jsonText)
       | Rejected e => Throw e
       end)
  | _ => ([], Throw (Error (js "API Key missing")))
  end.

(** The rest of [handleEndInterview]: what it did on the way and how it
    completes, with the report it arrived at or with an exception. *)
Definition analysis (gestureResults : option GestureMetrics)
    (finalTranscript : jsstring) : list Effect * completion FeedbackData :=
  if negb (truthy finalTranscript)
     || (Z.of_nat (length finalTranscript) <? 10)
  then ([Delay 2000], Return (emptyData gestureResults))
  else
    let '(effects, outcome) := requestFeedback gestureResults finalTranscript in
    (effects,
     match outcome with
     | Return feedbackData => Return feedbackData
     | Throw e => Return (emergencyData gestureResults)
     end).

(** [setFeedback] is reached only while the application is still in
    the analyzing state. *)
Definition publishedFeedback (stateRef : InterviewState)
    (gestureResults : option GestureMetrics) (finalTranscript : jsstring)
  : option FeedbackData :=
  match stateRef, (analysis gestureResults finalTranscript).2 with
  | ANALYZING, Return feedbackData => Some feedbackData
  | _, _ => None
  end.
End Analysis.

(** Where the guard before [setFeedback] reads [stateRef.current]. The ref
    is written by an effect after a render (lines 40-42), so it holds the
    state set at line 646 only once [handleEndInterview] has awaited: after
    the delay of the short path, or after the remote call. With the
    credential missing the [catch] is reached in the task that called
    [setState], and the ref still holds [endedFrom], the state in which the
    interview was ended; [current] is the state at the time of the guard
    on the other paths. *)
Definition guardState (API_KEY : option jsstring)
    (endedFrom current : InterviewState) (finalTranscript : jsstring)
  : InterviewState :=
  if negb (truthy finalTranscript)
     || (Z.of_nat (length finalTranscript) <? 10)
  then current
  else
    match API_KEY with
    | Some (_ :: _) => current
    | _ => endedFrom
    end.

(** A well-formed report is one of the interface [FeedbackData] of
    types.ts: its summary is a string, the items of its two lists are
    strings and its five sub-metrics are numbers. The score is a number,
    the lists are lists and the gesture counts are numbers by the types of
    the record. *)
Definition isString (v : value) : bool :=
  match v with JString _ => true | _ => false end.
Definition isNumber (v : value) : bool :=
  match v with JNumber _ => true | _ => false end.

Definition wellTyped (r : FeedbackData) : bool :=
  isString (summary r)
  && forallb isString (strengths r)
  && forallb isString (improvements r)
  && isNumber (technical (metrics r))
  && isNumber (communication (metrics r))
  && isNumber (confidence (metrics r))
  && isNumber (clarity (metrics r))
  && isNumber (problemSolving (metrics r)).

(** ** Events of a session

    The pieces of code that the event loop runs on behalf of the session
    whose token they captured at creation. *)

Inductive Event :=
  | Opened
  | Message (msg : LiveServerMessage) (currentTime : Q)
  | Decoded (decoded : option Q) (currentTime : Q)
  | Ended (source : node)
  | Closed
  | Errored.

Definition handle (sessionId : jsstring) (ev : Event) (st : Store) : Store :=
  match ev with
  | Opened => onopen sessionId st
  | Message msg currentTime => (onmessage sessionId msg currentTime st).1
  | Decoded decoded currentTime => onmessage_decoded decoded currentTime st
  | Ended source => onended source st
  | Closed => onclose sessionId st
  | Errored => onerror sessionId st
  end.

(** An event is token-exclusive when it leaves every store alone whose
    current token is not its own. *)
Definition tokenExclusive (ev : Event) : Prop :=
  ∀ (sessionId : jsstring) (st : Store),
    currentSessionIdRef st ≠ sessionId → handle sessionId ev st = st.

(** ** Playback timeline: runs of the scheduler *)

(** The decoded buffers of a run, each with the clock reading at the moment
    it is scheduled and its duration, put on the timeline in this order. *)
Definition scheduleAll (arrivals : list (Q * Q)) (st : Store) : Store :=
  foldl (λ st a, scheduleBuffer a.1 a.2 st) st arrivals.

(** Start time and duration of every buffer the device was asked to play. *)
Definition bufferStarts (log : list AudioCmd) : list (Q * Q) :=
  omap (λ c, match c with
             | BufferStart _ when duration => Some (when, duration)
             | _ => None
             end) log.

(** The buffers started between two stores. *)
Definition startedSince (st st' : Store) : list (Q * Q) :=
  drop (length (bufferStarts (audioDevice st)))
       (bufferStarts (audioDevice st')).

(** The timeline as a function of the cursor and the arrivals alone. *)
Fixpoint timeline (nextStart : Q) (arrivals : list (Q * Q)) : list (Q * Q) :=
  match arrivals with
  | [] => []
  | (currentTime, duration) :: rest =>
      let start := Qmax nextStart currentTime in
      (start, duration) :: timeline (start + duration) rest
  end.

(** ** Messages and stores used in the scenarios *)

Definition turnCompleteMsg : LiveServerMessage :=
  {| outputTranscription := None; inputTranscription := None;
     turnComplete := true; interrupted := false; inlineData := None |}.

Definition interruptedMsg : LiveServerMessage :=
  {| outputTranscription := None; inputTranscription := None;
     turnComplete := false; interrupted := true; inlineData := None |}.

Definition textMsg (candidate interviewer : jsstring) : LiveServerMessage :=
  {| outputTranscription := Some interviewer;
     inputTranscription := Some candidate;
     turnComplete := false; interrupted := false; inlineData := None |}.

Definition audioMsg (base64Audio : jsstring) : LiveServerMessage :=
  {| outputTranscription := None; inputTranscription := None;
     turnComplete := false; interrupted := false;
     inlineData := Some base64Audio |}.

(** A session token, as [Date.now().toString()] produces them, and a later
    one. *)
Definition sessionA : jsstring := js "1700000000000".
Definition sessionB : jsstring := js "1700000005000".

(** The store of a session that has been started and whose channel has
    opened. *)
Definition activeStore (sessionId : jsstring) : Store :=
  onopen sessionId (startInterview sessionId initialStore).

(** The accumulators once the message's own partial texts are in. *)
Definition accumulated (msg : LiveServerMessage) (st : Store) : Store :=
  appendInputTranscription msg (appendOutputTranscription msg st).

(** Every code unit is white space: what [trim] reduces to nothing. *)
Definition blank (s : jsstring) : Prop := Forall (λ c, isWhiteSpace c = true) s.

(** ** Payloads used in the scenarios *)

(** The fenced payload with a trailing comma, its line breaks being line
    feeds. *)
Definition fencedPayload : jsstring :=
  BACKTICKS ++ js "json" ++ [LF]
  ++ jsq "{'score':82,'summary':'Solid.','strengths':['Clear'],'improvements':['Depth',],'metrics':{'technical':7}}"
  ++ [LF] ++ BACKTICKS.

(** The same payload with each line break spelled as a backslash and an
    [n]. *)
Definition fencedPayload_escaped : jsstring :=
  BACKTICKS ++ js "json\n"
  ++ jsq "{'score':82,'summary':'Solid.','strengths':['Clear'],'improvements':['Depth',],'metrics':{'technical':7}}"
  ++ js "\n" ++ BACKTICKS.

(** A payload that parses but gives one sub-metric as text. *)
Definition textMetricPayload : jsstring :=
  jsq "{'score':82,'summary':'Solid.','strengths':['Clear'],'improvements':['Depth'],'metrics':{'technical':'high','communication':7,'confidence':7,'clarity':7,'problemSolving':7}}".

(** A payload that gives the score and the strengths as text. *)
Definition textScorePayload : jsstring :=
  jsq "{'score':'82','summary':'Solid.','strengths':'Clear','improvements':['Depth'],'metrics':{'technical':7,'communication':7,'confidence':7,'clarity':7,'problemSolving':7}}".

(** A payload that is plain JSON with every field of the expected type. *)
Definition validPayload : jsstring :=
  jsq "{'score':82,'summary':'Solid.','strengths':['Clear'],'improvements':['Depth'],'metrics':{'technical':7,'communication':8,'confidence':6,'clarity':7,'problemSolving':5}}".

(** A payload that is no JSON at all. *)
Definition prosePayload : jsstring :=
  js "The candidate did well overall and should practise system design.".

Definition scenarioTranscript : jsstring :=
  js "Candidate: I built a cache." ++ [LF] ++ js "Interviewer: Good job."
  ++ [LF].

(** ** The steps of the session controller

    [startInterview], [handleEndInterview] and [handleHardReset] are async
    functions; between their [await]s any callback may run. Their
    synchronous pieces are the steps below, so that every order in which
    the event loop can run the pieces is a list of steps. [stopAllMedia]
    writes the empty token before its [await]s and stops the sources after
    the last of them: a run in which callbacks come in between is
    [Invalidate], the callbacks, then [Teardown]. *)

(** [startInterview], from the new token to [setTokenUsage(0)]. *)
Definition resetForStart (newSessionId : jsstring) (st : Store) : Store :=
  st |> set_currentSessionIdRef newSessionId
     |> set_nextStartTimeRef 0
     |> set_currentInputRef []
     |> set_currentOutputRef []
     |> set_fullTranscriptRef []
     |> set_state CONNECTING
     |> set_transcripts []
     |> set_currentInputTrans []
     |> set_currentOutputTrans []
     |> set_tokenUsage 0.

(** [startInterview], the creation of the two audio contexts with their
    silence loops. *)
Definition createContexts (st : Store) : Store :=
  st |> set_outputAudioContextRef (Some running)
     |> startSilenceLoop
     |> startSilenceLoop.

(** [handleHardReset] after its awaits: refs dropped, cursors and React
    state reset. *)
Definition hardResetFinish (st : Store) : Store :=
  st |> set_outputAudioContextRef None
     |> set_sourcesRef ∅
     |> set_nextStartTimeRef 0
     |> set_currentInputRef []
     |> set_currentOutputRef []
     |> set_fullTranscriptRef []
     |> set_transcripts []
     |> set_currentInputTrans []
     |> set_currentOutputTrans []
     |> set_tokenUsage 0
     |> set_state IDLE.

Inductive Step :=
  | Invalidate                       (* the empty token is written *)
  | Teardown                         (* [stopAllMedia] *)
  | ResetForStart (newSessionId : jsstring)
  | CreateContexts
  | HardResetFinish
  | SetState (s : InterviewState)    (* a bare [setState(s)] *)
  | Callback (sessionId : jsstring) (ev : Event).

Definition step (a : Step) (st : Store) : Store :=
  match a with
  | Invalidate => set_currentSessionIdRef [] st
  | Teardown => stopAllMedia st
  | ResetForStart newSessionId => resetForStart newSessionId st
  | CreateContexts => createContexts st
  | HardResetFinish => hardResetFinish st
  | SetState s => set_state s st
  | Callback sessionId ev => handle sessionId ev st
  end.

Definition steps (l : list Step) (st : Store) : Store :=
  foldl (λ st a, step a st) st l.

(** The stores the application can be in. *)
Definition reachable (st : Store) : Prop :=
  ∃ l : list Step, st = steps l initialStore.

(** The committed turns as pairs of candidate and interviewer text, the
    entries they make in the transcript list and the lines they make in
    the transcript document. *)
Definition turnEntries (turn : jsstring * jsstring) : list ChatMessage :=
  [ {| role := user; text := turn.1 |}; {| role := model; text := turn.2 |} ].

Definition turnLine (turn : jsstring * jsstring) : jsstring :=
  js "Candidate: " ++ turn.1 ++ [LF] ++ js "Interviewer: " ++ turn.2 ++ [LF].

(** The transcript list and the transcript document tell the same turns. *)
Definition transcriptsAgree (st : Store) : Prop :=
  ∃ turns : list (jsstring * jsstring),
    transcripts st = turns ≫= turnEntries
    ∧ fullTranscriptRef st = turns ≫= turnLine.

(** What is on screen as the turn in progress is what is accumulated. *)
Definition mirrorsAgree (st : Store) : Prop :=
  currentInputTrans st = currentInputRef st
  ∧ currentOutputTrans st = currentOutputRef st.

(** The node a command is about. *)
Definition cmdNode (c : AudioCmd) : node :=
  match c with
  | LoopStart n => n
  | BufferStart n _ _ => n
  | NodeStop n => n
  end.

(** The device has been asked to start the node. *)
Definition startedOn (log : list AudioCmd) (n : node) : Prop :=
  LoopStart n ∈ log ∨ ∃ when duration, BufferStart n when duration ∈ log.

(** Every active source is playing as far as the controller knows: it has
    been started and the controller has not stopped it. *)
Definition activeSourcesPlaying (st : Store) : Prop :=
  ∀ n : node,
    n ∈ sourcesRef st →
    startedOn (audioDevice st) n ∧ NodeStop n ∉ audioDevice st.

(** The durations of a run of arrivals, summed. *)
Definition totalDuration (arrivals : list (Q * Q)) : Q :=
  foldr (λ a acc, (a.2 + acc)%Q) 0%Q arrivals.

(** The bookkeeping behind [activeSourcesPlaying]: nodes are numbered in
    the order of their creation, so a new node is none the device has
    heard of. *)
Definition audioInv (st : Store) : Prop :=
  (∀ c, c ∈ audioDevice st → (cmdNode c < nodesCreated st)%positive)
  ∧ (∀ n, n ∈ sourcesRef st →
       (n < nodesCreated st)%positive
       ∧ startedOn (audioDevice st) n ∧ NodeStop n ∉ audioDevice st).

(** A message that carries the last partial texts of a turn together with
    its completion. *)
Definition closingMsg (candidate interviewer : jsstring) : LiveServerMessage :=
  {| outputTranscription := Some interviewer;
     inputTranscription := Some candidate;
     turnComplete := true; interrupted := false; inlineData := None |}.

(** The callbacks that begin with the comparison of the token; the
    continuation of [onmessage] after its [await] and the [ended] listener
    do not. *)
Definition comparesToken (ev : Event) : bool :=
  match ev with
  | Decoded _ _ | Ended _ => false
  | _ => true
  end.

(** Callbacks as steps, each with the token its session captured. *)
Definition callbacks (l : list (jsstring * Event)) : list Step :=
  (λ p, Callback p.1 p.2) <$> l.

(** A callback of an earlier session: its token is a time stamp, so not
    the empty string, and not the token of the session being started. *)
Definition earlier (newSessionId : jsstring) (p : jsstring * Event) : Prop :=
  p.1 ≠ [] ∧ p.1 ≠ newSessionId.

(** [startInterview] up to the opening of its channel, cut at its
    [await]s, with the callbacks that run in between: while [stopAllMedia]
    closes the channel and the contexts ([n0]), during the cooldown ([n1]),
    while the new contexts are resumed ([n2]), while the microphone is
    asked for and the channel connects ([n3]), and once the channel has
    opened ([n4]). *)
Definition startRun (newSessionId : jsstring)
    (n0 n1 n2 n3 n4 : list (jsstring * Event)) : list Step :=
  [Invalidate] ++ callbacks n0 ++ [Teardown] ++ callbacks n1
  ++ [ResetForStart newSessionId] ++ callbacks n2
  ++ [CreateContexts] ++ callbacks n3
  ++ [Callback newSessionId Opened] ++ callbacks n4.

(** The token, the state and the texts of a store: what the continuation
    of [onmessage] and the [ended] listener leave alone. *)
Definition textView (st : Store) :=
  (currentSessionIdRef st, state st, transcripts st, fullTranscriptRef st,
   (currentInputRef st, currentOutputRef st),
   (currentInputTrans st, currentOutputTrans st), tokenUsage st).

(** A run of the application: a session is started, its channel opens, a
    turn is said and completed, the interviewer is interrupted in the next
    one, and the interview is ended. *)
Definition sampleRun : list Step :=
  [ Invalidate; Teardown; ResetForStart sessionA; CreateContexts;
    Callback sessionA Opened;
    Callback sessionA (Message (textMsg (js "Hi") (js "Hello")) 1);
    Callback sessionA (Message turnCompleteMsg 2);
    Callback sessionA (Decoded (Some (1 # 2)) 3);
    Callback sessionA (Message (textMsg (js "Wait") (js "So")) 3);
    Callback sessionA (Message interruptedMsg 4);
    Invalidate; Teardown; SetState ANALYZING ].

(** ** The gesture service (services/gestureService.ts)

    The service object with its debouncing state. The two landmark models
    and the geometry on their coordinates are floating point and stay
    outside: a frame comes in with what the geometry has found, that is
    whether a face is seen and its mouth is wider than the smile threshold
    of the face width, and for every hand whether its index tip is within
    the eye threshold of one of the eyes. The frame also carries the clock
    readings: [performance.now()], and for each of the three blocks the two
    readings of [Date.now()], the one compared and the one stored. The two
    landmarkers are set before [isReady] is, so that the guard of [detect]
    is [isReady]. *)

Module GestureService.

Definition DEBOUNCE_MS : Z := 1500.

Record Service := mkService {
  isReady : bool;
  lastSmileTime : Z;
  lastEyeTouchTime : Z;
  lastGestureTime : Z;
  isCurrentlySmiling : bool;
  isCurrentlyTouchingEye : bool;
  isCurrentlyGesturing : bool;
  lastVideoTime : Q;
  (* [metrics] *)
  smiles : Z;
  eyeTouches : Z;
  handGestures : Z
}.

Definition set_isReady (v : bool) (s : Service) : Service :=
  mkService v (lastSmileTime s) (lastEyeTouchTime s) (lastGestureTime s)
    (isCurrentlySmiling s) (isCurrentlyTouchingEye s) (isCurrentlyGesturing
    s) (lastVideoTime s) (smiles s) (eyeTouches s) (handGestures s).
Definition set_lastSmileTime (v : Z) (s : Service) : Service :=
  mkService (isReady s) v (lastEyeTouchTime s) (lastGestureTime s)
    (isCurrentlySmiling s) (isCurrentlyTouchingEye s) (isCurrentlyGesturing
    s) (lastVideoTime s) (smiles s) (eyeTouches s) (handGestures s).
Definition set_lastEyeTouchTime (v : Z) (s : Service) : Service :=
  mkService (isReady s) (lastSmileTime s) v (lastGestureTime s)
    (isCurrentlySmiling s) (isCurrentlyTouchingEye s) (isCurrentlyGesturing
    s) (lastVideoTime s) (smiles s) (eyeTouches s) (handGestures s).
Definition set_lastGestureTime (v : Z) (s : Service) : Service :=
  mkService (isReady s) (lastSmileTime s) (lastEyeTouchTime s) v
    (isCurrentlySmiling s) (isCurrentlyTouchingEye s) (isCurrentlyGesturing
    s) (lastVideoTime s) (smiles s) (eyeTouches s) (handGestures s).
Definition set_isCurrentlySmiling (v : bool) (s : Service) : Service :=
  mkService (isReady s) (lastSmileTime s) (lastEyeTouchTime s)
    (lastGestureTime s) v (isCurrentlyTouchingEye s) (isCurrentlyGesturing
    s) (lastVideoTime s) (smiles s) (eyeTouches s) (handGestures s).
Definition set_isCurrentlyTouchingEye (v : bool) (s : Service) : Service :=
  mkService (isReady s) (lastSmileTime s) (lastEyeTouchTime s)
    (lastGestureTime s) (isCurrentlySmiling s) v (isCurrentlyGesturing s)
    (lastVideoTime s) (smiles s) (eyeTouches s) (handGestures s).
Definition set_isCurrentlyGesturing (v : bool) (s : Service) : Service :=
  mkService (isReady s) (lastSmileTime s) (lastEyeTouchTime s)
    (lastGestureTime s) (isCurrentlySmiling s) (isCurrentlyTouchingEye s) v
    (lastVideoTime s) (smiles s) (eyeTouches s) (handGestures s).
Definition set_lastVideoTime (v : Q) (s : Service) : Service :=
  mkService (isReady s) (lastSmileTime s) (lastEyeTouchTime s)
    (lastGestureTime s) (isCurrentlySmiling s) (isCurrentlyTouchingEye s)
    (isCurrentlyGesturing s) v (smiles s) (eyeTouches s) (handGestures s).
Definition set_smiles (v : Z) (s : Service) : Service :=
  mkService (isReady s) (lastSmileTime s) (lastEyeTouchTime s)
    (lastGestureTime s) (isCurrentlySmiling s) (isCurrentlyTouchingEye s)
    (isCurrentlyGesturing s) (lastVideoTime s) v (eyeTouches s)
    (handGestures s).
Definition set_eyeTouches (v : Z) (s : Service) : Service :=
  mkService (isReady s) (lastSmileTime s) (lastEyeTouchTime s)
    (lastGestureTime s) (isCurrentlySmiling s) (isCurrentlyTouchingEye s)
    (isCurrentlyGesturing s) (lastVideoTime s) (smiles s) v (handGestures
    s).
Definition set_handGestures (v : Z) (s : Service) : Service :=
  mkService (isReady s) (lastSmileTime s) (lastEyeTouchTime s)
    (lastGestureTime s) (isCurrentlySmiling s) (isCurrentlyTouchingEye s)
    (isCurrentlyGesturing s) (lastVideoTime s) (smiles s) (eyeTouches s) v.

(** The two readings of [Date.now()] of a block: in the condition and in
    the assignment. *)
Record Reads := { compared : Z; stored : Z }.

Record Frame := {
  (* [performance.now()] *)
  perfNow : Q;
  smileNow : Reads;
  eyeTouchNow : Reads;
  gestureNow : Reads;
  (* [faceResult.faceLandmarks.length > 0], with the outcome of
     [mouthWidth / faceWidth > SMILE_THRESHOLD] *)
  face : option bool;
  (* [handResult.landmarks], with for each hand the outcome of
     [normLeft < EYE_TOUCH_THRESHOLD || normRight < EYE_TOUCH_THRESHOLD] *)
  hands : list bool
}.

(** The service as constructed, before [initialize] has succeeded. *)
Definition created : Service :=
  mkService false 0 0 0 false false false (-1) 0 0 0.

(** [initialize], when the models have loaded. *)
Definition initialized (s : Service) : Service := set_isReady true s.

Definition reset (s : Service) : Service :=
  s |> set_smiles 0 |> set_eyeTouches 0 |> set_handGestures 0
    |> set_lastSmileTime 0 |> set_lastEyeTouchTime 0 |> set_lastGestureTime 0
    |> set_isCurrentlySmiling false |> set_isCurrentlyTouchingEye false
    |> set_isCurrentlyGesturing false |> set_lastVideoTime (-1).

(** The smile block. *)
Definition smileLogic (f : Frame) (smiling : bool) (s : Service) : Service :=
  if smiling then
    if negb (isCurrentlySmiling s)
       && (compared (smileNow f) - lastSmileTime s >? DEBOUNCE_MS)
    then s |> set_smiles (smiles s + 1)
           |> set_lastSmileTime (stored (smileNow f))
           |> set_isCurrentlySmiling true
    else s
  else set_isCurrentlySmiling false s.

(** The eye touch block, entered with a face in the frame. *)
Definition eyeTouchLogic (f : Frame) (s : Service) : Service :=
  match hands f with
  | [] => s
  | _ :: _ =>
      let touching := existsb id (hands f) in
      if touching then
        if negb (isCurrentlyTouchingEye s)
           && (compared (eyeTouchNow f) - lastEyeTouchTime s >? DEBOUNCE_MS)
        then s |> set_eyeTouches (eyeTouches s + 1)
               |> set_lastEyeTouchTime (stored (eyeTouchNow f))
               |> set_isCurrentlyTouchingEye true
        else s
      else set_isCurrentlyTouchingEye false s
  end.

(** The hand gesture block. *)
Definition handGestureLogic (f : Frame) (s : Service) : Service :=
  match hands f with
  | _ :: _ =>
      if negb (isCurrentlyGesturing s)
         && (compared (gestureNow f) - lastGestureTime s >? 3000)
      then s |> set_handGestures (handGestures s + 1)
             |> set_lastGestureTime (stored (gestureNow f))
             |> set_isCurrentlyGesturing true
      else s
  | [] => set_isCurrentlyGesturing false s
  end.

Definition detect (f : Frame) (s : Service) : Service :=
  if negb (isReady s) then s
  else if Qle_bool (perfNow f) (lastVideoTime s) then s
  else
    let s := set_lastVideoTime (perfNow f) s in
    let s :=
      match face f with
      | Some smiling => eyeTouchLogic f (smileLogic f smiling s)
      | None => s
      end in
    handGestureLogic f s.

(** [getMetrics] *)
Definition getMetrics (s : Service) : GestureMetrics :=
  {| smileCount := smiles s; eyeTouchCount := eyeTouches s;
     handGestureCount := handGestures s |}.

(** The frames of a video, one after the other. *)
Definition detectAll (frames : list Frame) (s : Service) : Service :=
  foldl (λ s f, detect f s) s frames.

(** The time stamps the service has stored at the frames at which a count
    went up, in the order of the frames. *)
Fixpoint stamps (count last : Service → Z) (frames : list Frame)
  (s : Service) : list Z :=
  match frames with
  | [] => []
  | f :: rest =>
      let s' := detect f s in
      (if count s' =? count s then [] else [last s'])
        ++ stamps count last rest s'
  end.

(** The clock does not go backwards between the two readings of a block. *)
Definition clockForward (f : Frame) : Prop :=
  compared (smileNow f) <= stored (smileNow f)
  ∧ compared (eyeTouchNow f) <= stored (eyeTouchNow f)
  ∧ compared (gestureNow f) <= stored (gestureNow f).

(** Frames that keep a gesture going: no face that has stopped smiling, no
    face with hands away from the eyes, no frame without hands. *)
Definition keepsSmile (f : Frame) : bool :=
  negb (bool_decide (face f = Some false)).

Definition keepsEyeTouch (f : Frame) : bool :=
  match face f, hands f with
  | Some _, _ :: _ => existsb id (hands f)
  | _, _ => true
  end.

Definition keepsGesture (f : Frame) : bool :=
  match hands f with [] => false | _ :: _ => true end.

End GestureService.

(** A candidate seen for four frames by a ready service: smiling with a hand
    at the eye, still so 400 ms later, neutral with the hand lowered at
    800 ms, and smiling with the hand at the eye again at 2000 ms. The wall
    clock starts at 1700000000000. *)
Definition frameAt (ms : Z) (smiling touching : bool)
  : GestureService.Frame :=
  let t := 1700000000000 + ms in
  {| GestureService.perfNow := inject_Z ms;
     GestureService.smileNow := GestureService.Build_Reads t t;
     GestureService.eyeTouchNow := GestureService.Build_Reads t t;
     GestureService.gestureNow := GestureService.Build_Reads t t;
     GestureService.face := Some smiling;
     GestureService.hands := [touching] |}.

Definition fourFrames : list GestureService.Frame :=
  [frameAt 0 true true; frameAt 400 true true; frameAt 800 false false;
   frameAt 2000 true true].

(** ** The resume text

    From the PDF to the prompt: [extractTextFromPDF] of
    services/pdfService.ts, the form of components/SetupForm.tsx, the
    cleaning at the start of [startInterview] and the snapshot in
    [SYSTEM_INSTRUCTION_TEMPLATE] of constants.ts. A PDF document is given
    by the strings of the text items of its pages. *)

Definition SPACE : code_unit := 32%N.

(** [items.join(sep)] *)
Definition join (sep : jsstring) (items : list jsstring) : jsstring :=
  match items with
  | [] => []
  | x :: r => x ++ (r ≫= λ y, sep ++ y)
  end.

(** The class of the first replacement of the cleaning: ASCII letters and
    digits, white space, and the marks . , ? ! @ ( ) and the hyphen. *)
Definition inCleanClass (c : code_unit) : bool :=
  let z := Z.of_N c in
  (97 <=? z) && (z <=? 122) || (65 <=? z) && (z <=? 90)
  || (48 <=? z) && (z <=? 57) || isWhiteSpace c
  || (z =? 46) || (z =? 44) || (z =? 63) || (z =? 33) || (z =? 64)
  || (z =? 40) || (z =? 41) || (z =? 45).

(** Every code unit outside the class becomes a space. *)
Definition replaceOutsideClass (s : jsstring) : jsstring :=
  (λ c, if inCleanClass c then c else SPACE) <$> s.

(** [s.replace(/\s+/g, ' ')]: every longest run of white space becomes one
    space. [inRun] tells that the code unit before was white space. *)
Fixpoint collapse_from (inRun : bool) (s : jsstring) : jsstring :=
  match s with
  | [] => []
  | c :: t =>
      if isWhiteSpace c
      then if inRun then collapse_from true t
           else SPACE :: collapse_from true t
      else c :: collapse_from false t
  end.

Definition collapseWhiteSpace (s : jsstring) : jsstring :=
  collapse_from false s.

(** [s.trimEnd()] and [s.trim()] *)
Fixpoint trimEnd (s : jsstring) : jsstring :=
  match s with
  | [] => []
  | c :: t =>
      match trimEnd t with
      | [] => if isWhiteSpace c then [] else [c]
      | t' => c :: t'
      end
  end.

Definition trim (s : jsstring) : jsstring :=
  trimEnd (drop_while isWhiteSpace s).

(** [s.replace(/[\{\}]/g, '')] *)
Definition removeBraces (s : jsstring) : jsstring :=
  List.filter (λ c, negb (N.eqb c LBRACE || N.eqb c RBRACE)) s.

(** The text of the first two pages: the items of a page joined by a
    space, a space after every page. *)
Definition fullText (pages : list (list jsstring)) : jsstring :=
  let maxPages := Nat.min (length pages) 2 in
  take maxPages pages ≫= λ items, join [SPACE] items ++ [SPACE].

Definition cleaned (pages : list (list jsstring)) : jsstring :=
  trim (collapseWhiteSpace (replaceOutsideClass (fullText pages))).

(** [extractTextFromPDF]. [pdfjsLib] tells whether the library is loaded,
    [document] is the document read from the file, [None] when reading the
    file, loading the document or getting a page or its text fails. *)
Definition extractTextFromPDF (pdfjsLib : bool)
  (document : option (list (list jsstring))) : completion jsstring :=
  if negb pdfjsLib then
    Throw (Error (js
      "PDF processing library not loaded. Please check internet connection."))
  else
    match document with
    | Some pages => Return (take 4000 (cleaned pages))
    | None =>
        Throw (Error (js
          "Failed to extract text from PDF. The file might be corrupted or password protected."))
    end.

(** [cleanResumeText] of [startInterview]. *)
Definition cleanResumeText (resumeText : jsstring) : jsstring :=
  if truthy resumeText
  then removeBraces (take 4000 (trim resumeText))
  else [].

(** The resume section of [SYSTEM_INSTRUCTION_TEMPLATE]: the text put
    between the quotes of the snapshot, [None] when the section is left
    out. *)
Definition resumeSnapshot (resumeText : jsstring) : option jsstring :=
  if truthy resumeText
  then Some (removeBraces (take 4000 resumeText))
  else None.

Module SetupForm.

Record InterviewConfig := {
  type : jsstring;
  persona : jsstring;
  context : jsstring;
  resumeText : jsstring;
  enableGestures : bool
}.

Record Form := {
  config : InterviewConfig;
  resumeFileName : jsstring;
  isExtracting : bool
}.

(** [file.type] and [file.name] *)
Record File := { fileType : jsstring; fileName : jsstring }.

Definition initialForm : Form :=
  {| config := {| type := js "Software Engineer";
                  persona := js "Friendly Recruiter";
                  context := [];
                  resumeText := [];
                  enableGestures := false |};
     resumeFileName := [];
     isExtracting := false |}.

Definition set_config (f : InterviewConfig → InterviewConfig) (form : Form)
  : Form :=
  {| config := f (config form); resumeFileName := resumeFileName form;
     isExtracting := isExtracting form |}.

Definition set_resumeFileName (v : jsstring) (form : Form) : Form :=
  {| config := config form; resumeFileName := v;
     isExtracting := isExtracting form |}.

Definition set_isExtracting (v : bool) (form : Form) : Form :=
  {| config := config form; resumeFileName := resumeFileName form;
     isExtracting := v |}.

Definition with_type (v : jsstring) (c : InterviewConfig) :=
  {| type := v; persona := persona c; context := context c;
     resumeText := resumeText c; enableGestures := enableGestures c |}.

Definition with_persona (v : jsstring) (c : InterviewConfig) :=
  {| type := type c; persona := v; context := context c;
     resumeText := resumeText c; enableGestures := enableGestures c |}.

Definition with_context (v : jsstring) (c : InterviewConfig) :=
  {| type := type c; persona := persona c; context := v;
     resumeText := resumeText c; enableGestures := enableGestures c |}.

Definition with_resumeText (v : jsstring) (c : InterviewConfig) :=
  {| type := type c; persona := persona c; context := context c;
     resumeText := v; enableGestures := enableGestures c |}.

Definition with_enableGestures (v : bool) (c : InterviewConfig) :=
  {| type := type c; persona := persona c; context := context c;
     resumeText := resumeText c; enableGestures := v |}.

(** [handleFileChange] up to its [await]: the alerts shown and whether the
    extraction is started. *)
Definition handleFileChange_begin (file : option File) (form : Form)
  : Form * list jsstring * bool :=
  match file with
  | None => (form, [], false)
  | Some file =>
      if negb (jsstring_eqb (fileType file) (js "application/pdf"))
      then (form, [js "Please upload a PDF file."], false)
      else (set_isExtracting true form, [], true)
  end.

(** [handleFileChange] from the settling of the extraction on, on the form
    as it is then. *)
Definition handleFileChange_settle (file : File)
  (extracted : completion jsstring) (form : Form) : Form * list jsstring :=
  match extracted with
  | Return text =>
      if Z.of_nat (length text) <? 50 then
        (set_isExtracting false form,
         [js "Could not extract enough text from this PDF. It might be an image-only PDF."])
      else
        (form |> set_config (with_resumeText text)
              |> set_resumeFileName (fileName file)
              |> set_isExtracting false, [])
  | Throw _ =>
      (set_isExtracting false form,
       [js "Failed to read PDF. Please try a different file."])
  end.

Definition removeResume (form : Form) : Form :=
  form |> set_config (with_resumeText []) |> set_resumeFileName [].

(** What can happen to the form: the controls, the choice of a file, the
    settling of an extraction, the removal of the resume. *)
Inductive FormEvent :=
  | SelectType (v : jsstring)
  | SelectPersona (v : jsstring)
  | EditContext (v : jsstring)
  | ToggleGestures
  | FileChosen (file : option File)
  | Extracted (file : File) (pdfjsLib : bool)
      (document : option (list (list jsstring)))
  | RemoveResume.

Definition formStep (form : Form) (ev : FormEvent) : Form :=
  match ev with
  | SelectType v => set_config (with_type v) form
  | SelectPersona v => set_config (with_persona v) form
  | EditContext v => set_config (with_context v) form
  | ToggleGestures =>
      set_config (λ prev,
        with_enableGestures (negb (enableGestures prev)) prev) form
  | FileChosen file => (handleFileChange_begin file form).1.1
  | Extracted file pdfjsLib document =>
      (handleFileChange_settle file
         (extractTextFromPDF pdfjsLib document) form).1
  | RemoveResume => removeResume form
  end.

Definition formAfter (form : Form) (events : list FormEvent) : Form :=
  foldl formStep form events.

(** *** The saved settings

    [JSON.stringify] on the object saved, which has three strings and a
    boolean: the quoting of a string (QuoteJSONString of ECMAScript, lone
    surrogates escaped) and the serialization of an object without
    indentation (SerializeJSONObject). *)

Local Open Scope N_scope.

Definition hexDigit (n : N) : code_unit :=
  if n <? 10 then 48 + n else 87 + n.

(** A backslash, u, and four lower case hexadecimal digits. *)
Definition unicodeEscape (c : code_unit) : jsstring :=
  [92; 117; hexDigit (c / 4096); hexDigit ((c / 256) mod 16);
   hexDigit ((c / 16) mod 16); hexDigit (c mod 16)].

Definition isLeadingSurrogate (c : code_unit) : bool :=
  (55296 <=? c) && (c <=? 56319).

Definition isTrailingSurrogate (c : code_unit) : bool :=
  (56320 <=? c) && (c <=? 57343).

(** A code unit that is not a surrogate. *)
Definition quoteUnit (c : code_unit) : jsstring :=
  if c =? 8 then [92; 98]
  else if c =? 9 then [92; 116]
  else if c =? 10 then [92; 110]
  else if c =? 12 then [92; 102]
  else if c =? 13 then [92; 114]
  else if c =? 34 then [92; 34]
  else if c =? 92 then [92; 92]
  else if c <? 32 then unicodeEscape c
  else [c].

Fixpoint quoteChars (s : jsstring) : jsstring :=
  match s with
  | [] => []
  | c :: t =>
      if isLeadingSurrogate c then
        match t with
        | d :: t' =>
            if isTrailingSurrogate d then c :: d :: quoteChars t'
            else unicodeEscape c ++ quoteChars t
        | [] => unicodeEscape c
        end
      else if isTrailingSurrogate c then unicodeEscape c ++ quoteChars t
      else quoteUnit c ++ quoteChars t
  end.

Definition QuoteJSONString (s : jsstring) : jsstring :=
  34 :: quoteChars s ++ [34].

(** An object given by its keys and the texts of its values. *)
Definition SerializeJSONObject (members : list (jsstring * jsstring))
  : jsstring :=
  123 :: join [44] ((λ m, QuoteJSONString m.1 ++ 58 :: m.2) <$> members)
      ++ [125].

Local Open Scope Z_scope.

(** The text written to the storage: [JSON.stringify(persistentConfig)],
    the configuration without its resume text. *)
Definition save (config : InterviewConfig) : jsstring :=
  SerializeJSONObject
    [(js "type", QuoteJSONString (type config));
     (js "persona", QuoteJSONString (persona config));
     (js "context", QuoteJSONString (context config));
     (js "enableGestures",
      if enableGestures config then js "true" else js "false")].

(** What the load on mount does with the configuration: nothing, or the
    four values it puts in, of whatever type the stored text gave them; the
    resume text then becomes the empty string. *)
Inductive Loaded :=
  | Keep
  | Install (type persona context enableGestures : value).

(** [saved] is what [localStorage.getItem] returns, [None] for [null]. *)
Definition load (saved : option jsstring) : Loaded :=
  match saved with
  | None => Keep
  | Some saved =>
      if truthy saved then
        match JSON_parse saved with
        | Throw _ => Keep
        | Return JNull => Keep
        | Return parsed =>
            match getProp parsed (js "type"),
                  getProp parsed (js "persona") with
            | Some type, Some persona =>
                if truthyValue (Some type) && truthyValue (Some persona)
                then Install type persona
                       (orDefault (getProp parsed (js "context"))
                          (JString []))
                       (orDefault (getProp parsed (js "enableGestures"))
                          (JBool false))
                else Keep
            | _, _ => Keep
            end
        end
      else Keep
  end.

End SetupForm.

(** A string without two spaces in a row. *)
Definition singleSpaced (s : jsstring) : Prop :=
  ∀ i, s !! i = Some SPACE → s !! S i ≠ Some SPACE.

(** The code units the cleaning lets through: those of the class, with
    the space as the only white space. *)
Definition plain (c : code_unit) : Prop :=
  inCleanClass c = true ∧ (isWhiteSpace c = true → c = SPACE).

(** A resume read by the form: its first page fills 3999 code units, so
    that the cut at 4000 falls behind the space that follows the page. *)
Definition resumeFile : SetupForm.File :=
  {| SetupForm.fileType := js "application/pdf";
     SetupForm.fileName := js "resume.pdf" |}.

Definition resumePages : list (list jsstring) :=
  [[js "Jane Doe"; js "{Acme}"; concat (replicate 3985 (js "x"))];
   [js "second page"]; [js "never read"]].

(** * Properties *)

(** ** Capture pipeline *)

Lemma Qgtb_true a b : (b < a)%Q → Qgtb a b = true.
Proof.
  intros H. unfold Qgtb. destruct (Qle_bool a b) eqn:E; [|done].
  apply Qle_bool_iff in E. exfalso. apply (Qlt_not_le _ _ H E).
Qed.

Lemma Qgtb_false a b : (a <= b)%Q → Qgtb a b = false.
Proof.
  intros H. unfold Qgtb. apply Qle_bool_iff in H. by rewrite H.
Qed.

Section CaptureFacts.
Context {sample : Type} (NaN : sample).

Lemma ratio_pos rate : (targetSampleRate < rate)%Q → (0 < rate / targetSampleRate)%Q.
Proof.
  intros H. apply Qlt_shift_div_l; [reflexivity|].
  rewrite Qmult_0_l. eapply Qlt_trans; [|exact H]. reflexivity.
Qed.

Lemma selected_index_in_range (ratio : Q) (len : nat) (i : nat) :
  (0 < ratio)%Q →
  (i < Z.to_nat (Qfloor (inject_Z (Z.of_nat len) / ratio)))%nat →
  0 <= Qfloor (inject_Z (Z.of_nat i) * ratio) < Z.of_nat len.
Proof.
  intros Hr Hi.
  set (n := Qfloor (inject_Z (Z.of_nat len) / ratio)) in *.
  assert (Hn : Z.of_nat i + 1 <= n) by lia.
  assert (H1 : (inject_Z (Z.of_nat i + 1) <= inject_Z (Z.of_nat len) / ratio)%Q).
  { eapply Qle_trans; [|apply Qfloor_le]. fold n. by rewrite <- Zle_Qle. }
  assert (H2 : (inject_Z (Z.of_nat i + 1) * ratio <= inject_Z (Z.of_nat len))%Q).
  { apply (Qmult_le_compat_r _ _ ratio) in H1; [|by apply Qlt_le_weak].
    revert H1. unfold Qdiv. rewrite <- Qmult_assoc, (Qmult_comm (/ ratio)).
    rewrite Qmult_inv_r, Qmult_1_r; [done|].
    intros E. rewrite E in Hr. by apply Qlt_irrefl in Hr. }
  split.
  - rewrite <- (Qfloor_Z 0). apply Qfloor_resp_le.
    apply Qmult_le_0_compat; [|by apply Qlt_le_weak].
    rewrite <- (Zle_Qle 0). lia.
  - rewrite Zlt_Qlt. eapply Qle_lt_trans; [apply Qfloor_le|].
    eapply Qlt_le_trans; [|exact H2].
    rewrite inject_Z_plus. rewrite Qmult_plus_distr_l.
    rewrite <- (Qplus_0_r (inject_Z (Z.of_nat i) * ratio)) at 1.
    apply Qplus_lt_r. by rewrite Qmult_1_l.
Qed.
End CaptureFacts.

Section CaptureTheorems.
Context {sample : Type} (NaN : sample).

(** C6. A block whose native rate does not exceed the wire rate leaves
    the resampling step as it came in: same samples, same order, same
    length. *)
Theorem finalData_passthrough (sourceSampleRate : Q) (inputData : list sample) :
  (sourceSampleRate <= targetSampleRate)%Q →
  finalData NaN sourceSampleRate inputData = inputData.
Proof.
  intros H. unfold finalData. by rewrite Qgtb_false.
Qed.

(** C5, as the code has it. Above the wire rate the frame has
    [floor (length / ratio)] samples, [ratio] being the exact quotient of
    the two rates (not its integer part), and sample [i] of the frame is
    sample [floor (i * ratio)] of the block: a sample is picked, never
    computed, and the index never leaves the block. *)
Theorem finalData_selection (sourceSampleRate : Q) (inputData : list sample) :
  (targetSampleRate < sourceSampleRate)%Q →
  let ratio := (sourceSampleRate / targetSampleRate)%Q in
  let out := finalData NaN sourceSampleRate inputData in
  length out
    = Z.to_nat (Qfloor (inject_Z (Z.of_nat (length inputData)) / ratio))
  ∧ ∀ i : nat, (i < length out)%nat →
      let k := Z.to_nat (Qfloor (inject_Z (Z.of_nat i) * ratio)) in
      (k < length inputData)%nat ∧ out !! i = inputData !! k.
Proof.
  intros H ratio out.
  assert (Hlen : length out
    = Z.to_nat (Qfloor (inject_Z (Z.of_nat (length inputData)) / ratio))).
  { unfold out, finalData. rewrite Qgtb_true by done.
    by rewrite length_fmap, length_seq. }
  split; [done|]. intros i Hi k.
  rewrite Hlen in Hi.
  pose proof (selected_index_in_range ratio (length inputData) i
                (ratio_pos _ H) Hi) as Hk.
  assert (Hk' : (k < length inputData)%nat) by (unfold k; lia).
  split; [done|].
  unfold out, finalData. rewrite Qgtb_true by done.
  rewrite list_lookup_fmap, lookup_seq_lt by done.
  change (0 + i)%nat with i. cbv [fmap option_fmap option_map].
  unfold typed_get. fold ratio. fold k.
  destruct (lookup_lt_is_Some_2 inputData k Hk') as [x Hx].
  by rewrite Hx.
Qed.
End CaptureTheorems.

Lemma finalData_selection_witness :
  let out := finalData 0%nat 44100 (seq 0 11) in
  length out
  = Z.to_nat (Qfloor (inject_Z (Z.of_nat 11) / (44100 / targetSampleRate)))
  ∧ ∀ i : nat, (i < length out)%nat →
      let k :=
        Z.to_nat
          (Qfloor (inject_Z (Z.of_nat i) * (44100 / targetSampleRate))) in
      (k < 11)%nat ∧ out !! i = seq 0 11 !! k.
Proof. exact (finalData_selection 0%nat 44100 (seq 0 11) eq_refl). Defined.

(** At 44.1 kHz the ratio is 2.75625: of eleven samples the first, the
    third and the sixth are kept, where a stride of two would keep five. *)
Example finalData_44100 :
  finalData 0%nat 44100 (seq 0 11) = [0; 2; 5]%nat
  ∧ decimate_truncated 0%nat 44100 (seq 0 11) = [0; 2; 4; 6; 8]%nat
  ∧ finalData 0%nat 48000 (seq 0 11) = [0; 3; 6]%nat.
Proof. by vm_compute. Qed.

Lemma finalData_passthrough_witness :
  finalData 0%nat 16000 [1; 2; 3]%nat = [1; 2; 3]%nat.
Proof. apply finalData_passthrough. discriminate. Defined.

(** C5, as stated, fails: on a block of 4096 samples captured at 44.1 kHz
    the third sample sent is sample 5 of the block, not sample 4. *)
Lemma finalData_is_not_truncated_decimation :
  ¬ (∀ (sourceSampleRate : Q) (inputData : list nat),
       (targetSampleRate < sourceSampleRate)%Q →
       finalData 0%nat sourceSampleRate inputData
       = decimate_truncated 0%nat sourceSampleRate inputData).
Proof.
  intros H. specialize (H 44100%Q (seq 0 4096) eq_refl).
  apply (f_equal (λ l, l !! 2%nat)) in H. vm_compute in H. discriminate.
Qed.

Section IntegerRatio.
Context {sample : Type} (NaN : sample).

Lemma Qfloor_div_pos (a : Z) (p : positive) :
  Qfloor (inject_Z a / inject_Z (Z.pos p)) = a / Z.pos p.
Proof.
  unfold Qdiv, Qinv, Qmult, Qfloor, inject_Z; simpl.
  by rewrite Z.mul_1_r.
Qed.

(** When the native rate is a whole multiple of the wire rate the two
    readings agree. *)
Lemma finalData_integer_ratio (p : positive) (inputData : list sample) :
  (1 < p)%positive →
  finalData NaN (inject_Z (Z.pos p) * targetSampleRate) inputData
  = decimate_truncated NaN (inject_Z (Z.pos p) * targetSampleRate) inputData.
Proof.
  intros Hp.
  assert (Hr : (inject_Z (Z.pos p) * targetSampleRate / targetSampleRate
                == inject_Z (Z.pos p))%Q) by (by field).
  unfold finalData, decimate_truncated.
  rewrite Qgtb_true.
  2:{ rewrite <- (Qmult_1_l targetSampleRate) at 1.
      apply Qmult_lt_compat_r; [reflexivity|].
      change 1%Q with (inject_Z 1). rewrite <- Zlt_Qlt. lia. }
  cbv zeta. rewrite !Hr. rewrite Qfloor_Z, Qfloor_div_pos.
  apply list_fmap_ext; intros i x _. rewrite !Hr.
  by rewrite <- inject_Z_mult, !Qfloor_Z.
Qed.
End IntegerRatio.

(** ** Playback timeline *)

Lemma scheduleBuffer_audioDevice now d st :
  audioDevice (scheduleBuffer now d st)
  = audioDevice st
    ++ [BufferStart (nodesCreated st) (Qmax (nextStartTimeRef st) now) d].
Proof. reflexivity. Qed.

Lemma scheduleBuffer_nextStart now d st :
  nextStartTimeRef (scheduleBuffer now d st)
  = (Qmax (nextStartTimeRef st) now + d)%Q.
Proof. reflexivity. Qed.

Lemma bufferStarts_app l1 l2 :
  bufferStarts (l1 ++ l2) = bufferStarts l1 ++ bufferStarts l2.
Proof. unfold bufferStarts. apply omap_app. Qed.

Lemma scheduleAll_timeline arrivals st :
  bufferStarts (audioDevice (scheduleAll arrivals st))
  = bufferStarts (audioDevice st) ++ timeline (nextStartTimeRef st) arrivals
  ∧ nextStartTimeRef (scheduleAll arrivals st)
    = foldl (λ c a, (Qmax c a.1 + a.2)%Q) (nextStartTimeRef st) arrivals.
Proof.
  revert st. induction arrivals as [|[now d] rest IH]; intros st; simpl.
  - by rewrite app_nil_r.
  - destruct (IH (scheduleBuffer now d st)) as [IH1 IH2].
    unfold scheduleAll in *. simpl. rewrite IH1, IH2.
    rewrite scheduleBuffer_audioDevice, scheduleBuffer_nextStart.
    rewrite bufferStarts_app. simpl. by rewrite <- app_assoc.
Qed.

Lemma startedSince_timeline arrivals st :
  startedSince st (scheduleAll arrivals st)
  = timeline (nextStartTimeRef st) arrivals.
Proof.
  unfold startedSince. rewrite (proj1 (scheduleAll_timeline arrivals st)).
  by rewrite drop_app_length.
Qed.

Lemma timeline_head nextStart arrivals s d now d' :
  timeline nextStart arrivals !! 0%nat = Some (s, d) →
  arrivals !! 0%nat = Some (now, d') →
  s = Qmax nextStart now ∧ d = d'.
Proof.
  destruct arrivals as [|[now0 d0] rest]; simpl; [done|].
  intros [= <- <-] [= <- <-]. done.
Qed.

Lemma timeline_adjacent nextStart arrivals i s1 d1 s2 d2 now2 d2' :
  timeline nextStart arrivals !! i = Some (s1, d1) →
  timeline nextStart arrivals !! S i = Some (s2, d2) →
  arrivals !! S i = Some (now2, d2') →
  s2 = Qmax (s1 + d1) now2 ∧ d2 = d2'.
Proof.
  revert nextStart i. induction arrivals as [|[now d] rest IH];
    intros nextStart i; simpl; [done|].
  destruct i as [|i]; simpl.
  - intros [= <- <-] H2 H3. by eapply timeline_head.
  - apply IH.
Qed.

Lemma startedSince_scheduleBuffer now d st :
  startedSince st (scheduleBuffer now d st)
  = [(Qmax (nextStartTimeRef st) now, d)].
Proof.
  unfold startedSince. rewrite scheduleBuffer_audioDevice, bufferStarts_app.
  by rewrite drop_app_length.
Qed.

(** C2. Every decoded buffer is started at the larger of the cursor and
    the clock, and the cursor then moves on by the buffer's duration; so in
    any run of the scheduler, whatever the clock reads at each arrival, a
    buffer never starts before its predecessor has ended, and starts
    exactly then when it has arrived by that time. Two buffers of half a
    second arriving at clock 10 on an idle timeline start at 10 and 10.5
    and leave the cursor at 11. *)
Theorem gapless_no_overlap :
  (∀ (currentTime duration : Q) (st : Store),
      startedSince st (scheduleBuffer currentTime duration st)
      = [(Qmax (nextStartTimeRef st) currentTime, duration)]
      ∧ nextStartTimeRef (scheduleBuffer currentTime duration st)
        = (Qmax (nextStartTimeRef st) currentTime + duration)%Q)
  ∧ (∀ (st : Store) (arrivals : list (Q * Q)) (i : nat)
       (s1 d1 s2 d2 now2 d2' : Q),
      startedSince st (scheduleAll arrivals st) !! i = Some (s1, d1) →
      startedSince st (scheduleAll arrivals st) !! S i = Some (s2, d2) →
      arrivals !! S i = Some (now2, d2') →
      (s1 + d1 <= s2)%Q ∧ ((now2 <= s1 + d1)%Q → (s2 == s1 + d1)%Q))
  ∧ (∀ st : Store,
      (nextStartTimeRef st <= 10)%Q →
      let st' := scheduleAll [(10, 0.5); (10, 0.5)]%Q st in
      ∃ s1 s2 : Q,
        startedSince st st' = [(s1, 0.5); (s2, 0.5)]%Q
        ∧ (s1 == 10)%Q ∧ (s2 == 10.5)%Q ∧ (nextStartTimeRef st' == 11)%Q).
Proof.
  split; [|split].
  - intros now d st. split.
    + apply startedSince_scheduleBuffer.
    + apply scheduleBuffer_nextStart.
  - intros st arrivals i s1 d1 s2 d2 now2 d2'.
    rewrite startedSince_timeline. intros H1 H2 H3.
    destruct (timeline_adjacent _ _ _ _ _ _ _ _ _ H1 H2 H3) as [-> _].
    split.
    + apply Q.le_max_l.
    + apply Q.max_l.
  - intros st Hst st'. eexists _, _. split; [|split; [|split]].
    + unfold st'. rewrite startedSince_timeline. reflexivity.
    + by apply Q.max_r.
    + assert (E : (Qmax (nextStartTimeRef st) 10 == 10)%Q) by (by apply Q.max_r).
      rewrite Q.max_l.
      * rewrite E. reflexivity.
      * rewrite E. discriminate.
    + unfold st'. rewrite (proj2 (scheduleAll_timeline _ st)). simpl.
      assert (E : (Qmax (nextStartTimeRef st) 10 == 10)%Q) by (by apply Q.max_r).
      rewrite (Q.max_l (Qmax (nextStartTimeRef st) 10 + 0.5) 10).
      * rewrite E. reflexivity.
      * rewrite E. discriminate.
Qed.

Lemma gapless_no_overlap_witness :
  ((10 + 0.5 <= 105 # 10)%Q ∧ ((10 <= 10 + 0.5)%Q → (105 # 10 == 10 + 0.5)%Q))
  ∧ ∃ s1 s2 : Q,
      startedSince initialStore
        (scheduleAll [(10, 0.5); (10, 0.5)]%Q initialStore)
      = [(s1, 0.5); (s2, 0.5)]%Q
      ∧ (s1 == 10)%Q ∧ (s2 == 10.5)%Q
      ∧ (nextStartTimeRef (scheduleAll [(10, 0.5); (10, 0.5)]%Q initialStore)
         == 11)%Q.
Proof.
  split.
  - apply (proj1 (proj2 gapless_no_overlap) initialStore
             [(10, 0.5); (10, 0.5)]%Q 0%nat 10%Q 0.5%Q (105 # 10)%Q 0.5%Q
             10%Q 0.5%Q); reflexivity.
  - apply (proj2 (proj2 gapless_no_overlap) initialStore). discriminate.
Defined.

(** ** Session controller and turn aggregation *)

Lemma jsstring_eqb_refl s : jsstring_eqb s s = true.
Proof. unfold jsstring_eqb. by apply bool_decide_eq_true. Qed.

Lemma jsstring_eqb_ne a b : a ≠ b → jsstring_eqb a b = false.
Proof. intros H. unfold jsstring_eqb. by apply bool_decide_eq_false. Qed.

Lemma trim_truthy_blank s : trim_truthy s = false ↔ blank s.
Proof.
  unfold trim_truthy, blank. induction s as [|c s IH]; simpl.
  - split; [constructor|done].
  - rewrite orb_false_iff, IH, Forall_cons, negb_false_iff. done.
Qed.

(** *** Stale events *)

Lemma onmessage_stale T msg now st :
  currentSessionIdRef st ≠ T → onmessage T msg now st = (st, false).
Proof. intros H. unfold onmessage. by rewrite jsstring_eqb_ne. Qed.

Lemma onopen_stale T st : currentSessionIdRef st ≠ T → onopen T st = st.
Proof. intros H. unfold onopen. by rewrite jsstring_eqb_ne. Qed.

Lemma onclose_stale T st : currentSessionIdRef st ≠ T → onclose T st = st.
Proof. intros H. unfold onclose. by rewrite jsstring_eqb_ne. Qed.

Lemma onerror_stale T st : currentSessionIdRef st ≠ T → onerror T st = st.
Proof. intros H. unfold onerror. by rewrite jsstring_eqb_ne. Qed.

Lemma onaudioprocess_stale {sample} (NaN : sample) T rate inputData st :
  currentSessionIdRef st ≠ T → onaudioprocess NaN T rate inputData st = None.
Proof. intros H. unfold onaudioprocess. by rewrite jsstring_eqb_ne. Qed.

Lemma onaudioprocess_then_stale {frame} T (pcmBlob : frame) st :
  currentSessionIdRef st ≠ T → onaudioprocess_then T pcmBlob st = None.
Proof. intros H. unfold onaudioprocess_then. by rewrite jsstring_eqb_ne. Qed.

(** The continuation of [onmessage] never looks at the token. *)
Lemma onmessage_decoded_any_token T duration now st :
  onmessage_decoded (Some duration) now (set_currentSessionIdRef T st)
  = set_currentSessionIdRef T (onmessage_decoded (Some duration) now st).
Proof. reflexivity. Qed.

(** Whatever the token, the continuation starts a new source and moves the
    cursor. *)
Lemma onmessage_decoded_schedules duration now st :
  let st' := onmessage_decoded (Some duration) now st in
  currentSessionIdRef st' = currentSessionIdRef st
  ∧ audioDevice st'
    = audioDevice st
      ++ [BufferStart (nodesCreated st) (Qmax (nextStartTimeRef st) now)
            duration]
  ∧ nextStartTimeRef st' = (Qmax (nextStartTimeRef st) now + duration)%Q
  ∧ sourcesRef st' = {[nodesCreated st]} ∪ sourcesRef st.
Proof. done. Qed.

(** Neither does the [ended] listener look at the token. *)
Lemma onended_any_token T source st :
  onended source (set_currentSessionIdRef T st)
  = set_currentSessionIdRef T (onended source st).
Proof. reflexivity. Qed.

(** The callbacks that start with the comparison are token-exclusive. *)
Lemma checked_events_token_exclusive msg now :
  tokenExclusive Opened ∧ tokenExclusive (Message msg now)
  ∧ tokenExclusive Closed ∧ tokenExclusive Errored.
Proof.
  repeat split; intros T st H; simpl.
  - by apply onopen_stale.
  - by rewrite onmessage_stale.
  - by apply onclose_stale.
  - by apply onerror_stale.
Qed.

(** The continuation of a message that carried audio is not, whatever the
    buffer and the clock. *)
Lemma decoded_not_token_exclusive duration now :
  ¬ tokenExclusive (Decoded (Some duration) now).
Proof.
  intros H. specialize (H sessionA initialStore).
  assert (currentSessionIdRef initialStore ≠ sessionA) as Hne by done.
  apply H in Hne. apply (f_equal nodesCreated) in Hne. discriminate Hne.
Qed.

Lemma onmessage_turnComplete T msg now st :
  currentSessionIdRef st = T →
  turnComplete msg = true → interrupted msg = false →
  (onmessage T msg now st).1 = handleTurnComplete (accumulated msg st).
Proof.
  intros <- Htc Hint. unfold onmessage.
  rewrite jsstring_eqb_refl, Htc, Hint. simpl.
  repeat case_match; done.
Qed.

Lemma onmessage_interrupted T msg now st :
  currentSessionIdRef st = T →
  turnComplete msg = false → interrupted msg = true →
  (onmessage T msg now st).1 = handleInterrupted now (accumulated msg st).
Proof.
  intros <- Htc Hint. unfold onmessage.
  rewrite jsstring_eqb_refl, Htc, Hint. simpl.
  repeat case_match; done.
Qed.

(** C3, as the code has it. On a turn-complete message of the current
    session the turn is committed when either accumulator holds something
    other than white space: two entries go to the transcript list, one
    line to the transcript accumulator, and the token estimate grows by
    [ceil ((len input + len output) / 3.5)]. Otherwise nothing is
    committed. Either way both accumulators and their mirrors end empty. *)
Theorem turn_complete_commit (T : jsstring) (msg : LiveServerMessage)
    (now : Q) (st : Store) :
  currentSessionIdRef st = T →
  turnComplete msg = true →
  interrupted msg = false →
  let input := currentInputRef (accumulated msg st) in
  let output := currentOutputRef (accumulated msg st) in
  let committed := trim_truthy input || trim_truthy output in
  let st' := (onmessage T msg now st).1 in
  transcripts st'
  = transcripts st
    ++ (if committed
        then [ {| role := user; text := input |};
               {| role := model; text := output |} ]
        else [])
  ∧ fullTranscriptRef st'
    = fullTranscriptRef st
      ++ (if committed
          then js "Candidate: " ++ input ++ [LF]
               ++ js "Interviewer: " ++ output ++ [LF]
          else [])
  ∧ tokenUsage st'
    = tokenUsage st
      + (if committed
         then Qceiling
                (inject_Z (Z.of_nat (length input + length output)) / 3.5)
         else 0)
  ∧ currentInputRef st' = [] ∧ currentOutputRef st' = []
  ∧ currentInputTrans st' = [] ∧ currentOutputTrans st' = [].
Proof.
  intros HT Htc Hint input output committed st'.
  unfold st'. rewrite (onmessage_turnComplete T msg now st HT Htc Hint).
  assert (Hacc : transcripts (accumulated msg st) = transcripts st
                 ∧ fullTranscriptRef (accumulated msg st) = fullTranscriptRef st
                 ∧ tokenUsage (accumulated msg st) = tokenUsage st).
  { unfold accumulated, appendInputTranscription, appendOutputTranscription.
    repeat case_match; done. }
  destruct Hacc as (Ht & Hf & Hu).
  unfold handleTurnComplete. fold input output committed.
  destruct committed; simpl; rewrite ?Ht, ?Hf, ?Hu, ?app_nil_r, ?Z.add_0_r;
    repeat split; done.
Qed.

Lemma turn_complete_commit_witness :
  let st := (onmessage sessionA (textMsg (js "Hi") (js "Hello")) 0
               (activeStore sessionA)).1 in
  let st' := (onmessage sessionA turnCompleteMsg 0 st).1 in
  transcripts st'
  = [ {| role := user; text := js "Hi" |};
      {| role := model; text := js "Hello" |} ]
  ∧ fullTranscriptRef st'
    = js "Candidate: Hi" ++ [LF] ++ js "Interviewer: Hello" ++ [LF]
  ∧ tokenUsage st' = 2
  ∧ currentInputRef st' = [] ∧ currentOutputRef st' = []
  ∧ currentInputTrans st' = [] ∧ currentOutputTrans st' = [].
Proof.
  intros st st'.
  exact (turn_complete_commit sessionA turnCompleteMsg 0 st
           eq_refl eq_refl eq_refl).
Defined.

(** C3, as stated, fails: a candidate accumulator holding a single space
    is not empty, yet the turn-complete message commits nothing and the
    space is dropped. *)
Lemma turn_complete_blank_not_committed :
  let st := (onmessage sessionA (textMsg (js " ") []) 0
               (activeStore sessionA)).1 in
  let st' := (onmessage sessionA turnCompleteMsg 0 st).1 in
  currentInputRef st = js " "
  ∧ currentInputRef st ≠ []
  ∧ transcripts st = [] ∧ transcripts st' = []
  ∧ fullTranscriptRef st = [] ∧ fullTranscriptRef st' = []
  ∧ tokenUsage st = 0 ∧ tokenUsage st' = 0
  ∧ currentInputRef st' = [].
Proof. vm_compute. repeat split; discriminate. Qed.

(** *** Interruption *)

Lemma stopSources_spec st :
  sourcesRef (stopSources st) = ∅
  ∧ (∀ n, n ∈ sourcesRef st → NodeStop n ∈ audioDevice (stopSources st))
  ∧ bufferStarts (audioDevice (stopSources st)) = bufferStarts (audioDevice st).
Proof.
  split; [done|]. split.
  - intros n Hn. unfold stopSources; simpl.
    apply elem_of_app; right. apply list_elem_of_fmap.
    exists n. split; [done|]. by apply elem_of_elements.
  - unfold stopSources; simpl. rewrite bufferStarts_app.
    rewrite <- (app_nil_r (bufferStarts (audioDevice st))) at 2. f_equal.
    induction (elements (sourcesRef st)); simpl; done.
Qed.

Lemma or_zero_eq x : (or_zero x == x)%Q.
Proof.
  unfold or_zero. destruct (Qeq_bool x 0) eqn:E; [|reflexivity].
  apply Qeq_bool_iff in E. by rewrite E.
Qed.

(** What the interruption block does and what it leaves alone. *)
Lemma handleInterrupted_spec (now : Q) (st : Store) :
  let input := currentInputRef st in
  let output := currentOutputRef st in
  let committed := trim_truthy input || trim_truthy output in
  let st' := handleInterrupted now st in
  sourcesRef st' = ∅
  ∧ (∀ n, n ∈ sourcesRef st → NodeStop n ∈ audioDevice st')
  ∧ (is_Some (outputAudioContextRef st) → (nextStartTimeRef st' == now)%Q)
  ∧ transcripts st'
    = transcripts st
      ++ (if committed
          then [ {| role := user; text := input |};
                 {| role := model; text := output ++ js " (interrupted)" |} ]
          else [])
  ∧ fullTranscriptRef st'
    = fullTranscriptRef st
      ++ (if committed
          then js "Candidate: " ++ input ++ [LF]
               ++ js "Interviewer: " ++ output ++ js " (interrupted)" ++ [LF]
          else [])
  ∧ (committed = true → currentInputRef st' = [] ∧ currentOutputRef st' = [])
  ∧ tokenUsage st' = tokenUsage st.
Proof.
  intros input output committed st'.
  destruct (stopSources_spec st) as (_ & Hstop & _).
  unfold st', handleInterrupted.
  change (currentInputRef (set_nextStartTimeRef _ (stopSources st))) with input.
  change (currentOutputRef (set_nextStartTimeRef _ (stopSources st))) with output.
  fold committed.
  destruct committed; simpl; rewrite ?app_nil_r;
    (split; [done|]); (split; [exact Hstop|]);
    (split; [intros [c Hc]; rewrite Hc; apply or_zero_eq|]); done.
Qed.

(** C4. With the accumulators at Hi and Hello, a turn-complete message
    commits the turn and counts 2 tokens; an interrupted message stops the
    sources, moves the cursor to the clock and commits the same turn with
    the marker, but leaves the token estimate at 0. *)
Theorem interrupted_commit_skips_token_usage :
  let st := (onmessage sessionA (textMsg (js "Hi") (js "Hello")) 1
               (activeStore sessionA)).1 in
  let completed := (onmessage sessionA turnCompleteMsg 2 st).1 in
  let cut := (onmessage sessionA interruptedMsg 2 st).1 in
  transcripts completed
  = [ {| role := user; text := js "Hi" |};
      {| role := model; text := js "Hello" |} ]
  ∧ tokenUsage completed = 2
  ∧ transcripts cut
    = [ {| role := user; text := js "Hi" |};
        {| role := model; text := js "Hello (interrupted)" |} ]
  ∧ fullTranscriptRef cut
    = js "Candidate: Hi" ++ [LF]
      ++ js "Interviewer: Hello (interrupted)" ++ [LF]
  ∧ sourcesRef cut = ∅
  ∧ (nextStartTimeRef cut == 2)%Q
  ∧ tokenUsage cut = 0.
Proof. vm_compute. repeat split; reflexivity. Qed.

(** *** A stale continuation *)

(** C1. A message with audio passes the token check and suspends in the
    decode; a hard reset clears the token, the cursor and the source set;
    when the decode settles the handler goes on without looking at the
    token again: the cursor moves to 1.5 and a new source is started and
    added to the set, while the current token is no longer the
    handler's. *)
Theorem stale_decode_mutates_after_reset :
  let '(st1, awaiting) :=
    onmessage sessionA (audioMsg (js "AAAA")) 1 (activeStore sessionA) in
  let reset := handleHardReset st1 in
  let after := onmessage_decoded (Some 0.5%Q) 1 reset in
  awaiting = true
  ∧ currentSessionIdRef reset = []
  ∧ currentSessionIdRef reset ≠ sessionA
  ∧ nextStartTimeRef reset = 0%Q
  ∧ sourcesRef reset = ∅
  ∧ currentSessionIdRef after = []
  ∧ nextStartTimeRef after = (1 + 0.5)%Q
  ∧ elements (sourcesRef after) = [3%positive]
  ∧ audioDevice after
    = audioDevice reset ++ [BufferStart 3%positive 1%Q 0.5%Q].
Proof. vm_compute. repeat split; discriminate. Qed.

(** The same continuation, settling after the next session has started,
    moves that session's cursor by the clock of the old context. *)
Theorem stale_decode_mutates_next_session :
  let '(st1, awaiting) :=
    onmessage sessionA (audioMsg (js "AAAA")) 7 (activeStore sessionA) in
  let next := onopen sessionB (startInterview sessionB st1) in
  let after := onmessage_decoded (Some 0.5%Q) 7 next in
  awaiting = true
  ∧ currentSessionIdRef next = sessionB
  ∧ sessionB ≠ sessionA
  ∧ nextStartTimeRef next = 0%Q
  ∧ nextStartTimeRef after = (7 + 0.5)%Q
  ∧ size (sourcesRef after) = S (size (sourcesRef next)).
Proof. vm_compute. repeat split; discriminate. Qed.

(** ** Transcript analyzer *)

(** *** The parser's budget *)

Lemma skipWs_length s : (length (skipWs s) ≤ length s)%nat.
Proof. induction s as [|c t IH]; simpl; [done|]. case_match; simpl; lia. Qed.

Lemma drop_while_length {A} (p : A → bool) l :
  (length (drop_while p l) ≤ length l)%nat.
Proof. induction l as [|x r IH]; simpl; [done|]. case_match; simpl; lia. Qed.

Lemma parseChars_length s acc str r :
  parseChars s acc = Some (str, r) → (length r < length s)%nat.
Proof.
  assert (∀ n s acc, (length s ≤ n)%nat →
            parseChars s acc = Some (str, r) → (length r < length s)%nat) as G.
  { clear. induction n as [|n IH]; intros s acc Hn.
    - destruct s; [done|simpl in Hn; lia].
    - destruct s as [|c t]; simpl; [done|]. simpl in Hn.
      repeat case_match; try done; subst; simpl in *;
        try (intros [= <- <-]; lia);
        intros Hp; apply IH in Hp; simpl in *; lia. }
  by apply (G (length s)).
Qed.

Lemma parseSign_length s : (length (parseSign s).2 ≤ length s)%nat.
Proof. destruct s as [|c t]; simpl; [done|]. case_match; simpl; lia. Qed.

Lemma parseInt_length s int r :
  parseInt s = Some (int, r) → (length r < length s)%nat.
Proof.
  destruct s as [|c t]; simpl; [done|].
  destruct (N.eqb c 48); [intros [= <- <-]; lia|].
  destruct (isDigit c) eqn:E; [|done]. intros [= <- <-].
  pose proof (drop_while_length isDigit t). lia.
Qed.

Lemma parseFrac_length s fd r :
  parseFrac s = Some (fd, r) → (length r ≤ length s)%nat.
Proof.
  destruct s as [|c t]; simpl; [by intros [= <- <-]|].
  destruct (N.eqb c 46); [|by intros [= <- <-]].
  destruct (take_while isDigit t); [done|]. intros [= <- <-].
  pose proof (drop_while_length isDigit t). lia.
Qed.

Lemma parseExp_length s e r :
  parseExp s = Some (e, r) → (length r ≤ length s)%nat.
Proof.
  destruct s as [|c t]; simpl; [by intros [= <- <-]|].
  destruct (N.eqb c 101 || N.eqb c 69); [|by intros [= <- <-]].
  destruct t as [|sg t']; simpl; [done|].
  destruct (N.eqb sg 45); [|destruct (N.eqb sg 43)].
  - destruct (take_while isDigit t'); [done|]. intros [= <- <-].
    pose proof (drop_while_length isDigit t'). lia.
  - destruct (take_while isDigit t'); [done|]. intros [= <- <-].
    pose proof (drop_while_length isDigit t'). lia.
  - destruct (take_while isDigit (sg :: t')); [done|]. intros [= <- <-].
    pose proof (drop_while_length isDigit (sg :: t')). simpl in *. lia.
Qed.

Lemma parseNumber_length s q r :
  parseNumber s = Some (q, r) → (length r < length s)%nat.
Proof.
  unfold parseNumber. pose proof (parseSign_length s) as Hs.
  destruct (parseSign s) as [neg s1]; simpl in Hs.
  destruct (parseInt s1) as [[int s2]|] eqn:Hi; [|done].
  destruct (parseFrac s2) as [[fd s3]|] eqn:Hf; [|done].
  destruct (parseExp s3) as [[e s4]|] eqn:He; [|done].
  intros [= _ <-].
  apply parseInt_length in Hi. apply parseFrac_length in Hf.
  apply parseExp_length in He. lia.
Qed.

Lemma startsWith_length pat s :
  startsWith pat s = true → (length pat ≤ length s)%nat.
Proof.
  revert s. induction pat as [|p pat IH]; intros [|c s]; simpl;
    try done; try lia.
  intros [_ H]%andb_prop. apply IH in H. lia.
Qed.

Local Opaque N.eqb startsWith parseNumber parseChars skipWs js.

(** A parse that succeeds has consumed at least one code unit. *)
Lemma parse_consumes fuel :
  (∀ s v r, parseValue fuel s = POk v r → (length r < length s)%nat)
  ∧ (∀ s acc l r,
       parseElements fuel s acc = POk l r → (length r < length s)%nat)
  ∧ (∀ s acc l r,
       parseMembers fuel s acc = POk l r → (length r < length s)%nat).
Proof.
  induction fuel as [|fuel (IHv & IHe & IHm)]; [done|].
  split; [|split].
  - intros s v r. simpl. pose proof (skipWs_length s) as Hs.
    destruct (skipWs s) as [|c t]; [done|]. simpl in Hs.
    destruct (N.eqb c 123).
    { pose proof (skipWs_length t) as Ht.
      destruct (skipWs t) as [|c' t']; [done|]. simpl in Ht.
      destruct (N.eqb c' 125); [intros [= _ <-]; lia|].
      destruct (parseMembers fuel (c' :: t') []) as [props r'| |] eqn:E;
        [|done|done].
      intros [= _ <-]. apply IHm in E. simpl in E. lia. }
    destruct (N.eqb c 91).
    { pose proof (skipWs_length t) as Ht.
      destruct (skipWs t) as [|c' t']; [done|]. simpl in Ht.
      destruct (N.eqb c' 93); [intros [= _ <-]; lia|].
      destruct (parseElements fuel (c' :: t') []) as [items r'| |] eqn:E;
        [|done|done].
      intros [= _ <-]. apply IHe in E. simpl in E. lia. }
    destruct (N.eqb c 34).
    { destruct (parseChars t []) as [[str r']|] eqn:E; [|done].
      intros [= _ <-]. apply parseChars_length in E. lia. }
    destruct (startsWith (js "true") (c :: t)) eqn:E1.
    { intros [= _ <-]. apply startsWith_length in E1.
      change (length (js "true")) with 4%nat in E1.
      rewrite length_drop. simpl in *. lia. }
    destruct (startsWith (js "false") (c :: t)) eqn:E2.
    { intros [= _ <-]. apply startsWith_length in E2.
      change (length (js "false")) with 5%nat in E2.
      rewrite length_drop. simpl in *. lia. }
    destruct (startsWith (js "null") (c :: t)) eqn:E3.
    { intros [= _ <-]. apply startsWith_length in E3.
      change (length (js "null")) with 4%nat in E3.
      rewrite length_drop. simpl in *. lia. }
    destruct (parseNumber (c :: t)) as [[q r']|] eqn:E; [|done].
    intros [= _ <-]. apply parseNumber_length in E. simpl in E. lia.
  - intros s acc l r. simpl.
    destruct (parseValue fuel s) as [v r1| |] eqn:E; [|done|done].
    apply IHv in E. pose proof (skipWs_length r1) as Hs.
    destruct (skipWs r1) as [|c t]; [done|]. simpl in Hs.
    destruct (N.eqb c 44).
    { intros H. apply IHe in H. lia. }
    destruct (N.eqb c 93); [|done]. intros [= _ <-]. lia.
  - intros s acc l r. simpl. pose proof (skipWs_length s) as Hs.
    destruct (skipWs s) as [|c t]; [done|]. simpl in Hs.
    destruct (N.eqb c 34); [|done].
    destruct (parseChars t []) as [[key r1]|] eqn:E; [|done].
    apply parseChars_length in E. pose proof (skipWs_length r1) as Hs1.
    destruct (skipWs r1) as [|c2 t2]; [done|]. simpl in Hs1.
    destruct (N.eqb c2 58); [|done].
    destruct (parseValue fuel t2) as [v r2| |] eqn:E2; [|done|done].
    apply IHv in E2. pose proof (skipWs_length r2) as Hs2.
    destruct (skipWs r2) as [|c3 t3]; [done|]. simpl in Hs2.
    destruct (N.eqb c3 44).
    { intros H. apply IHm in H. lia. }
    destruct (N.eqb c3 125); [|done]. intros [= _ <-]. lia.
Qed.

(** With a budget of twice the length of the text the descent is never
    cut short. *)
Lemma parse_fuel_enough fuel :
  (∀ s, (2 * length s + 1 ≤ fuel)%nat → parseValue fuel s ≠ PFuel)
  ∧ (∀ s acc, (2 * length s + 2 ≤ fuel)%nat →
       parseElements fuel s acc ≠ PFuel)
  ∧ (∀ s acc, (2 * length s + 2 ≤ fuel)%nat →
       parseMembers fuel s acc ≠ PFuel).
Proof.
  induction fuel as [|fuel (IHv & IHe & IHm)].
  { repeat split; intros; lia. }
  split; [|split].
  - intros s Hf. simpl. pose proof (skipWs_length s) as Hs.
    destruct (skipWs s) as [|c t]; [done|]. simpl in Hs.
    destruct (N.eqb c 123).
    { pose proof (skipWs_length t) as Ht.
      destruct (skipWs t) as [|c' t']; [done|]. simpl in Ht.
      destruct (N.eqb c' 125); [done|].
      destruct (parseMembers fuel (c' :: t') []) as [props r'| |] eqn:E;
        [done|done|].
      exfalso. revert E. apply IHm. simpl. lia. }
    destruct (N.eqb c 91).
    { pose proof (skipWs_length t) as Ht.
      destruct (skipWs t) as [|c' t']; [done|]. simpl in Ht.
      destruct (N.eqb c' 93); [done|].
      destruct (parseElements fuel (c' :: t') []) as [items r'| |] eqn:E;
        [done|done|].
      exfalso. revert E. apply IHe. simpl. lia. }
    repeat case_match; done.
  - intros s acc Hf. simpl.
    destruct (parseValue fuel s) as [v r1| |] eqn:E; [|done|].
    + apply (proj1 (parse_consumes fuel)) in E.
      pose proof (skipWs_length r1) as Hs.
      destruct (skipWs r1) as [|c t]; [done|]. simpl in Hs.
      destruct (N.eqb c 44); [apply IHe; lia|]. by case_match.
    + exfalso. revert E. apply IHv. lia.
  - intros s acc Hf. simpl. pose proof (skipWs_length s) as Hs.
    destruct (skipWs s) as [|c t]; [done|]. simpl in Hs.
    destruct (N.eqb c 34); [|done].
    destruct (parseChars t []) as [[key r1]|] eqn:E; [|done].
    apply parseChars_length in E. pose proof (skipWs_length r1) as Hs1.
    destruct (skipWs r1) as [|c2 t2]; [done|]. simpl in Hs1.
    destruct (N.eqb c2 58); [|done].
    destruct (parseValue fuel t2) as [v r2| |] eqn:E2; [|done|].
    + apply (proj1 (parse_consumes fuel)) in E2.
      pose proof (skipWs_length r2) as Hs2.
      destruct (skipWs r2) as [|c3 t3]; [done|]. simpl in Hs2.
      destruct (N.eqb c3 44); [apply IHm; lia|]. by case_match.
    + exfalso. revert E2. apply IHv. lia.
Qed.

Local Transparent N.eqb startsWith parseNumber parseChars skipWs js.

(** [JSON_parse] never fails for want of budget. *)
Lemma parse_fuel (text : jsstring) :
  parseValue (parseFuel text) text ≠ PFuel.
Proof. apply parse_fuel_enough. unfold parseFuel. lia. Qed.

(** *** The parser at work *)

Example JSON_parse_values :
  JSON_parse (jsq " [1.5e2, -0.25, true, false, null, 'a\n\u0041', {'k': {}, 'l': []}] ")
  = Return
      (JArray
         [ JNumber (inject_Z 150); JNumber (- (25 # 100)); JBool true;
           JBool false; JNull; JString (js "a" ++ [LF] ++ js "A");
           JObject [(js "k", JObject []); (js "l", JArray [])] ]).
Proof. by vm_compute. Qed.

Example JSON_parse_rejects :
  JSON_parse (jsq "{'a':1,}") = Throw SyntaxError
  ∧ JSON_parse (jsq "['Depth',]") = Throw SyntaxError
  ∧ JSON_parse (jsq "[01]") = Throw SyntaxError
  ∧ JSON_parse (jsq "[1.]") = Throw SyntaxError
  ∧ JSON_parse (jsq "{'a':1} x") = Throw SyntaxError
  ∧ JSON_parse (jsq "{a:1}") = Throw SyntaxError
  ∧ JSON_parse [] = Throw SyntaxError.
Proof. by vm_compute. Qed.

Example sanitize_steps :
  dropCommaBefore RBRACE (jsq "{'a':1 ,  }") = jsq "{'a':1 }"
  ∧ dropCommaBefore RBRACKET (jsq "['Depth', ]") = jsq "['Depth']"
  ∧ substring (js "} 5 {") 4 1 = js " 5 "
  ∧ sanitizeAndParseJSON (js "} 5 {") = Return (JNumber (inject_Z 5))
  ∧ sanitizeAndParseJSON (js "} null {") = Return JNull
  ∧ feedbackOfText None (js "} null {") = invalidFormatData None.
Proof. by vm_compute. Qed.

(** C8. The fenced payload with a trailing comma: the fences go, the
    text is cut from the first opening to the last closing brace, the
    strict parse fails on the comma, the retry without trailing commas
    succeeds, and the fields are read with their defaults: score 82,
    summary Solid., strengths Clear, improvements Depth, technical 7, the
    other four sub-metrics 0. *)
Theorem recovery_parse_scenario (gestureResults : option GestureMetrics)
    (FEEDBACK_GENERATION_PROMPT : jsstring) (k : code_unit) (key : jsstring) :
  let expected :=
    {| score := 82;
       summary := JString (js "Solid.");
       strengths := [JString (js "Clear")];
       improvements := [JString (js "Depth")];
       metrics :=
         {| technical := JNumber 7; communication := JNumber 0;
            confidence := JNumber 0; clarity := JNumber 0;
            problemSolving := JNumber 0 |};
       gestureMetrics := gestureResults |} in
  (* the strict parse of the slice fails, the retry succeeds *)
  JSON_parse
    (jsq "{'score':82,'summary':'Solid.','strengths':['Clear'],'improvements':['Depth',],'metrics':{'technical':7}}")
  = Throw SyntaxError
  ∧ sanitizeAndParseJSON fencedPayload
    = Return
        (JObject
           [ (js "score", JNumber 82);
             (js "summary", JString (js "Solid."));
             (js "strengths", JArray [JString (js "Clear")]);
             (js "improvements", JArray [JString (js "Depth")]);
             (js "metrics", JObject [(js "technical", JNumber 7)]) ])
  ∧ feedbackOfText gestureResults fencedPayload = expected
  ∧ feedbackOfText gestureResults fencedPayload_escaped = expected
  ∧ analysis FEEDBACK_GENERATION_PROMPT (Some (k :: key))
      (λ _, Responded (Some fencedPayload)) gestureResults scenarioTranscript
    = ([GenerateContent
          (analysisPrompt FEEDBACK_GENERATION_PROMPT scenarioTranscript)],
       Return expected).
Proof.
  intros expected. unfold expected.
  split; [by vm_compute|]. split; [by vm_compute|].
  assert (feedbackOfText gestureResults fencedPayload = expected) as E;
    [|split; [exact E|split; [|unfold analysis, requestFeedback; simpl;
                                by rewrite E]]].
  - unfold feedbackOfText, buildFeedback.
    replace (sanitizeAndParseJSON fencedPayload) with
      (Return (JObject
           [ (js "score", JNumber 82);
             (js "summary", JString (js "Solid."));
             (js "strengths", JArray [JString (js "Clear")]);
             (js "improvements", JArray [JString (js "Depth")]);
             (js "metrics", JObject [(js "technical", JNumber 7)]) ]))
      by (by vm_compute).
    reflexivity.
  - unfold feedbackOfText, buildFeedback.
    replace (sanitizeAndParseJSON fencedPayload_escaped) with
      (Return (JObject
           [ (js "score", JNumber 82);
             (js "summary", JString (js "Solid."));
             (js "strengths", JArray [JString (js "Clear")]);
             (js "improvements", JArray [JString (js "Depth")]);
             (js "metrics", JObject [(js "technical", JNumber 7)]) ]))
      by (by vm_compute).
    reflexivity.
Qed.

(** *** The reports *)

Lemma indexOf_from_none c i s :
  0 <= i → c ∉ s → indexOf_from c i s = -1.
Proof.
  revert i. induction s as [|x r IH]; intros i Hi Hc; simpl; [done|].
  apply not_elem_of_cons in Hc as [Hne Hc].
  destruct (N.eqb_spec x c); [congruence|]. apply IH; [lia|done].
Qed.

(** Prose without an opening brace is never taken for JSON. *)
Lemma feedbackOfText_prose g (jsonText : jsstring) :
  LBRACE ∉ replaceAll BACKTICKS []
             (replaceAll (BACKTICKS ++ js "json") [] jsonText) →
  feedbackOfText g jsonText = invalidFormatData g.
Proof.
  intros H. unfold feedbackOfText, buildFeedback, sanitizeAndParseJSON, indexOf.
  by rewrite indexOf_from_none.
Qed.

Section AnalysisFacts.
Variable FEEDBACK_GENERATION_PROMPT : jsstring.
Variable API_KEY : option jsstring.
Variable generateContent : jsstring → RemoteResult.
Variable gestureResults : option GestureMetrics.


(** The outer [catch] leaves no way out for an exception. *)
Lemma analysis_returns (finalTranscript : jsstring) :
  ∃ report : FeedbackData,
    (analysis FEEDBACK_GENERATION_PROMPT API_KEY generateContent
       gestureResults finalTranscript).2 = Return report.
Proof.
  unfold analysis. case_match; [by eexists|].
  destruct (requestFeedback _ _ _ _ _) as [effects [r|e]]; by eexists.
Qed.

(** What holds of the analysis for every transcript, credential and
    answer of the remote model: it completes with a report and never with
    an exception. Below the minimum length the report is the fixed
    no-conversation report; when the credential is missing or the remote
    call fails, the fixed network-error report; when the answer cannot be
    parsed or read, the fixed invalid-format report; otherwise the report
    read from the parsed payload. *)
Lemma analysis_outcomes (finalTranscript : jsstring) :
  let prompt := analysisPrompt FEEDBACK_GENERATION_PROMPT finalTranscript in
  ∃ report : FeedbackData,
    (analysis FEEDBACK_GENERATION_PROMPT API_KEY generateContent
       gestureResults finalTranscript).2 = Return report
    ∧ ((length finalTranscript < 10)%nat →
       report = emptyData gestureResults)
    ∧ ((10 ≤ length finalTranscript)%nat →
       match API_KEY with
       | Some (_ :: _) =>
           match generateContent prompt with
           | Rejected e => report = emergencyData gestureResults
           | Responded text =>
               match buildFeedback gestureResults (orText text (js "{}")) with
               | Return feedbackData => report = feedbackData
               | Throw e => report = invalidFormatData gestureResults
               end
           end
       | _ => report = emergencyData gestureResults
       end).
Proof.
  intros prompt. unfold analysis.
  destruct (Nat.lt_ge_cases (length finalTranscript) 10) as [Hlt|Hge].
  - assert ((Z.of_nat (length finalTranscript) <? 10) = true) as ->
      by (apply Z.ltb_lt; lia).
    rewrite orb_true_r. exists (emptyData gestureResults).
    split; [done|]. split; [done|]. intros; lia.
  - assert ((Z.of_nat (length finalTranscript) <? 10) = false) as ->
      by (apply Z.ltb_ge; lia).
    destruct finalTranscript as [|c ft] eqn:Eft; [simpl in Hge; lia|].
    cbn [truthy negb orb]. unfold requestFeedback. fold prompt.
    destruct API_KEY as [[|k key]|].
    + exists (emergencyData gestureResults).
      split; [done|]. split; [intros ?; lia|done].
    + destruct (generateContent prompt) as [e|text].
      * exists (emergencyData gestureResults).
        split; [done|]. split; [intros ?; lia|done].
      * exists (feedbackOfText gestureResults (orText text (js "{}"))).
        split; [done|]. split; [intros ?; lia|]. intros _.
        unfold feedbackOfText.
        by destruct (buildFeedback _ _).
    + exists (emergencyData gestureResults).
      split; [done|]. split; [intros ?; lia|done].
Qed.

(** The report reaches [setFeedback] when the application is still
    analyzing, and only then. *)
Lemma publishedFeedback_spec (stateRef : InterviewState)
    (finalTranscript : jsstring) :
  match publishedFeedback FEEDBACK_GENERATION_PROMPT API_KEY generateContent
          stateRef gestureResults finalTranscript with
  | Some report =>
      stateRef = ANALYZING
      ∧ (analysis FEEDBACK_GENERATION_PROMPT API_KEY generateContent
           gestureResults finalTranscript).2 = Return report
  | None => stateRef ≠ ANALYZING
  end.
Proof.
  destruct (analysis_returns finalTranscript) as (report & E).
  unfold publishedFeedback. rewrite E. by destruct stateRef.
Qed.

(** With the credential missing and a transcript of ten code units or
    more, the guard of the [catch] reads the state the interview was ended
    from: unless that was the analyzing state itself, no report is built
    and none reaches [setFeedback]. *)
Lemma missing_credential_publishes_nothing
    (endedFrom current : InterviewState) (finalTranscript : jsstring) :
  API_KEY = None ∨ API_KEY = Some [] →
  (10 ≤ length finalTranscript)%nat →
  endedFrom ≠ ANALYZING →
  publishedFeedback FEEDBACK_GENERATION_PROMPT API_KEY generateContent
    (guardState API_KEY endedFrom current finalTranscript)
    gestureResults finalTranscript = None.
Proof.
  intros Hkey Hlen Hfrom. unfold guardState.
  assert ((Z.of_nat (length finalTranscript) <? 10) = false) as ->
    by (apply Z.ltb_ge; lia).
  destruct finalTranscript as [|c ft]; [simpl in Hlen; lia|].
  cbn [truthy negb orb].
  assert (match API_KEY with Some (_ :: _) => current | _ => endedFrom end
          = endedFrom) as -> by (by destruct Hkey as [-> | ->]).
  unfold publishedFeedback. by destruct endedFrom.
Qed.

(** The four cases in which a report must come back: no transcript, a
    plain JSON payload, a fenced payload with a trailing comma, prose. *)
Lemma analysis_four_cases (k : code_unit) (key : jsstring) :
  let run payload transcript :=
    (analysis FEEDBACK_GENERATION_PROMPT (Some (k :: key))
       (λ _, Responded (Some payload)) gestureResults transcript).2 in
  run validPayload [] = Return (emptyData gestureResults)
  ∧ run validPayload scenarioTranscript
    = Return
        {| score := 82;
           summary := JString (js "Solid.");
           strengths := [JString (js "Clear")];
           improvements := [JString (js "Depth")];
           metrics :=
             {| technical := JNumber 7; communication := JNumber 8;
                confidence := JNumber 6; clarity := JNumber 7;
                problemSolving := JNumber 5 |};
           gestureMetrics := gestureResults |}
  ∧ run fencedPayload scenarioTranscript
    = Return
        {| score := 82;
           summary := JString (js "Solid.");
           strengths := [JString (js "Clear")];
           improvements := [JString (js "Depth")];
           metrics :=
             {| technical := JNumber 7; communication := JNumber 0;
                confidence := JNumber 0; clarity := JNumber 0;
                problemSolving := JNumber 0 |};
           gestureMetrics := gestureResults |}
  ∧ run prosePayload scenarioTranscript
    = Return (invalidFormatData gestureResults).
Proof.
  intros run.
  assert (∀ payload parsed,
            sanitizeAndParseJSON payload = Return parsed →
            run payload scenarioTranscript
            = Return
                match feedbackOfParsed gestureResults parsed with
                | Return r => r
                | Throw _ => invalidFormatData gestureResults
                end) as Hrun.
  { intros payload parsed E.
    unfold run, analysis, requestFeedback, feedbackOfText, buildFeedback.
    change (truthy scenarioTranscript) with true.
    change (Z.of_nat (length scenarioTranscript) <? 10) with false.
    cbn [negb orb snd]. destruct payload as [|c p]; [by vm_compute in E|].
    cbn [orText truthy]. by rewrite E. }
  split; [done|].
  split; [erewrite Hrun by (vm_compute; reflexivity); reflexivity|].
  split; [erewrite Hrun by (vm_compute; reflexivity); reflexivity|].
  unfold run, analysis, requestFeedback.
  change (truthy scenarioTranscript) with true.
  change (Z.of_nat (length scenarioTranscript) <? 10) with false.
  cbn [negb orb snd orText truthy]. cbv iota.
  rewrite feedbackOfText_prose; [done|].
  apply (bool_decide_unpack _). by vm_compute.
Qed.
End AnalysisFacts.


(** The three fixed reports are well-formed. *)
Lemma fixed_reports_wellTyped g :
  wellTyped (emptyData g) = true
  ∧ wellTyped (invalidFormatData g) = true
  ∧ wellTyped (emergencyData g) = true.
Proof. done. Qed.

(** C7. The report is not always well-formed. A payload that parses and
    gives a sub-metric as text makes the analysis return a report that
    holds this text as the sub-metric, which is not of the interface
    [FeedbackData]: lines 698 and 702-706 default a field with [||], on
    its truthiness alone. The sibling fields of the same object literal
    are tested for their type (lines 697, 699 and 700): a score or a list
    given as text is replaced by its default, and the report is
    well-formed. *)
Theorem analysis_report_breaks_interface
    (FEEDBACK_GENERATION_PROMPT : jsstring) (k : code_unit) (key : jsstring)
    (gestureResults : option GestureMetrics) :
  let run payload :=
    (analysis FEEDBACK_GENERATION_PROMPT (Some (k :: key))
       (λ _, Responded (Some payload)) gestureResults
       scenarioTranscript).2 in
  (∃ report,
      run textMetricPayload = Return report
      ∧ technical (metrics report) = JString (js "high")
      ∧ wellTyped report = false)
  ∧ (∃ report,
      run textScorePayload = Return report
      ∧ score report = 0%Q
      ∧ strengths report = [JString (js "No specific strengths detected")]
      ∧ wellTyped report = true).
Proof.
  intros run.
  assert (∀ payload parsed,
            truthy payload = true →
            sanitizeAndParseJSON payload = Return parsed →
            run payload
            = Return
                match feedbackOfParsed gestureResults parsed with
                | Return r => r
                | Throw _ => invalidFormatData gestureResults
                end) as Hrun.
  { intros payload parsed Hp E.
    unfold run, analysis, requestFeedback, feedbackOfText, buildFeedback.
    change (truthy scenarioTranscript) with true.
    change (Z.of_nat (length scenarioTranscript) <? 10) with false.
    cbn [negb orb snd]. destruct payload as [|c p]; [done|].
    cbn [orText truthy]. by rewrite E. }
  split.
  - eexists. split; [|split].
    + apply Hrun; [done|]. vm_compute. reflexivity.
    + reflexivity.
    + reflexivity.
  - eexists. split; [|split; [|split]].
    + apply Hrun; [done|]. vm_compute. reflexivity.
    + reflexivity.
    + reflexivity.
    + reflexivity.
Qed.

Lemma handleEndInterview_begin_keeps_text st :
  fullTranscriptRef (handleEndInterview_begin st) = fullTranscriptRef st
  ∧ currentInputRef (handleEndInterview_begin st) = currentInputRef st
  ∧ currentOutputRef (handleEndInterview_begin st) = currentOutputRef st.
Proof. done. Qed.

(** C10. When the interview is ended the transcript handed to the
    analyzer is the committed transcript followed, for each accumulator
    that is not empty, by a line with its text, labelled as the candidate's
    or the interviewer's final words; this is the text sent to the remote
    model. *)
Theorem final_transcript_includes_partials
    (FEEDBACK_GENERATION_PROMPT : jsstring) (k : code_unit) (key : jsstring)
    (generateContent : jsstring → RemoteResult)
    (gestureResults : option GestureMetrics) (st : Store) :
  let ended := handleEndInterview_begin st in
  let candidateFinal :=
    match currentInputRef st with
    | [] => []
    | _ :: _ => [LF] ++ js "Candidate (Final): " ++ currentInputRef st
    end in
  let interviewerFinal :=
    match currentOutputRef st with
    | [] => []
    | _ :: _ => [LF] ++ js "Interviewer (Final): " ++ currentOutputRef st
    end in
  (10 ≤ length (finalTranscript ended))%nat →
  currentSessionIdRef ended = []
  ∧ state ended = ANALYZING
  ∧ finalTranscript ended
    = fullTranscriptRef st ++ candidateFinal ++ interviewerFinal
  ∧ (analysis FEEDBACK_GENERATION_PROMPT (Some (k :: key)) generateContent
       gestureResults (finalTranscript ended)).1
    = [GenerateContent
         (FEEDBACK_GENERATION_PROMPT ++ [LF; LF] ++ js "TRANSCRIPT:" ++ [LF]
            ++ fullTranscriptRef st ++ candidateFinal ++ interviewerFinal)].
Proof.
  intros ended candidateFinal interviewerFinal Hlen.
  assert (finalTranscript ended
          = fullTranscriptRef st ++ candidateFinal ++ interviewerFinal) as E.
  { unfold finalTranscript, ended, candidateFinal, interviewerFinal.
    destruct (handleEndInterview_begin_keeps_text st) as (-> & -> & ->).
    by destruct (currentInputRef st), (currentOutputRef st). }
  split; [done|]. split; [done|]. split; [done|].
  unfold analysis.
  assert ((Z.of_nat (length (finalTranscript ended)) <? 10) = false) as ->
    by (apply Z.ltb_ge; lia).
  destruct (finalTranscript ended) as [|c ft] eqn:Eft; [simpl in Hlen; lia|].
  cbn [truthy negb orb]. unfold requestFeedback, analysisPrompt.
  by rewrite <- E.
Qed.

Lemma final_transcript_includes_partials_witness :
  let st := (onmessage sessionA (textMsg (js "I built") (js "Good")) 0
               (activeStore sessionA)).1 in
  let ended := handleEndInterview_begin st in
  currentSessionIdRef ended = []
  ∧ state ended = ANALYZING
  ∧ finalTranscript ended
    = [] ++ ([LF] ++ js "Candidate (Final): " ++ js "I built")
      ++ ([LF] ++ js "Interviewer (Final): " ++ js "Good")
  ∧ (analysis (js "Analyze.") (Some (js "key"))
       (λ _, Rejected (Error (js "Failed to fetch"))) None
       (finalTranscript ended)).1
    = [GenerateContent
         (js "Analyze." ++ [LF; LF] ++ js "TRANSCRIPT:" ++ [LF]
            ++ [] ++ ([LF] ++ js "Candidate (Final): " ++ js "I built")
            ++ ([LF] ++ js "Interviewer (Final): " ++ js "Good"))].
Proof.
  intros st ended.
  apply (final_transcript_includes_partials (js "Analyze.") 107%N (js "ey")
           (λ _, Rejected (Error (js "Failed to fetch"))) None st).
  vm_compute. lia.
Defined.

(** * Further properties of the code *)

(** ** Invariants of the session store *)

Lemma startInterview_setup_steps newSessionId st :
  startInterview_setup newSessionId st
  = createContexts (resetForStart newSessionId st).
Proof. reflexivity. Qed.

Lemma startInterview_steps newSessionId st :
  startInterview newSessionId st
  = steps [Teardown; ResetForStart newSessionId; CreateContexts] st.
Proof. reflexivity. Qed.

Lemma handleHardReset_steps st :
  handleHardReset st = steps [Invalidate; Teardown; HardResetFinish] st.
Proof. reflexivity. Qed.

Lemma handleEndInterview_begin_steps st :
  handleEndInterview_begin st
  = steps [Invalidate; Teardown; SetState ANALYZING] st.
Proof. reflexivity. Qed.

Lemma steps_app l1 l2 st : steps (l1 ++ l2) st = steps l2 (steps l1 st).
Proof. unfold steps. apply foldl_app. Qed.

(** An invariant of every step holds in every reachable store. *)
Lemma reachable_ind (P : Store → Prop) :
  P initialStore →
  (∀ a st, P st → P (step a st)) →
  ∀ st, reachable st → P st.
Proof.
  intros H0 Hstep st [l ->].
  induction l as [|a l IH] using rev_ind; [done|].
  rewrite steps_app. simpl. by apply Hstep.
Qed.

Lemma accumulated_fields msg st :
  transcripts (accumulated msg st) = transcripts st
  ∧ fullTranscriptRef (accumulated msg st) = fullTranscriptRef st
  ∧ tokenUsage (accumulated msg st) = tokenUsage st
  ∧ sourcesRef (accumulated msg st) = sourcesRef st
  ∧ nodesCreated (accumulated msg st) = nodesCreated st
  ∧ nextStartTimeRef (accumulated msg st) = nextStartTimeRef st
  ∧ audioDevice (accumulated msg st) = audioDevice st.
Proof.
  unfold accumulated, appendInputTranscription, appendOutputTranscription.
  repeat case_match; done.
Qed.

(** [onmessage] on the current token, block by block. *)
Lemma onmessage_current msg now st :
  (onmessage (currentSessionIdRef st) msg now st).1
  = (if interrupted msg then handleInterrupted now else id)
      ((if turnComplete msg then handleTurnComplete else id)
         (accumulated msg st)).
Proof.
  unfold onmessage. rewrite jsstring_eqb_refl. simpl.
  destruct (turnComplete msg), (interrupted msg); simpl;
    repeat case_match; done.
Qed.

Lemma onmessage_cases T msg now st :
  (onmessage T msg now st).1 = st
  ∨ (onmessage T msg now st).1
    = (if interrupted msg then handleInterrupted now else id)
        ((if turnComplete msg then handleTurnComplete else id)
           (accumulated msg st)).
Proof.
  destruct (decide (currentSessionIdRef st = T)) as [<-|Hne].
  - right. apply onmessage_current.
  - left. by rewrite onmessage_stale.
Qed.

Lemma transcriptsAgree_commit st (input output : jsstring) st' :
  transcriptsAgree st →
  transcripts st'
  = transcripts st ++ [ {| role := user; text := input |};
                        {| role := model; text := output |} ] →
  fullTranscriptRef st'
  = fullTranscriptRef st ++ js "Candidate: " ++ input ++ [LF]
      ++ js "Interviewer: " ++ output ++ [LF] →
  transcriptsAgree st'.
Proof.
  intros (turns & Ht & Hf) Ht' Hf'. exists (turns ++ [(input, output)]).
  split.
  - rewrite bind_app, Ht', Ht. simpl. done.
  - rewrite bind_app, Hf', Hf. simpl. by rewrite !app_nil_r.
Qed.

Lemma transcriptsAgree_same st st' :
  transcriptsAgree st →
  transcripts st' = transcripts st →
  fullTranscriptRef st' = fullTranscriptRef st →
  transcriptsAgree st'.
Proof.
  intros (turns & Ht & Hf) Ht' Hf'. exists turns. by rewrite Ht', Hf'.
Qed.

Lemma transcriptsAgree_empty st :
  transcripts st = [] → fullTranscriptRef st = [] → transcriptsAgree st.
Proof. intros Ht Hf. exists []. by rewrite Ht, Hf. Qed.

Lemma handleTurnComplete_agree st :
  transcriptsAgree st → transcriptsAgree (handleTurnComplete st).
Proof.
  intros H. unfold handleTurnComplete.
  destruct (trim_truthy (currentInputRef st) || trim_truthy (currentOutputRef st)).
  - by eapply (transcriptsAgree_commit st).
  - by eapply (transcriptsAgree_same st).
Qed.

Lemma handleInterrupted_agree now st :
  transcriptsAgree st → transcriptsAgree (handleInterrupted now st).
Proof.
  intros H. unfold handleInterrupted.
  set (st1 := set_nextStartTimeRef _ (stopSources st)).
  change (currentInputRef st1) with (currentInputRef st).
  change (currentOutputRef st1) with (currentOutputRef st).
  destruct (trim_truthy (currentInputRef st) || trim_truthy (currentOutputRef st)).
  - eapply (transcriptsAgree_commit st
              (currentInputRef st) (currentOutputRef st ++ js " (interrupted)"));
      [done|done|].
    simpl. by rewrite <- !app_assoc.
  - by eapply (transcriptsAgree_same st).
Qed.

Lemma step_transcriptsAgree a st :
  transcriptsAgree st → transcriptsAgree (step a st).
Proof.
  intros H. destruct a as [| |T| | |s|T ev]; simpl;
    try (by eapply (transcriptsAgree_same st));
    try (by apply transcriptsAgree_empty).
  destruct ev as [|msg now|decoded now|source| |]; simpl.
  - unfold onopen. case_match; [done|by eapply (transcriptsAgree_same st)].
  - destruct (onmessage_cases T msg now st) as [->| ->]; [done|].
    assert (transcriptsAgree (accumulated msg st)) as H1.
    { destruct (accumulated_fields msg st) as (? & ? & _).
      by eapply (transcriptsAgree_same st). }
    destruct (turnComplete msg), (interrupted msg); simpl;
      auto using handleTurnComplete_agree, handleInterrupted_agree.
  - destruct decoded; [|done]. by eapply (transcriptsAgree_same st).
  - by eapply (transcriptsAgree_same st).
  - unfold onclose. case_match; [by eapply (transcriptsAgree_same st)|done].
  - unfold onerror. case_match; [done|by eapply (transcriptsAgree_same st)].
Qed.

(** X1. The two transcripts agree ([onmessage], [startInterview],
    [handleHardReset]). In every store the application can reach, the
    document kept for the analysis is the concatenation, in order, of the
    lines of exactly the turns in the transcript list. *)
Theorem transcript_document_matches_list (st : Store) :
  reachable st → transcriptsAgree st.
Proof.
  apply reachable_ind.
  - by apply transcriptsAgree_empty.
  - apply step_transcriptsAgree.
Qed.

Lemma transcript_document_matches_list_witness :
  reachable (steps sampleRun initialStore)
  ∧ transcriptsAgree (steps sampleRun initialStore).
Proof.
  assert (reachable (steps sampleRun initialStore)) as H
    by (by exists sampleRun).
  split; [exact H|]. exact (transcript_document_matches_list _ H).
Defined.

Lemma step_mirrorsAgree a st : mirrorsAgree st → mirrorsAgree (step a st).
Proof.
  intros [Hi Ho]. destruct a as [| |T| | |s|T ev]; simpl; try done.
  destruct ev as [|msg now|decoded now|source| |]; simpl.
  - unfold onopen. by case_match.
  - destruct (onmessage_cases T msg now st) as [->| ->]; [done|].
    assert (mirrorsAgree (accumulated msg st)) as H1.
    { unfold mirrorsAgree, accumulated, appendInputTranscription,
        appendOutputTranscription.
      repeat case_match; simpl; by rewrite ?Hi, ?Ho. }
    assert (∀ s, mirrorsAgree s → mirrorsAgree (handleTurnComplete s)) as Htc
      by (intros s _; unfold handleTurnComplete; by case_match).
    assert (∀ s, mirrorsAgree s → mirrorsAgree (handleInterrupted now s)) as Hin
      by (intros s Hs; unfold handleInterrupted; by case_match).
    destruct (turnComplete msg), (interrupted msg); simpl; auto.
  - by destruct decoded.
  - done.
  - unfold onclose. by case_match.
  - unfold onerror. by case_match.
Qed.

(** X2. The live captions ([onmessage]). In every store the application can
    reach, the partial texts shown for the turn in progress are the
    accumulators themselves. *)
Theorem live_mirror_shows_accumulators (st : Store) :
  reachable st → mirrorsAgree st.
Proof. apply reachable_ind; [done|apply step_mirrorsAgree]. Qed.

Lemma live_mirror_shows_accumulators_witness :
  reachable (steps sampleRun initialStore)
  ∧ mirrorsAgree (steps sampleRun initialStore).
Proof.
  assert (reachable (steps sampleRun initialStore)) as H
    by (by exists sampleRun).
  split; [exact H|]. exact (live_mirror_shows_accumulators _ H).
Defined.

(** *** Committed turns are never taken back by a callback *)

Lemma newTokens_nonneg input output : 0 <= newTokens input output.
Proof.
  unfold newTokens. rewrite <- (Qceiling_Z 0). apply Qceiling_resp_le.
  apply Qle_shift_div_l; [reflexivity|]. rewrite Qmult_0_l.
  rewrite <- (Zle_Qle 0). lia.
Qed.

Lemma handleTurnComplete_extends st :
  transcripts st `prefix_of` transcripts (handleTurnComplete st)
  ∧ fullTranscriptRef st `prefix_of` fullTranscriptRef (handleTurnComplete st)
  ∧ tokenUsage st <= tokenUsage (handleTurnComplete st).
Proof.
  unfold handleTurnComplete. case_match; simpl.
  - split; [by apply prefix_app_r|]. split; [by apply prefix_app_r|].
    pose proof (newTokens_nonneg (currentInputRef st) (currentOutputRef st)).
    lia.
  - done.
Qed.

Lemma handleInterrupted_extends now st :
  transcripts st `prefix_of` transcripts (handleInterrupted now st)
  ∧ fullTranscriptRef st
    `prefix_of` fullTranscriptRef (handleInterrupted now st)
  ∧ tokenUsage st <= tokenUsage (handleInterrupted now st).
Proof.
  unfold handleInterrupted. case_match; simpl.
  - split; [by apply prefix_app_r|]. split; [by apply prefix_app_r|]. lia.
  - done.
Qed.

(** X3. Committed turns stay ([onopen], [onmessage], [onclose], [onerror],
    [onended]). No callback of the channel or of the audio device, whatever
    its token and whatever the store, removes or rewrites a committed turn:
    the transcript list and the transcript document only grow at their end,
    and the token estimate never goes down. *)
Theorem callbacks_only_append (sessionId : jsstring) (ev : Event)
    (st : Store) :
  let st' := handle sessionId ev st in
  transcripts st `prefix_of` transcripts st'
  ∧ fullTranscriptRef st `prefix_of` fullTranscriptRef st'
  ∧ tokenUsage st <= tokenUsage st'.
Proof.
  destruct ev as [|msg now|decoded now|source| |]; simpl.
  - unfold onopen. by case_match.
  - destruct (onmessage_cases sessionId msg now st) as [->| ->]; [done|].
    destruct (accumulated_fields msg st) as (Ht & Hf & Hu & _).
    rewrite <- Ht, <- Hf, <- Hu.
    generalize (accumulated msg st); intros s.
    destruct (handleTurnComplete_extends s) as (A1 & A2 & A3).
    destruct (handleInterrupted_extends now (handleTurnComplete s))
      as (B1 & B2 & B3).
    destruct (turnComplete msg), (interrupted msg); cbn [id].
    + split; [by etrans|]. split; [by etrans|]. lia.
    + done.
    + apply handleInterrupted_extends.
    + done.
  - by destruct decoded.
  - done.
  - unfold onclose. by case_match.
  - unfold onerror. by case_match.
Qed.

(** *** Teardown *)

Lemma handle_checked_stale sessionId ev st :
  (∀ decoded now, ev ≠ Decoded decoded now) → (∀ source, ev ≠ Ended source) →
  currentSessionIdRef st ≠ sessionId → handle sessionId ev st = st.
Proof.
  intros Hd He Hne. destruct ev as [|msg now|decoded now|source| |]; simpl.
  - by apply onopen_stale.
  - by rewrite onmessage_stale.
  - by destruct (Hd decoded now).
  - by destruct (He source).
  - by apply onclose_stale.
  - by apply onerror_stale.
Qed.

(** X4. A session that is over is not heard ([stopAllMedia],
    [handleEndInterview], [handleHardReset], [onclose], [onerror]). Once a
    session has been torn down by [stopAllMedia], by the end of the
    interview, by a hard reset or by its own error or close callback,
    every later callback of that session that begins with the token
    comparison (open, message, close, error) leaves the store as it is. The
    token of the session must not be the empty string, which is what the
    teardown writes. *)
Theorem torn_down_session_is_ignored (sessionId : jsstring) (ev : Event)
    (st : Store) :
  sessionId ≠ [] →
  (∀ decoded now, ev ≠ Decoded decoded now) →
  (∀ source, ev ≠ Ended source) →
  ∀ st',
    st' ∈ [ stopAllMedia st; handleEndInterview_begin st; handleHardReset st;
            onerror (currentSessionIdRef st) st;
            onclose (currentSessionIdRef st) st ] →
    handle sessionId ev st' = st'.
Proof.
  intros Hne Hd He st' Hin. apply handle_checked_stale; [done|done|].
  assert (currentSessionIdRef st' = []) as ->; [|done].
  rewrite !elem_of_cons in Hin.
  destruct Hin as [->|[->|[->|[->|[->|Hnil]]]]]; try done.
  - unfold onerror. by rewrite jsstring_eqb_refl.
  - unfold onclose. by rewrite jsstring_eqb_refl.
  - by apply elem_of_nil in Hnil.
Qed.

Lemma torn_down_session_is_ignored_witness :
  handle sessionA (Message (textMsg (js "late") (js "words")) 3)
    (handleEndInterview_begin (activeStore sessionA))
  = handleEndInterview_begin (activeStore sessionA).
Proof.
  apply (torn_down_session_is_ignored sessionA
           (Message (textMsg (js "late") (js "words")) 3)
           (activeStore sessionA)); try done.
  rewrite !elem_of_cons. right; by left.
Defined.

(** X5. Errors keep the transcript ([onclose], [onerror],
    [handleEndInterview]). An error or an unexpected close of the current
    session tears the session down but keeps what was said: the committed
    transcript and the two accumulators are as before, so ending the
    interview afterwards hands the analyzer the same final transcript. *)
Theorem error_keeps_transcript (st : Store) :
  let failed := onerror (currentSessionIdRef st) st in
  let closed := onclose (currentSessionIdRef st) st in
  state failed = ERROR ∧ currentSessionIdRef failed = []
  ∧ sourcesRef failed = ∅
  ∧ transcripts failed = transcripts st
  ∧ finalTranscript (handleEndInterview_begin failed) = finalTranscript st
  ∧ state closed = ERROR ∧ currentSessionIdRef closed = []
  ∧ sourcesRef closed = ∅
  ∧ transcripts closed = transcripts st
  ∧ finalTranscript (handleEndInterview_begin closed) = finalTranscript st.
Proof.
  unfold onerror, onclose. rewrite jsstring_eqb_refl. simpl. done.
Qed.

(** *** The active set and the audio device *)

Lemma audioInv_same st st' :
  audioInv st →
  audioDevice st' = audioDevice st → nodesCreated st' = nodesCreated st →
  sourcesRef st' ⊆ sourcesRef st →
  audioInv st'.
Proof.
  intros [H1 H2] Ha Hn Hs. split.
  - intros c. rewrite Ha, Hn. apply H1.
  - intros n Hin. rewrite Ha, Hn. apply H2. by apply Hs.
Qed.

Lemma stopSources_audioInv st : audioInv st → audioInv (stopSources st).
Proof.
  intros [H1 H2]. split.
  - intros c. unfold stopSources; simpl. rewrite elem_of_app.
    intros [Hc|Hc]; [by apply H1|].
    apply list_elem_of_fmap in Hc as (n & -> & Hn). simpl.
    apply elem_of_elements in Hn. by apply H2.
  - intros n Hn. by apply elem_of_empty in Hn.
Qed.

Lemma start_audioInv st (c : AudioCmd) st' :
  audioInv st →
  cmdNode c = nodesCreated st →
  (∀ n, c ≠ NodeStop n) →
  audioDevice st' = audioDevice st ++ [c] →
  nodesCreated st' = Pos.succ (nodesCreated st) →
  sourcesRef st' = {[nodesCreated st]} ∪ sourcesRef st →
  audioInv st'.
Proof.
  intros [H1 H2] Hc Hns Ha Hn Hs. split.
  - intros c'. rewrite Ha, Hn, elem_of_app, list_elem_of_singleton.
    intros [Hin| ->]; [apply H1 in Hin|rewrite Hc]; lia.
  - intros n. rewrite Hs, Ha, Hn, elem_of_union, elem_of_singleton.
    intros [->|Hin].
    + split; [lia|]. split.
      * destruct c as [m|m w d|m]; simpl in Hc; subst.
        -- left. apply elem_of_app. right. by apply list_elem_of_singleton.
        -- right. exists w, d. apply elem_of_app. right.
           by apply list_elem_of_singleton.
        -- by destruct (Hns (nodesCreated st)).
      * rewrite elem_of_app, list_elem_of_singleton. intros [Hin|Heq].
        -- apply H1 in Hin. simpl in Hin. lia.
        -- by destruct (Hns (nodesCreated st)).
    + destruct (H2 n Hin) as (Hlt & Hst & Hnot). split; [lia|]. split.
      * destruct Hst as [Hl|(w & d & Hb)]; [left|right; exists w, d];
          apply elem_of_app; by left.
      * rewrite elem_of_app, list_elem_of_singleton. intros [Hin'|Heq]; [done|].
        by destruct (Hns n).
Qed.

Lemma startSilenceLoop_audioInv st :
  audioInv st → audioInv (startSilenceLoop st).
Proof.
  intros H. by eapply (start_audioInv st (LoopStart (nodesCreated st))).
Qed.

Lemma scheduleBuffer_audioInv now d st :
  audioInv st → audioInv (scheduleBuffer now d st).
Proof.
  intros H.
  by eapply (start_audioInv st
               (BufferStart (nodesCreated st)
                  (Qmax (nextStartTimeRef st) now) d)).
Qed.

Lemma stopAllMedia_audioInv st : audioInv st → audioInv (stopAllMedia st).
Proof.
  intros H. unfold stopAllMedia. apply stopSources_audioInv.
  by eapply (audioInv_same st).
Qed.

Lemma handleInterrupted_audioInv now st :
  audioInv st → audioInv (handleInterrupted now st).
Proof.
  intros H. apply stopSources_audioInv in H.
  unfold handleInterrupted.
  destruct (_ || _); by eapply (audioInv_same (stopSources st)).
Qed.

Lemma step_audioInv a st : audioInv st → audioInv (step a st).
Proof.
  intros H. destruct a as [| |T| | |s|T ev]; simpl.
  - by eapply (audioInv_same st).
  - by apply stopAllMedia_audioInv.
  - by eapply (audioInv_same st).
  - unfold createContexts. do 2 apply startSilenceLoop_audioInv.
    by eapply (audioInv_same st).
  - eapply (audioInv_same st); [done|done|done|]. apply empty_subseteq.
  - by eapply (audioInv_same st).
  - destruct ev as [|msg now|decoded now|source| |]; simpl.
    + unfold onopen. case_match; [done|by eapply (audioInv_same st)].
    + destruct (onmessage_cases T msg now st) as [->| ->]; [done|].
      assert (audioInv (accumulated msg st)) as H1.
      { destruct (accumulated_fields msg st) as (_ & _ & _ & Hs & Hn & _ & Ha).
        eapply (audioInv_same st); [done|done|done|]. by rewrite Hs. }
      assert (∀ s, audioInv s → audioInv (handleTurnComplete s)) as Htc.
      { intros s Hs. unfold handleTurnComplete.
        case_match; by eapply (audioInv_same s). }
      destruct (turnComplete msg), (interrupted msg); cbn [id];
        auto using handleInterrupted_audioInv.
    + destruct decoded; [by apply scheduleBuffer_audioInv|done].
    + eapply (audioInv_same st); [done|done|done|]. simpl.
      by intros x [? ?]%elem_of_difference.
    + unfold onclose. case_match; [|done].
      apply stopAllMedia_audioInv. by eapply (audioInv_same st).
    + unfold onerror. case_match; [done|].
      apply stopAllMedia_audioInv. by eapply (audioInv_same st).
Qed.

(** X6. The active set ([stopAllMedia], [startInterview], [onmessage],
    [onended]). In every store the application can reach, a source in the
    active set is one the device was asked to start and the controller has
    not stopped: interruption and teardown never leave a stopped source in
    the set. *)
Theorem active_sources_are_playing (st : Store) :
  reachable st → activeSourcesPlaying st.
Proof.
  intros H n Hn.
  assert (audioInv st) as [_ Hinv].
  { clear n Hn. revert st H. apply reachable_ind; [|apply step_audioInv].
    split; [intros c Hc; by apply elem_of_nil in Hc|].
    intros m Hm. by apply elem_of_empty in Hm. }
  by apply Hinv.
Qed.

Lemma active_sources_are_playing_witness :
  reachable (steps sampleRun initialStore)
  ∧ activeSourcesPlaying (steps sampleRun initialStore).
Proof.
  assert (reachable (steps sampleRun initialStore)) as H
    by (by exists sampleRun).
  split; [exact H|]. exact (active_sources_are_playing _ H).
Defined.

(** *** The timeline over a whole run *)

Lemma timeline_starts_after nextStart arrivals :
  Forall (λ a : Q * Q, (0 <= a.2)%Q) arrivals →
  Forall (λ b : Q * Q, (nextStart <= b.1)%Q) (timeline nextStart arrivals).
Proof.
  revert nextStart. induction arrivals as [|[now d] rest IH];
    intros nextStart Hd; simpl; [constructor|].
  apply Forall_cons in Hd as [Hd0 Hd]. simpl in Hd0. constructor.
  - simpl. apply Q.le_max_l.
  - eapply Forall_impl; [by apply IH|]. intros [s d'] Hs. simpl in *.
    eapply Qle_trans; [|exact Hs].
    eapply Qle_trans; [apply (Q.le_max_l nextStart now)|].
    rewrite <- (Qplus_0_r (Qmax nextStart now)) at 1.
    by apply Qplus_le_r.
Qed.

(** X7. No overlap at any distance ([onmessage]). When no buffer has a
    negative duration, no two buffers of a run are ever scheduled to sound
    together: each one ends before any later one starts, however the
    arrivals are spread in time. *)
Theorem no_two_buffers_overlap (st : Store) (arrivals : list (Q * Q)) :
  Forall (λ a : Q * Q, (0 <= a.2)%Q) arrivals →
  StronglySorted (λ a b : Q * Q, (a.1 + a.2 <= b.1)%Q)
    (startedSince st (scheduleAll arrivals st)).
Proof.
  rewrite startedSince_timeline. generalize (nextStartTimeRef st).
  induction arrivals as [|[now d] rest IH]; intros c Hd; simpl;
    [constructor|].
  apply Forall_cons in Hd as [Hd0 Hd]. constructor; [by apply IH|].
  by apply timeline_starts_after.
Qed.

Lemma no_two_buffers_overlap_witness :
  StronglySorted (λ a b : Q * Q, (a.1 + a.2 <= b.1)%Q)
    (startedSince initialStore
       (scheduleAll [(10, 0.5); (10, 0.5); (12, 0.25)]%Q initialStore)).
Proof.
  apply no_two_buffers_overlap. repeat constructor; discriminate.
Defined.

Lemma totalDuration_cons a rest :
  totalDuration (a :: rest) = (a.2 + totalDuration rest)%Q.
Proof. reflexivity. Qed.

Lemma cursor_after_run arrivals c :
  (c + totalDuration arrivals
   <= foldl (λ c (a : Q * Q), Qmax c a.1 + a.2) c arrivals)%Q
  ∧ (Forall (λ a : Q * Q, (a.1 <= c)%Q ∧ (0 <= a.2)%Q) arrivals →
     (foldl (λ c (a : Q * Q), Qmax c a.1 + a.2) c arrivals
      == c + totalDuration arrivals)%Q).
Proof.
  revert c. induction arrivals as [|[now d] rest IH]; intros c.
  - simpl. unfold totalDuration; simpl. split; [|intros _];
      rewrite Qplus_0_r; [apply Qle_refl|reflexivity].
  - rewrite totalDuration_cons. simpl.
    destruct (IH (Qmax c now + d)%Q) as [IH1 IH2]. split.
    + eapply Qle_trans; [|exact IH1].
      rewrite Qplus_assoc. apply Qplus_le_l. apply Qplus_le_l.
      apply Q.le_max_l.
    + intros Hall. apply Forall_cons in Hall as [[Hnow Hd] Hall].
      simpl in Hnow, Hd.
      assert (Qmax c now == c)%Q as Hmax by (by apply Q.max_l).
      rewrite IH2.
      * rewrite Hmax. by rewrite Qplus_assoc.
      * eapply Forall_impl; [exact Hall|]. intros [n' d'] [Hn' Hd'].
        simpl in *. split; [|done].
        eapply Qle_trans; [exact Hn'|]. rewrite Hmax.
        rewrite <- (Qplus_0_r c) at 1. by apply Qplus_le_r.
Qed.

(** X8. The cursor ([onmessage]). After any run of the scheduler the cursor
    has moved on by at least the total duration of the buffers, so the
    timeline holds all of them; and when the buffers come in a burst, none
    arriving after the cursor, it has moved on by exactly that much: they
    play back to back with no silence in between. *)
Theorem timeline_holds_all_buffers (st : Store) (arrivals : list (Q * Q)) :
  let st' := scheduleAll arrivals st in
  (nextStartTimeRef st + totalDuration arrivals <= nextStartTimeRef st')%Q
  ∧ (Forall (λ a : Q * Q,
               (a.1 <= nextStartTimeRef st)%Q ∧ (0 <= a.2)%Q) arrivals →
     (nextStartTimeRef st'
      == nextStartTimeRef st + totalDuration arrivals)%Q).
Proof.
  intros st'. unfold st'. rewrite (proj2 (scheduleAll_timeline arrivals st)).
  apply cursor_after_run.
Qed.

Lemma timeline_holds_all_buffers_witness :
  (nextStartTimeRef
     (scheduleAll [(10, 0.5); (9, 0.5); (10.5, 0.25)]%Q
        (set_nextStartTimeRef 11 initialStore))
   == 11 + totalDuration [(10, 0.5); (9, 0.5); (10.5, 0.25)])%Q.
Proof.
  apply (timeline_holds_all_buffers (set_nextStartTimeRef 11 initialStore)
           [(10, 0.5); (9, 0.5); (10.5, 0.25)]%Q).
  repeat constructor; discriminate.
Defined.

(** *** A new session *)

Lemma truthy_app_nil (s : jsstring) :
  (if truthy s then s else []) = s.
Proof. by destruct s. Qed.

Lemma callback_textView sessionId ev st :
  sessionId ≠ currentSessionIdRef st →
  textView (handle sessionId ev st) = textView st.
Proof.
  intros Hne. assert (currentSessionIdRef st ≠ sessionId) as Hne' by done.
  destruct ev as [|msg now|decoded now|source| |]; simpl.
  - by rewrite onopen_stale.
  - by rewrite onmessage_stale.
  - by destruct decoded.
  - done.
  - by rewrite onclose_stale.
  - by rewrite onerror_stale.
Qed.

Lemma callbacks_textView n st :
  Forall (λ p : jsstring * Event, p.1 ≠ currentSessionIdRef st) n →
  textView (steps (callbacks n) st) = textView st.
Proof.
  revert st. induction n as [|[sessionId ev] n IH]; intros st Hn; [done|].
  apply Forall_cons in Hn as [Hp Hn]. simpl in Hp.
  change (steps (callbacks ((sessionId, ev) :: n)) st)
    with (steps (callbacks n) (handle sessionId ev st)).
  pose proof (callback_textView sessionId ev st Hp) as Hv.
  rewrite IH; [done|].
  assert (currentSessionIdRef (handle sessionId ev st)
          = currentSessionIdRef st) as -> by (by injection Hv).
  done.
Qed.

Lemma callbacks_noop n st :
  Forall (λ p : jsstring * Event,
            comparesToken p.2 = true ∧ p.1 ≠ currentSessionIdRef st) n →
  steps (callbacks n) st = st.
Proof.
  induction n as [|[sessionId ev] n IH]; intros Hn; [done|].
  apply Forall_cons in Hn as [[Hc Hp] Hn]. simpl in Hc, Hp.
  change (steps (callbacks ((sessionId, ev) :: n)) st)
    with (steps (callbacks n) (handle sessionId ev st)).
  rewrite handle_checked_stale; [by apply IH| | |by intros ?].
  - intros decoded now ->. done.
  - intros source ->. done.
Qed.

Local Opaque js.

(** A start that no callback comes across. *)
Lemma uninterrupted_start (st : Store) (newSessionId : jsstring) :
  let fresh := onopen newSessionId (startInterview newSessionId st) in
  nextStartTimeRef fresh = 0%Q
  ∧ (∀ n, n ∈ sourcesRef st → NodeStop n ∈ audioDevice fresh)
  ∧ size (sourcesRef fresh) = 2%nat.
Proof.
  intros fresh.
  assert (fresh = set_state ACTIVE (startInterview newSessionId st)) as Hfresh.
  { unfold fresh, onopen.
    change (currentSessionIdRef (startInterview newSessionId st))
      with newSessionId.
    by rewrite jsstring_eqb_refl. }
  rewrite Hfresh. split; [done|]. split.
  - intros n Hn. simpl.
    rewrite !elem_of_app. left; left; right.
    apply list_elem_of_fmap. exists n. split; [done|].
    by apply elem_of_elements.
  - assert (sourcesRef (set_state ACTIVE (startInterview newSessionId st))
            = {[Pos.succ (nodesCreated st)]} ∪ ({[nodesCreated st]} ∪ ∅))
      as -> by reflexivity.
    rewrite size_union.
    + rewrite size_union by apply disjoint_empty_r.
      by rewrite !size_singleton, size_empty.
    + apply disjoint_singleton_l. rewrite elem_of_union, elem_of_singleton.
      intros [H|H]; [lia|by apply elem_of_empty in H].
Qed.

(** The first turn of a session whose transcript and accumulators are
    empty is committed alone. *)
Lemma first_turn_alone (fresh : Store) (candidate interviewer : jsstring)
    (now : Q) :
  transcripts fresh = [] → fullTranscriptRef fresh = [] →
  currentInputRef fresh = [] → currentOutputRef fresh = [] →
  trim_truthy candidate || trim_truthy interviewer = true →
  let st' := (onmessage (currentSessionIdRef fresh)
                (closingMsg candidate interviewer) now fresh).1 in
  transcripts st'
  = [ {| role := user; text := candidate |};
      {| role := model; text := interviewer |} ]
  ∧ fullTranscriptRef st'
    = js "Candidate: " ++ candidate ++ [LF]
      ++ js "Interviewer: " ++ interviewer ++ [LF].
Proof.
  intros Ht Hf Hi Ho Hc st'. unfold st'.
  rewrite (onmessage_turnComplete (currentSessionIdRef fresh)
             (closingMsg candidate interviewer) now _ eq_refl eq_refl
             eq_refl).
  remember (accumulated _ _) as s1 eqn:Hs1.
  assert (currentInputRef s1 = candidate ∧ currentOutputRef s1 = interviewer
          ∧ transcripts s1 = [] ∧ fullTranscriptRef s1 = [])
    as (Hi1 & Ho1 & Ht1 & Hf1).
  { rewrite Hs1. unfold accumulated, appendInputTranscription,
      appendOutputTranscription.
    cbn [closingMsg inputTranscription outputTranscription].
    destruct candidate, interviewer; simpl; by rewrite ?Hi, ?Ho, ?Ht, ?Hf. }
  clear Hs1. unfold handleTurnComplete. rewrite Hi1, Ho1, Hc. simpl.
  by rewrite Ht1, Hf1.
Qed.

Local Transparent js.

Lemma startRun_textView (st : Store) (newSessionId : jsstring)
    (n0 n1 n2 n3 n4 : list (jsstring * Event)) :
  Forall (earlier newSessionId) (n0 ++ n1 ++ n2 ++ n3 ++ n4) →
  textView (steps (startRun newSessionId n0 n1 n2 n3 n4) st)
  = (newSessionId, ACTIVE, [], [], ([], []), ([], []), 0).
Proof.
  intros Hn. rewrite !Forall_app in Hn.
  destruct Hn as (H0 & H1 & H2 & H3 & H4).
  assert (∀ n s, currentSessionIdRef s = [] →
            Forall (earlier newSessionId) n →
            textView (steps (callbacks n) s) = textView s) as Hempty.
  { intros n s Hs Hall. apply callbacks_textView.
    eapply Forall_impl; [exact Hall|]. intros p [Hp _]. by rewrite Hs. }
  assert (∀ n s, currentSessionIdRef s = newSessionId →
            Forall (earlier newSessionId) n →
            textView (steps (callbacks n) s) = textView s) as Hnew.
  { intros n s Hs Hall. apply callbacks_textView.
    eapply Forall_impl; [exact Hall|]. intros p [_ Hp]. by rewrite Hs. }
  assert (∀ a b, textView a = textView b →
            currentSessionIdRef a = currentSessionIdRef b) as Htok
    by (by intros a b [= -> _ _ _ _ _ _ _ _]).
  unfold startRun. rewrite !steps_app.
  set (s0 := steps [Invalidate] st).
  set (s1 := steps (callbacks n0) s0).
  set (s2 := steps [Teardown] s1).
  set (s3 := steps (callbacks n1) s2).
  set (s4 := steps [ResetForStart newSessionId] s3).
  set (s5 := steps (callbacks n2) s4).
  set (s6 := steps [CreateContexts] s5).
  set (s7 := steps (callbacks n3) s6).
  set (s8 := steps [Callback newSessionId Opened] s7).
  assert (textView s5 = textView s4) as E5 by (by apply Hnew).
  assert (textView s6 = textView s5) as E6 by reflexivity.
  assert (currentSessionIdRef s6 = newSessionId) as T6.
  { rewrite (Htok _ _ E6). by rewrite (Htok _ _ E5). }
  assert (textView s7 = textView s6) as E7 by (by apply Hnew).
  assert (textView s7
          = (newSessionId, CONNECTING, [], [], ([], []), ([], []), 0))
    as V7 by (by rewrite E7, E6, E5).
  assert (currentSessionIdRef s7 = newSessionId) as T7
    by (by rewrite (Htok _ _ E7)).
  assert (s8 = set_state ACTIVE s7) as E8.
  { unfold s8. change (steps [Callback newSessionId Opened] s7)
      with (onopen newSessionId s7).
    unfold onopen. by rewrite T7, jsstring_eqb_refl. }
  assert (currentSessionIdRef s8 = newSessionId) as T8 by (by rewrite E8).
  rewrite (Hnew n4 s8 T8 H4), E8.
  clear E5 E6 E7 E8 T6 T8. clearbody s7.
  injection V7 as A1 _ A3 A4 A5 A6 A7 A8 A9.
  unfold textView. cbn [currentSessionIdRef state transcripts
    fullTranscriptRef currentInputRef currentOutputRef currentInputTrans
    currentOutputTrans tokenUsage set_state].
  by rewrite A1, A3, A4, A5, A6, A7, A8, A9.
Qed.

(** X9. A fresh start under interleaving ([startInterview], [stopAllMedia],
    [onopen], [onmessage]). [startInterview] is taken in its synchronous
    pieces, with callbacks of earlier sessions running between them, the
    decode continuation and the ended listener included. From any store,
    when the channel has opened the new session holds the new token, is
    active, and has an empty transcript list and document, empty
    accumulators and captions and a token estimate of 0; the first turn
    completed in it is committed alone. When no decode continuation and no
    ended listener of an earlier session runs in between, the run is the
    uninterrupted one: the cursor is at 0, every source that was active has
    been stopped and two sources, the new silence loops, are active. A
    decode continuation that does run in between moves the cursor and adds
    a source, as [stale_decode_during_start] shows. *)
Theorem new_session_starts_clean (st : Store) (newSessionId : jsstring)
    (n0 n1 n2 n3 n4 : list (jsstring * Event))
    (candidate interviewer : jsstring) (now : Q) :
  Forall (earlier newSessionId) (n0 ++ n1 ++ n2 ++ n3 ++ n4) →
  let fresh := steps (startRun newSessionId n0 n1 n2 n3 n4) st in
  let st' := (onmessage newSessionId (closingMsg candidate interviewer)
                now fresh).1 in
  (currentSessionIdRef fresh = newSessionId
   ∧ state fresh = ACTIVE
   ∧ transcripts fresh = [] ∧ fullTranscriptRef fresh = []
   ∧ currentInputRef fresh = [] ∧ currentOutputRef fresh = []
   ∧ currentInputTrans fresh = [] ∧ currentOutputTrans fresh = []
   ∧ tokenUsage fresh = 0)
  ∧ (trim_truthy candidate || trim_truthy interviewer = true →
     transcripts st'
     = [ {| role := user; text := candidate |};
         {| role := model; text := interviewer |} ]
     ∧ fullTranscriptRef st'
       = js "Candidate: " ++ candidate ++ [LF]
         ++ js "Interviewer: " ++ interviewer ++ [LF])
  ∧ (Forall (λ p : jsstring * Event, comparesToken p.2 = true)
       (n0 ++ n1 ++ n2 ++ n3 ++ n4) →
     fresh = onopen newSessionId (startInterview newSessionId st)
     ∧ nextStartTimeRef fresh = 0%Q
     ∧ (∀ n, n ∈ sourcesRef st → NodeStop n ∈ audioDevice fresh)
     ∧ size (sourcesRef fresh) = 2%nat).
Proof.
  intros Hn fresh st'.
  pose proof (startRun_textView st newSessionId n0 n1 n2 n3 n4 Hn) as Hv.
  fold fresh in Hv.
  injection Hv as Htok Hstate Ht Hf Hi Ho Hit Hot Hu.
  split; [by repeat split|]. split.
  - intros Hc. unfold st'. rewrite <- Htok. by apply first_turn_alone.
  - intros Hq.
    assert (fresh = onopen newSessionId (startInterview newSessionId st))
      as Hfresh.
    { rewrite !Forall_app in Hn, Hq.
      destruct Hn as (H0 & H1 & H2 & H3 & H4).
      destruct Hq as (Q0 & Q1 & Q2 & Q3 & Q4).
      assert (∀ n s, currentSessionIdRef s = [] ∨
                     currentSessionIdRef s = newSessionId →
                Forall (earlier newSessionId) n →
                Forall (λ p : jsstring * Event, comparesToken p.2 = true) n →
                steps (callbacks n) s = s) as Hnoop.
      { intros n s Hs Ha Hb. apply callbacks_noop.
        apply Forall_forall. intros p Hp.
        rewrite Forall_forall in Ha, Hb.
        destruct (Ha p Hp) as [Ha1 Ha2]. split; [by apply Hb|].
        by destruct Hs as [-> | ->]. }
      unfold fresh, startRun. rewrite !steps_app.
      rewrite (Hnoop n0) by (done || by left).
      rewrite (Hnoop n1) by (done || by left).
      rewrite (Hnoop n2) by (done || by right).
      rewrite (Hnoop n3) by (done || by right).
      rewrite (Hnoop n4); [done| |done|done].
      right. unfold steps at 1. simpl. unfold onopen.
      by rewrite jsstring_eqb_refl. }
    split; [done|]. rewrite Hfresh. apply uninterrupted_start.
Qed.

(** What a decode continuation of an earlier session does to a start: with
    one in the cooldown and one after the reset of the cursor, the new
    session opens with the cursor at 7.5 and four active sources, two of
    them buffers of the earlier session that no teardown has stopped. *)
Lemma stale_decode_during_start :
  let fresh :=
    steps (startRun sessionB [] [(sessionA, Decoded (Some (1 # 2)) 3)]
             [(sessionA, Decoded (Some (1 # 2)) 7)] [] [])
      (activeStore sessionA) in
  (nextStartTimeRef fresh == 7.5)%Q
  ∧ size (sourcesRef fresh) = 4%nat
  ∧ bufferStarts (audioDevice fresh) = [(3, 1 # 2); (7, 1 # 2)]%Q
  ∧ Forall (λ c, match c with
                 | NodeStop n => (n < 3)%positive
                 | _ => True
                 end) (audioDevice fresh).
Proof. vm_compute. repeat split; repeat constructor; done. Qed.

Lemma new_session_starts_clean_witness :
  let fresh :=
    steps (startRun sessionB
             [(sessionA, Message (textMsg (js "late") (js "words")) 3)]
             [(sessionA, Decoded (Some (1 # 2)) 3)] []
             [(sessionA, Closed)] [])
      (activeStore sessionA) in
  transcripts fresh = []
  ∧ fullTranscriptRef
      (onmessage sessionB (closingMsg (js "Hi") (js "Hello")) 1 fresh).1
    = js "Candidate: Hi" ++ [LF] ++ js "Interviewer: Hello" ++ [LF].
Proof.
  cbv zeta.
  assert (Forall (earlier sessionB)
            ([(sessionA, Message (textMsg (js "late") (js "words")) 3)]
             ++ [(sessionA, Decoded (Some (1 # 2)) 3)] ++ []
             ++ [(sessionA, Closed)] ++ [])) as H.
  { repeat constructor; simpl; discriminate. }
  destruct (new_session_starts_clean (activeStore sessionA) sessionB
              [(sessionA, Message (textMsg (js "late") (js "words")) 3)]
              [(sessionA, Decoded (Some (1 # 2)) 3)] []
              [(sessionA, Closed)] [] (js "Hi") (js "Hello") 1 H)
    as ((_ & _ & Ht & _) & Hfirst & _).
  split; [exact Ht|].
  destruct (Hfirst eq_refl) as [_ ->]. reflexivity.
Defined.

(** ** The gesture service *)

Section Channel.
Import GestureService.
Variables (count last : Service → Z) (flag : Service → bool).
Variable (D : Z) (keeps : Frame → bool).
Hypothesis D_nonneg : 0 <= D.
Hypothesis channel_step : ∀ f s,
  (count (detect f s) = count s ∧ last (detect f s) = last s
   ∧ (keeps f = true → flag s = true → flag (detect f s) = true))
  ∨ (count (detect f s) = count s + 1
     ∧ (clockForward f → last s + D < last (detect f s))
     ∧ flag s = false ∧ flag (detect f s) = true).

Lemma channel_count frames s :
  count (detectAll frames s)
  = count s + Z.of_nat (length (stamps count last frames s)).
Proof.
  revert s. induction frames as [|f frames IH]; intros s; simpl; [lia|].
  fold (detectAll frames (detect f s)). rewrite IH, length_app.
  destruct (channel_step f s) as [(Hc & _)|(Hc & _)]; rewrite Hc.
  - rewrite Z.eqb_refl. simpl. lia.
  - destruct (Z.eqb_spec (count s + 1) (count s)); [lia|]. simpl. lia.
Qed.

Lemma channel_debounced frames s :
  Forall clockForward frames →
  Forall (λ t, last s + D < t) (stamps count last frames s)
  ∧ StronglySorted (λ a b, a + D < b) (stamps count last frames s).
Proof.
  intros H. revert s. induction H as [|f frames Hf _ IH]; intros s; simpl.
  { split; constructor. }
  destruct (IH (detect f s)) as [Hall Hsort].
  destruct (channel_step f s) as [(Hc & Hl & _)|(Hc & Hl & _)]; rewrite Hc.
  - rewrite Z.eqb_refl. simpl. by rewrite <- Hl.
  - destruct (Z.eqb_spec (count s + 1) (count s)); [lia|]. simpl.
    specialize (Hl Hf). split.
    + constructor; [done|]. eapply Forall_impl; [exact Hall|].
      simpl. intros; lia.
    + by constructor.
Qed.

Lemma channel_once frames s :
  Forall (λ f, keeps f = true) frames →
  count s <= count (detectAll frames s) <= count s + 1
  ∧ (flag s = true → count (detectAll frames s) = count s).
Proof.
  intros H. revert s. induction H as [|f frames Hf _ IH]; intros s; simpl.
  { split; [lia|done]. }
  fold (detectAll frames (detect f s)).
  destruct (IH (detect f s)) as [Hle Heq].
  destruct (channel_step f s) as [(Hc & _ & Hk)|(Hc & _ & Hs & Hs')].
  - rewrite Hc in *. split; [done|]. intros Hfl. apply Heq. by apply Hk.
  - rewrite Hc in *. rewrite (Heq Hs'). split; [lia|]. congruence.
Qed.

End Channel.

Section GestureFacts.
Import GestureService.

Lemma eyeTouchLogic_smile f s :
  smiles (eyeTouchLogic f s) = smiles s
  ∧ lastSmileTime (eyeTouchLogic f s) = lastSmileTime s
  ∧ isCurrentlySmiling (eyeTouchLogic f s) = isCurrentlySmiling s.
Proof. unfold eyeTouchLogic. repeat case_match; done. Qed.

Lemma handGestureLogic_smile f s :
  smiles (handGestureLogic f s) = smiles s
  ∧ lastSmileTime (handGestureLogic f s) = lastSmileTime s
  ∧ isCurrentlySmiling (handGestureLogic f s) = isCurrentlySmiling s.
Proof. unfold handGestureLogic. repeat case_match; done. Qed.

Lemma handGestureLogic_eyeTouch f s :
  eyeTouches (handGestureLogic f s) = eyeTouches s
  ∧ lastEyeTouchTime (handGestureLogic f s) = lastEyeTouchTime s
  ∧ isCurrentlyTouchingEye (handGestureLogic f s) = isCurrentlyTouchingEye s.
Proof. unfold handGestureLogic. repeat case_match; done. Qed.

Lemma smileLogic_eyeTouch f b s :
  eyeTouches (smileLogic f b s) = eyeTouches s
  ∧ lastEyeTouchTime (smileLogic f b s) = lastEyeTouchTime s
  ∧ isCurrentlyTouchingEye (smileLogic f b s) = isCurrentlyTouchingEye s.
Proof. unfold smileLogic. repeat case_match; done. Qed.

Lemma smileLogic_gesture f b s :
  handGestures (smileLogic f b s) = handGestures s
  ∧ lastGestureTime (smileLogic f b s) = lastGestureTime s
  ∧ isCurrentlyGesturing (smileLogic f b s) = isCurrentlyGesturing s.
Proof. unfold smileLogic. repeat case_match; done. Qed.

Lemma eyeTouchLogic_gesture f s :
  handGestures (eyeTouchLogic f s) = handGestures s
  ∧ lastGestureTime (eyeTouchLogic f s) = lastGestureTime s
  ∧ isCurrentlyGesturing (eyeTouchLogic f s) = isCurrentlyGesturing s.
Proof. unfold eyeTouchLogic. repeat case_match; done. Qed.

Lemma smile_step f s :
  (smiles (detect f s) = smiles s
   ∧ lastSmileTime (detect f s) = lastSmileTime s
   ∧ (keepsSmile f = true → isCurrentlySmiling s = true →
      isCurrentlySmiling (detect f s) = true))
  ∨ (smiles (detect f s) = smiles s + 1
     ∧ (clockForward f →
        lastSmileTime s + DEBOUNCE_MS < lastSmileTime (detect f s))
     ∧ isCurrentlySmiling s = false
     ∧ isCurrentlySmiling (detect f s) = true).
Proof.
  unfold detect. destruct (negb (isReady s)); [left; by auto|].
  destruct (Qle_bool _ _); [left; by auto|].
  cbv zeta. unfold keepsSmile. destruct (face f) as [smiling|].
  - destruct (handGestureLogic_smile f (eyeTouchLogic f
       (smileLogic f smiling (set_lastVideoTime (perfNow f) s))))
      as (-> & -> & ->).
    destruct (eyeTouchLogic_smile f
       (smileLogic f smiling (set_lastVideoTime (perfNow f) s)))
      as (-> & -> & ->).
    unfold smileLogic. destruct smiling.
    + change (isCurrentlySmiling (set_lastVideoTime (perfNow f) s))
        with (isCurrentlySmiling s).
      change (lastSmileTime (set_lastVideoTime (perfNow f) s))
        with (lastSmileTime s).
      destruct (isCurrentlySmiling s) eqn:E; simpl.
      * left. by auto.
      * destruct (_ >? _) eqn:E2.
        -- right. simpl. apply Z.gtb_lt in E2.
           repeat split; try done. intros (Hfw & _). lia.
        -- left. simpl. repeat split; try done.
    + left. simpl. repeat split; try done.
  - destruct (handGestureLogic_smile f (set_lastVideoTime (perfNow f) s))
      as (-> & -> & ->).
    left. by auto.
Qed.

Lemma eyeTouch_step f s :
  (eyeTouches (detect f s) = eyeTouches s
   ∧ lastEyeTouchTime (detect f s) = lastEyeTouchTime s
   ∧ (keepsEyeTouch f = true → isCurrentlyTouchingEye s = true →
      isCurrentlyTouchingEye (detect f s) = true))
  ∨ (eyeTouches (detect f s) = eyeTouches s + 1
     ∧ (clockForward f →
        lastEyeTouchTime s + DEBOUNCE_MS < lastEyeTouchTime (detect f s))
     ∧ isCurrentlyTouchingEye s = false
     ∧ isCurrentlyTouchingEye (detect f s) = true).
Proof.
  unfold detect. destruct (negb (isReady s)); [left; by auto|].
  destruct (Qle_bool _ _); [left; by auto|].
  cbv zeta. unfold keepsEyeTouch. destruct (face f) as [smiling|].
  - destruct (handGestureLogic_eyeTouch f (eyeTouchLogic f
       (smileLogic f smiling (set_lastVideoTime (perfNow f) s))))
      as (-> & -> & ->).
    pose proof (smileLogic_eyeTouch f smiling
                  (set_lastVideoTime (perfNow f) s)) as (Hc & Hl & Hf).
    simpl in Hc, Hl, Hf.
    remember (smileLogic f smiling (set_lastVideoTime (perfNow f) s)) as s1.
    unfold eyeTouchLogic. destruct (hands f) as [|h hs] eqn:Hh.
    { left. rewrite Hc, Hl, Hf. by auto. }
    destruct (existsb id (h :: hs)).
    + destruct (isCurrentlyTouchingEye s1) eqn:E; simpl.
      * left. rewrite E, Hc, Hl. by auto.
      * destruct (_ >? _) eqn:E2.
        -- right. simpl. apply Z.gtb_lt in E2. rewrite Hc, <- Hf.
           repeat split; try done. intros (_ & Hfw & _). lia.
        -- left. simpl. rewrite Hc, Hl. repeat split; try done.
           intros _ ?; congruence.
    + left. simpl. rewrite Hc, Hl. repeat split; try done.
  - destruct (handGestureLogic_eyeTouch f (set_lastVideoTime (perfNow f) s))
      as (-> & -> & ->).
    left. by auto.
Qed.

Lemma gesture_step f s :
  (handGestures (detect f s) = handGestures s
   ∧ lastGestureTime (detect f s) = lastGestureTime s
   ∧ (keepsGesture f = true → isCurrentlyGesturing s = true →
      isCurrentlyGesturing (detect f s) = true))
  ∨ (handGestures (detect f s) = handGestures s + 1
     ∧ (clockForward f →
        lastGestureTime s + 3000 < lastGestureTime (detect f s))
     ∧ isCurrentlyGesturing s = false
     ∧ isCurrentlyGesturing (detect f s) = true).
Proof.
  unfold detect. destruct (negb (isReady s)); [left; by auto|].
  destruct (Qle_bool _ _); [left; by auto|].
  cbv zeta. unfold keepsGesture.
  assert (∃ s1, (match face f with
                 | Some smiling => eyeTouchLogic f
                     (smileLogic f smiling (set_lastVideoTime (perfNow f) s))
                 | None => set_lastVideoTime (perfNow f) s
                 end) = s1
                ∧ handGestures s1 = handGestures s
                ∧ lastGestureTime s1 = lastGestureTime s
                ∧ isCurrentlyGesturing s1 = isCurrentlyGesturing s)
    as (s1 & -> & Hc & Hl & Hf).
  { eexists; split; [reflexivity|]. destruct (face f) as [smiling|]; [|done].
    destruct (eyeTouchLogic_gesture f
      (smileLogic f smiling (set_lastVideoTime (perfNow f) s)))
      as (-> & -> & ->).
    apply (smileLogic_gesture f smiling (set_lastVideoTime (perfNow f) s)). }
  unfold handGestureLogic. destruct (hands f) as [|h hs].
  { left. simpl. rewrite Hc, Hl. repeat split; try done. }
  destruct (isCurrentlyGesturing s1) eqn:E; simpl.
  - left. rewrite E, Hc, Hl. by auto.
  - destruct (_ >? _) eqn:E2.
    + right. simpl. apply Z.gtb_lt in E2. rewrite Hc, <- Hf.
      repeat split; try done. intros (_ & _ & Hfw). lia.
    + left. simpl. rewrite Hc, Hl. repeat split; try done.
      intros _ ?; congruence.
Qed.

End GestureFacts.

(** X10. Debouncing of the gesture counts ([detect]). Over any frames in
    which the wall clock does not go backwards between the two readings of
    a block, each count goes up by the number of time stamps the service
    has stored for it, and the stored stamps of any two counted smiles are
    more than 1500 ms apart, as are those of any two counted eye touches;
    those of any two counted hand gestures are more than 3000 ms apart.
    The first stamp is as far from the stamp the service started with. *)
Theorem counted_gestures_are_debounced frames s :
  Forall GestureService.clockForward frames →
  let debounced (count last : GestureService.Service → Z) (D : Z) :=
    let counted := GestureService.stamps count last frames s in
    count (GestureService.detectAll frames s)
      = count s + Z.of_nat (length counted)
    ∧ Forall (λ t, last s + D < t) counted
    ∧ StronglySorted (λ a b, a + D < b) counted in
  debounced GestureService.smiles GestureService.lastSmileTime 1500
  ∧ debounced GestureService.eyeTouches GestureService.lastEyeTouchTime 1500
  ∧ debounced GestureService.handGestures GestureService.lastGestureTime
      3000.
Proof.
  intros Hfw. cbv zeta. repeat split.
  - eapply channel_count, smile_step.
  - by eapply channel_debounced;
      [| apply smile_step |].
  - by eapply channel_debounced; [| apply smile_step |].
  - eapply channel_count, eyeTouch_step.
  - by eapply channel_debounced; [| apply eyeTouch_step |].
  - by eapply channel_debounced; [| apply eyeTouch_step |].
  - eapply channel_count, gesture_step.
  - by eapply channel_debounced; [| apply gesture_step |].
  - by eapply channel_debounced; [| apply gesture_step |].
Qed.

Lemma counted_gestures_are_debounced_witness :
  Forall GestureService.clockForward fourFrames
  ∧ GestureService.getMetrics
      (GestureService.detectAll fourFrames
         (GestureService.initialized GestureService.created))
    = {| smileCount := 2; eyeTouchCount := 2; handGestureCount := 1 |}
  ∧ StronglySorted (λ a b, a + 1500 < b)
      (GestureService.stamps GestureService.smiles
         GestureService.lastSmileTime fourFrames
         (GestureService.initialized GestureService.created)).
Proof.
  assert (Forall GestureService.clockForward fourFrames) as H.
  { repeat constructor; simpl; lia. }
  split; [exact H|]. split; [reflexivity|].
  apply (counted_gestures_are_debounced fourFrames
           (GestureService.initialized GestureService.created) H).
Defined.

(** X11. A gesture that goes on is counted once ([detect]). Over frames
    none of which shows a face that is not smiling, the smile count goes up
    by at most one, and not at all if the service already holds a smile;
    the same for eye touches over frames none of which shows a face and
    hands with no hand at an eye, and for hand gestures over frames that
    all show a hand. A frame without a face does not end a smile or an eye
    touch. *)
Theorem sustained_gesture_counts_once frames s :
  let once (count : GestureService.Service → Z)
           (flag : GestureService.Service → bool)
           (keeps : GestureService.Frame → bool) :=
    Forall (λ f, keeps f = true) frames →
    count s <= count (GestureService.detectAll frames s) <= count s + 1
    ∧ (flag s = true → count (GestureService.detectAll frames s) = count s)
  in
  once GestureService.smiles GestureService.isCurrentlySmiling
       GestureService.keepsSmile
  ∧ once GestureService.eyeTouches GestureService.isCurrentlyTouchingEye
         GestureService.keepsEyeTouch
  ∧ once GestureService.handGestures GestureService.isCurrentlyGesturing
         GestureService.keepsGesture.
Proof.
  cbv zeta. split; [|split]; intros H.
  - exact (channel_once _ GestureService.lastSmileTime _ 1500 _
             smile_step _ s H).
  - exact (channel_once _ GestureService.lastEyeTouchTime _ 1500 _
             eyeTouch_step _ s H).
  - exact (channel_once _ GestureService.lastGestureTime _ 3000 _
             gesture_step _ s H).
Qed.

Lemma sustained_gesture_counts_once_witness :
  let frames := [frameAt 0 true true; frameAt 400 true true] in
  let s := GestureService.initialized GestureService.created in
  Forall (λ f, GestureService.keepsSmile f = true) frames
  ∧ GestureService.smiles s
    <= GestureService.smiles (GestureService.detectAll frames s)
    <= GestureService.smiles s + 1.
Proof.
  cbv zeta.
  assert (Forall (λ f, GestureService.keepsSmile f = true)
            [frameAt 0 true true; frameAt 400 true true]) as H.
  { by repeat constructor. }
  split; [exact H|].
  exact (proj1 (proj1 (sustained_gesture_counts_once
           [frameAt 0 true true; frameAt 400 true true]
           (GestureService.initialized GestureService.created)) H)).
Defined.

(** ** The resume text *)

Lemma singleSpaced_cons c l :
  singleSpaced (c :: l)
  ↔ (c = SPACE → head l ≠ Some SPACE) ∧ singleSpaced l.
Proof.
  unfold singleSpaced. split.
  - intros H. split.
    + intros -> Hh. apply (H 0%nat); [done|]. by destruct l.
    + intros i Hi. by apply (H (S i)).
  - intros [Hh Hl] [|i]; simpl.
    + intros [= ->] Hl0. apply Hh; [done|]. by destruct l.
    + apply Hl.
Qed.

Lemma singleSpaced_nil : singleSpaced [].
Proof. by intros i. Qed.

Lemma singleSpaced_app l1 l2 :
  singleSpaced (l1 ++ l2) → singleSpaced l1 ∧ singleSpaced l2.
Proof.
  induction l1 as [|c l1 IH]; simpl.
  { split; [apply singleSpaced_nil|done]. }
  rewrite !singleSpaced_cons. intros [Hh Hl]. destruct (IH Hl) as [H1 H2].
  repeat split; try done. intros Hc. specialize (Hh Hc).
  by destruct l1.
Qed.

Lemma take_drop_while {A} (p : A → bool) l :
  take_while p l ++ drop_while p l = l.
Proof.
  induction l as [|x l IH]; simpl; [done|].
  destruct (p x); simpl; by rewrite ?IH.
Qed.

Lemma drop_while_head {A} (p : A → bool) l x :
  head (drop_while p l) = Some x → p x = false.
Proof.
  induction l as [|y l IH]; simpl; [done|].
  destruct (p y) eqn:E; simpl; [done|]. by intros [= <-].
Qed.

Lemma drop_while_id {A} (p : A → bool) l :
  (∀ x, head l = Some x → p x = false) → drop_while p l = l.
Proof. destruct l as [|x l]; simpl; [done|]. intros H. by rewrite H. Qed.

(** [trimEnd] cuts a run of white space off the end and stops at a code
    unit that is not white space. *)
Lemma trimEnd_spec s :
  ∃ k, s = trimEnd s ++ k ∧ Forall (λ c, isWhiteSpace c = true) k
       ∧ ∀ c, last (trimEnd s) = Some c → isWhiteSpace c = false.
Proof.
  induction s as [|c t (k & Ht & Hk & Hlast)]; simpl.
  { exists []. by repeat split. }
  destruct (trimEnd t) as [|d t'] eqn:E.
  - destruct (isWhiteSpace c) eqn:Ec.
    + exists (c :: k). simpl in Ht. subst t. repeat split; try done.
      by constructor.
    + exists k. simpl in Ht. subst t. repeat split; try done.
      simpl. by intros ? [= <-].
  - exists k. rewrite Ht. split; [done|]. split; [done|].
    intros x. rewrite last_cons. destruct (last (d :: t')) eqn:El.
    + intros [= <-]. by apply Hlast.
    + by apply last_None in El.
Qed.

Lemma trimEnd_id s :
  (∀ c, last s = Some c → isWhiteSpace c = false) → trimEnd s = s.
Proof.
  induction s as [|c t IH]; simpl; [done|].
  intros H. destruct t as [|d t].
  - simpl. by rewrite (H c).
  - rewrite IH.
    + done.
    + intros x Hx. apply H. by rewrite last_cons, Hx.
Qed.

Lemma trimEnd_prefix s : trimEnd s `prefix_of` s.
Proof. destruct (trimEnd_spec s) as (k & H & _). by exists k. Qed.

Lemma prefix_head {A} (p l : list A) x :
  p `prefix_of` l → head p = Some x → head l = Some x.
Proof. intros [k ->]. by destruct p. Qed.

Lemma collapse_from_spec inRun s :
  let r := collapse_from inRun s in
  (inRun = true → head r ≠ Some SPACE)
  ∧ singleSpaced r
  ∧ (Forall (λ c, inCleanClass c = true) s → Forall plain r).
Proof.
  revert inRun. induction s as [|c t IH]; intros inRun; simpl.
  { split; [done|]. split; [apply singleSpaced_nil|done]. }
  destruct (isWhiteSpace c) eqn:Ec.
  - destruct inRun.
    + destruct (IH true) as (Hh & Hs & Hp). repeat split; try done.
      intros Hall. apply Hp. by inversion Hall.
    + destruct (IH true) as (Hh & Hs & Hp). repeat split; try done.
      * apply singleSpaced_cons. split; [|done]. intros _. by apply Hh.
      * intros Hall. constructor; [done|]. apply Hp. by inversion Hall.
  - destruct (IH false) as (Hh & Hs & Hp). repeat split.
    + intros _ [= ->]. done.
    + apply singleSpaced_cons. split; [|done]. intros ->. done.
    + intros Hall. inversion Hall; subst. constructor; [|by apply Hp].
      split; [done|]. congruence.
Qed.

Lemma replaceOutsideClass_class s :
  Forall (λ c, inCleanClass c = true) (replaceOutsideClass s).
Proof.
  unfold replaceOutsideClass. apply Forall_fmap, Forall_forall.
  intros c _. simpl. by destruct (inCleanClass c) eqn:E.
Qed.

Lemma plain_not_brace c : plain c → c ≠ LBRACE ∧ c ≠ RBRACE.
Proof. intros [H _]. split; intros ->; done. Qed.

Lemma removeBraces_id s :
  Forall (λ c, c ≠ LBRACE ∧ c ≠ RBRACE) s → removeBraces s = s.
Proof.
  unfold removeBraces. induction 1 as [|c s [H1 H2] _ IH]; [done|].
  apply N.eqb_neq in H1, H2. simpl. by rewrite H1, H2, IH.
Qed.

Lemma removeBraces_spec s :
  Forall (λ c, c ≠ LBRACE ∧ c ≠ RBRACE) (removeBraces s)
  ∧ (length (removeBraces s) <= length s)%nat.
Proof.
  unfold removeBraces. split.
  - apply Forall_forall. intros c Hc%list_elem_of_In.
    apply List.filter_In in Hc as [_ Hc].
    apply negb_true_iff, orb_false_iff in Hc as [H1 H2].
    by apply N.eqb_neq in H1, H2.
  - apply List.filter_length_le.
Qed.

(** What [cleaned] gives. *)
Lemma cleaned_spec pages :
  Forall plain (cleaned pages) ∧ singleSpaced (cleaned pages)
  ∧ head (cleaned pages) ≠ Some SPACE
  ∧ last (cleaned pages) ≠ Some SPACE.
Proof.
  unfold cleaned, trim, collapseWhiteSpace.
  set (a := replaceOutsideClass (fullText pages)).
  destruct (collapse_from_spec false a) as (_ & Hs & Hp).
  specialize (Hp (replaceOutsideClass_class _)). simpl in Hs, Hp.
  set (b := collapse_from false a) in *.
  pose proof (take_drop_while isWhiteSpace b) as Hb.
  destruct (trimEnd_spec (drop_while isWhiteSpace b)) as (k & Hk & _ & Hl).
  set (d := drop_while isWhiteSpace b) in *.
  rewrite Hk in Hb. rewrite <- Hb in Hs, Hp.
  apply singleSpaced_app in Hs as [_ Hs].
  apply singleSpaced_app in Hs as [Hs _].
  apply Forall_app in Hp as [_ Hp]. apply Forall_app in Hp as [Hp _].
  repeat split; try done.
  - intros Hh. apply (prefix_head _ d) in Hh; [|apply trimEnd_prefix].
    by apply drop_while_head in Hh.
  - intros Hh. by apply Hl in Hh.
Qed.

Lemma extracted_spec pages :
  let text := take 4000 (cleaned pages) in
  Forall plain text ∧ singleSpaced text ∧ head text ≠ Some SPACE
  ∧ (length text <= 4000)%nat.
Proof.
  destruct (cleaned_spec pages) as (Hp & Hs & Hh & _). cbv zeta.
  rewrite <- (take_drop 4000 (cleaned pages)) in Hp, Hs.
  apply Forall_app in Hp as [Hp _]. apply singleSpaced_app in Hs as [Hs _].
  repeat split; try done.
  - intros Hx. apply Hh. eapply prefix_head; [|exact Hx].
    apply prefix_take.
  - rewrite length_take. lia.
Qed.

(** X12. The text taken from a PDF ([extractTextFromPDF]). When the
    extraction returns, its text is made of ASCII letters and digits, the
    marks . , ? ! @ ( ) and the hyphen, and spaces, the space being the
    only white space left (no line break, no tab); it has no two spaces in
    a row, does not start with a space and has at most 4000 code units. It
    throws only when the library is not loaded or the document cannot be
    read. *)
Theorem extracted_text_is_clean pdfjsLib document :
  match extractTextFromPDF pdfjsLib document with
  | Return text =>
      Forall plain text ∧ singleSpaced text ∧ head text ≠ Some SPACE
      ∧ (length text <= 4000)%nat
  | Throw _ => pdfjsLib = false ∨ document = None
  end.
Proof.
  unfold extractTextFromPDF. destruct pdfjsLib; simpl; [|by left].
  destruct document as [pages|]; [|by right]. apply extracted_spec.
Qed.

Lemma truthy_length s : truthy s = true ↔ (0 < length s)%nat.
Proof. destruct s; simpl; split; (done || lia). Qed.

Lemma cleanResumeText_spec s :
  Forall (λ c, c ≠ LBRACE ∧ c ≠ RBRACE) (cleanResumeText s)
  ∧ (length (cleanResumeText s) <= 4000)%nat.
Proof.
  unfold cleanResumeText. destruct (truthy s).
  - destruct (removeBraces_spec (take 4000 (trim s))) as [H1 H2].
    split; [done|]. rewrite length_take in H2. lia.
  - split; [constructor|simpl; lia].
Qed.

(** X13. The resume is cleaned once ([startInterview], constants.ts). For
    every resume text handed to [startInterview], the text kept in the
    configuration has no brace and at most 4000 code units, and the slice
    and the brace removal that the prompt template applies again leave it
    as it is: the snapshot in the prompt is the kept text, and the resume
    section is left out exactly when the kept text is empty. *)
Theorem resume_is_cleaned_once resumeText :
  let kept := cleanResumeText resumeText in
  Forall (λ c, c ≠ LBRACE ∧ c ≠ RBRACE) kept
  ∧ (length kept <= 4000)%nat
  ∧ resumeSnapshot kept = (if truthy kept then Some kept else None).
Proof.
  cbv zeta. destruct (cleanResumeText_spec resumeText) as [Hb Hl].
  repeat split; try done. unfold resumeSnapshot.
  destruct (truthy _); [|done].
  by rewrite take_ge, removeBraces_id.
Qed.

Lemma plain_ws c : plain c → isWhiteSpace c = true → c = SPACE.
Proof. by intros [_ H]. Qed.

(** A clean text ends in at most one space. *)
Lemma clean_trimEnd text :
  Forall plain text → singleSpaced text →
  text = trimEnd text ∨ text = trimEnd text ++ [SPACE].
Proof.
  intros Hp Hs. destruct (trimEnd_spec text) as (k & Ht & Hk & _).
  rewrite Ht in Hp, Hs. apply Forall_app in Hp as [_ Hp].
  apply singleSpaced_app in Hs as [_ Hs].
  destruct k as [|c [|d k]].
  - left. by rewrite app_nil_r in Ht.
  - right. rewrite Ht at 1. f_equal. f_equal.
    apply plain_ws; [by inversion Hp|by inversion Hk].
  - exfalso. inversion Hp as [|? ? Hc Hp']; inversion Hk as [|? ? Hc' Hk'].
    inversion Hp' as [|? ? Hd _]; inversion Hk' as [|? ? Hd' _]. subst.
    apply (plain_ws _ Hc) in Hc'. apply (plain_ws _ Hd) in Hd'. subst.
    by apply (Hs 0%nat).
Qed.

Lemma formStep_resume form ev :
  let P text :=
    text = [] ∨ ∃ pages, text = take 4000 (cleaned pages)
                         ∧ (50 <= length text)%nat in
  P (SetupForm.resumeText (SetupForm.config form)) →
  P (SetupForm.resumeText (SetupForm.config (SetupForm.formStep form ev))).
Proof.
  cbv zeta. intros H. destruct ev; simpl; try done.
  - unfold SetupForm.handleFileChange_begin. destruct file as [file|]; [|done].
    by destruct (negb _).
  - unfold SetupForm.handleFileChange_settle, extractTextFromPDF.
    destruct pdfjsLib; simpl; [|done].
    destruct document as [pages|]; [|done].
    destruct (Z.ltb_spec (Z.of_nat (length (take 4000 (cleaned pages)))) 50);
      simpl; [done|].
    right. exists pages. split; [done|]. lia.
  - by left.
Qed.

(** X14. From the form to the prompt (SetupForm.tsx, [startInterview],
    constants.ts). From a form without a resume, as it is created and as
    the load on mount leaves it, through any uses of the controls, choices
    of files, settling extractions and removals, the resume text of the
    form is empty or a clean text of 50 to 4000 code units. The text that
    [startInterview] keeps of it is this text without the one space it may
    end in, and this is the snapshot put into the prompt. *)
Theorem form_resume_reaches_prompt form events :
  SetupForm.resumeText (SetupForm.config form) = [] →
  let text :=
    SetupForm.resumeText
      (SetupForm.config (SetupForm.formAfter form events)) in
  let kept := cleanResumeText text in
  (text = [] ∨ (50 <= length text <= 4000)%nat)
  ∧ Forall plain text ∧ singleSpaced text
  ∧ (text = kept ∨ text = kept ++ [SPACE])
  ∧ resumeSnapshot kept = (if truthy kept then Some kept else None).
Proof.
  intros Hform. cbv zeta. unfold SetupForm.formAfter.
  assert (∀ form0,
    (let text := SetupForm.resumeText (SetupForm.config form0) in
     text = [] ∨ ∃ pages, text = take 4000 (cleaned pages)
                          ∧ (50 <= length text)%nat) →
    let text := SetupForm.resumeText
                  (SetupForm.config (foldl SetupForm.formStep form0 events)) in
    text = [] ∨ ∃ pages, text = take 4000 (cleaned pages)
                         ∧ (50 <= length text)%nat) as Hinv.
  { induction events as [|ev events IH]; intros form0 H; simpl; [done|].
    apply IH. by apply formStep_resume. }
  specialize (Hinv form (or_introl Hform)).
  cbv zeta in Hinv.
  clear Hform.
  set (text := SetupForm.resumeText _) in *.
  destruct Hinv as [->|(pages & Ht & Hlen)].
  { split; [by left|]. split; [done|]. split; [apply singleSpaced_nil|].
    split; [by left|done]. }
  destruct (extracted_spec pages) as (Hp & Hs & Hh & Hl).
  cbv zeta in Hp, Hs, Hh, Hl. rewrite <- Ht in Hp, Hs, Hh, Hl.
  assert (cleanResumeText text = trimEnd text) as Hk.
  { unfold cleanResumeText, trim.
    assert (truthy text = true) as -> by (apply truthy_length; lia).
    rewrite drop_while_id.
    - pose proof (trimEnd_prefix text) as [k Hpre].
      assert (length (trimEnd text) <= length text)%nat.
      { rewrite Hpre at 2. rewrite length_app. lia. }
      rewrite take_ge by lia. apply removeBraces_id.
      rewrite Hpre in Hp. apply Forall_app in Hp as [Hp _].
      eapply Forall_impl; [exact Hp|]. apply plain_not_brace.
    - intros c Hc. destruct (isWhiteSpace c) eqn:E; [|done].
      exfalso. apply Hh. rewrite Hc. f_equal. apply plain_ws; [|done].
      destruct text; [done|]. simpl in Hc. injection Hc as ->.
      by inversion Hp. }
  split; [right; lia|]. split; [done|]. split; [done|].
  split; [rewrite Hk; by apply clean_trimEnd|].
  unfold resumeSnapshot. destruct (truthy _); [|done].
  destruct (cleanResumeText_spec text) as [Hb Hl'].
  by rewrite take_ge, removeBraces_id.
Qed.

Lemma form_resume_reaches_prompt_witness :
  let text :=
    SetupForm.resumeText
      (SetupForm.config
         (SetupForm.formAfter SetupForm.initialForm
            [SetupForm.FileChosen (Some resumeFile);
             SetupForm.EditContext (js "System design");
             SetupForm.Extracted resumeFile true (Some resumePages)])) in
  (50 <= length text)%nat ∧ text = cleanResumeText text ++ [SPACE].
Proof.
  cbv zeta. split; [apply Nat.leb_le; by vm_compute|].
  destruct (form_resume_reaches_prompt SetupForm.initialForm
              [SetupForm.FileChosen (Some resumeFile);
               SetupForm.EditContext (js "System design");
               SetupForm.Extracted resumeFile true (Some resumePages)]
              eq_refl) as (_ & _ & _ & [H|H] & _).
  - exfalso. revert H. vm_compute. discriminate.
  - exact H.
Defined.

(** ** The saved settings *)

Section Persistence.
Import SetupForm.
Local Open Scope N_scope.

Lemma hexVal_hexDigit n : n < 16 → hexVal (hexDigit n) = Some n.
Proof.
  intros Hn. unfold hexVal, hexDigit, isDigit.
  destruct (N.ltb_spec n 10).
  - assert ((48 <=? 48 + n) = true) as -> by (apply N.leb_le; lia).
    assert ((48 + n <=? 57) = true) as -> by (apply N.leb_le; lia).
    simpl. f_equal. lia.
  - assert ((87 + n <=? 57) = false) as -> by (apply N.leb_gt; lia).
    assert ((87 + n <=? 70) = false) as -> by (apply N.leb_gt; lia).
    assert ((97 <=? 87 + n) = true) as -> by (apply N.leb_le; lia).
    assert ((87 + n <=? 102) = true) as -> by (apply N.leb_le; lia).
    rewrite !andb_false_r. simpl. f_equal. lia.
Qed.

Lemma parseChars_unicodeEscape c rest acc :
  c < 65536 →
  parseChars (unicodeEscape c ++ rest) acc = parseChars rest (c :: acc).
Proof.
  intros Hc. unfold unicodeEscape. cbn [app parseChars].
  change (92 =? 34) with false. change (92 =? 92) with true.
  change (117 =? 117) with true. cbv iota.
  rewrite !hexVal_hexDigit.
  - do 2 f_equal. zify. Z.to_euclidean_division_equations. lia.
  - apply N.mod_upper_bound. lia.
  - apply N.mod_upper_bound. lia.
  - apply N.mod_upper_bound. lia.
  - apply N.Div0.div_lt_upper_bound. lia.
Qed.

Lemma parseChars_plain c rest acc :
  c ≠ 34 → c ≠ 92 → 32 ≤ c →
  parseChars (c :: rest) acc = parseChars rest (c :: acc).
Proof.
  intros H1%N.eqb_neq H2%N.eqb_neq H3%N.ltb_ge. simpl.
  by rewrite H1, H2, H3.
Qed.

Lemma parseChars_quoteUnit c rest acc :
  parseChars (quoteUnit c ++ rest) acc = parseChars rest (c :: acc).
Proof.
  unfold quoteUnit.
  destruct (N.eqb_spec c 8) as [->|?]; [done|].
  destruct (N.eqb_spec c 9) as [->|?]; [done|].
  destruct (N.eqb_spec c 10) as [->|?]; [done|].
  destruct (N.eqb_spec c 12) as [->|?]; [done|].
  destruct (N.eqb_spec c 13) as [->|?]; [done|].
  destruct (N.eqb_spec c 34) as [->|?]; [done|].
  destruct (N.eqb_spec c 92) as [->|?]; [done|].
  destruct (N.ltb_spec c 32).
  - apply parseChars_unicodeEscape. lia.
  - by apply parseChars_plain.
Qed.

Lemma quoteChars_cons c t :
  quoteChars (c :: t)
  = if isLeadingSurrogate c then
      match t with
      | d :: t' =>
          if isTrailingSurrogate d then c :: d :: quoteChars t'
          else unicodeEscape c ++ quoteChars t
      | [] => unicodeEscape c
      end
    else if isTrailingSurrogate c then unicodeEscape c ++ quoteChars t
    else quoteUnit c ++ quoteChars t.
Proof. done. Qed.

Lemma parseChars_quoteChars n :
  ∀ s rest acc, (length s ≤ n)%nat →
  parseChars (quoteChars s ++ 34 :: rest) acc = Some (rev acc ++ s, rest).
Proof.
  induction n as [|n IH]; intros s rest acc Hn.
  { destruct s; [|simpl in Hn; lia]. simpl. by rewrite app_nil_r. }
  destruct s as [|c t]; [simpl; by rewrite app_nil_r|].
  assert (∀ acc', acc' = c :: acc →
            parseChars (quoteChars t ++ 34 :: rest) acc'
            = Some (rev acc ++ c :: t, rest)) as Htail.
  { intros acc' ->. rewrite IH by (simpl in Hn; lia). simpl.
    by rewrite <- app_assoc. }
  rewrite quoteChars_cons.
  destruct (isLeadingSurrogate c) eqn:Elead.
  - apply andb_true_iff in Elead as [L1%N.leb_le L2%N.leb_le].
    destruct t as [|d t'].
    + by rewrite parseChars_unicodeEscape by lia.
    + destruct (isTrailingSurrogate d) eqn:Etrail.
      * apply andb_true_iff in Etrail as [T1%N.leb_le T2%N.leb_le].
        cbn [app]. rewrite !parseChars_plain by lia.
        rewrite IH by (simpl in Hn; lia). simpl.
        by rewrite <- !app_assoc.
      * rewrite <- app_assoc, parseChars_unicodeEscape by lia.
        by apply Htail.
  - destruct (isTrailingSurrogate c) eqn:Etrail.
    + apply andb_true_iff in Etrail as [T1%N.leb_le T2%N.leb_le].
      rewrite <- app_assoc, parseChars_unicodeEscape by lia.
      by apply Htail.
    + rewrite <- app_assoc, parseChars_quoteUnit. by apply Htail.
Qed.

Lemma parseChars_quote s rest :
  parseChars (quoteChars s ++ 34 :: rest) [] = Some (s, rest).
Proof. by apply (parseChars_quoteChars (length s)). Qed.


Lemma parseMembers_quoted f t acc :
  parseMembers (S f) (34 :: t) acc
  = match parseChars t [] with
    | Some (key, r) =>
        match skipWs r with
        | c2 :: t2 =>
            if c2 =? 58 then
              match parseValue f t2 with
              | POk v r2 =>
                  match skipWs r2 with
                  | c3 :: t3 =>
                      if c3 =? 44
                      then parseMembers f t3 ((key, v) :: acc)
                      else if c3 =? 125
                      then POk (rev ((key, v) :: acc)) t3
                      else PErr
                  | [] => PErr
                  end
              | PErr => PErr
              | PFuel => PFuel
              end
            else PErr
        | [] => PErr
        end
    | None => PErr
    end.
Proof. reflexivity. Qed.

(** One member, followed by a comma or by the closing brace. *)
Lemma parseMembers_member f k txt v c3 X acc :
  parseValue f (txt ++ c3 :: X) = POk v (c3 :: X) →
  c3 = 44 ∨ c3 = 125 →
  parseMembers (S f) (QuoteJSONString k ++ 58 :: txt ++ c3 :: X) acc
  = if c3 =? 44 then parseMembers f X ((k, v) :: acc)
    else POk (rev ((k, v) :: acc)) X.
Proof.
  intros Hv Hc. unfold QuoteJSONString.
  change ((34 :: quoteChars k ++ [34]) ++ 58 :: txt ++ c3 :: X)
    with (34 :: ((quoteChars k ++ [34]) ++ 58 :: txt ++ c3 :: X)).
  rewrite <- app_assoc. rewrite parseMembers_quoted.
  change ([34] ++ 58 :: txt ++ c3 :: X) with (34 :: 58 :: txt ++ c3 :: X).
  rewrite parseChars_quote.
  change (skipWs (58 :: txt ++ c3 :: X)) with (58 :: txt ++ c3 :: X).
  change (58 =? 58) with true. cbv iota. rewrite Hv.
  by destruct Hc as [-> | ->].
Qed.

Lemma parseValue_string f s rest :
  parseValue (S f) (QuoteJSONString s ++ rest) = POk (JString s) rest.
Proof.
  unfold QuoteJSONString.
  change ((34 :: quoteChars s ++ [34]) ++ rest)
    with (34 :: ((quoteChars s ++ [34]) ++ rest)).
  rewrite <- app_assoc.
  change (parseValue (S f) (34 :: quoteChars s ++ [34] ++ rest))
    with (match parseChars (quoteChars s ++ 34 :: rest) [] with
          | Some (str, r) => POk (JString str) r
          | None => PErr
          end).
  by rewrite parseChars_quote.
Qed.

Lemma parseValue_boolean f (b : bool) rest :
  parseValue (S f) ((if b then js "true" else js "false") ++ rest)
  = POk (JBool b) rest.
Proof. by destruct b. Qed.

Lemma save_shape c :
  save c
  = 123 :: QuoteJSONString (js "type") ++ 58 :: QuoteJSONString (type c)
      ++ 44 :: QuoteJSONString (js "persona")
      ++ 58 :: QuoteJSONString (persona c)
      ++ 44 :: QuoteJSONString (js "context")
      ++ 58 :: QuoteJSONString (context c)
      ++ 44 :: QuoteJSONString (js "enableGestures")
      ++ 58 :: (if enableGestures c then js "true" else js "false")
      ++ [125].
Proof.
  unfold save, SerializeJSONObject, join.
  cbn [fmap list_fmap mbind list_bind fst snd].
  rewrite app_nil_r. f_equal.
  repeat (rewrite <- ?app_assoc; cbn [app]; try done; f_equal).
Qed.


Lemma parseValue_object f k X :
  parseValue (S f) (123 :: QuoteJSONString k ++ X)
  = match parseMembers f (QuoteJSONString k ++ X) [] with
    | POk props r => POk (JObject props) r
    | PErr => PErr
    | PFuel => PFuel
    end.
Proof. reflexivity. Qed.

Lemma JSON_parse_save c :
  JSON_parse (save c)
  = Return (JObject [(js "type", JString (type c));
                     (js "persona", JString (persona c));
                     (js "context", JString (context c));
                     (js "enableGestures", JBool (enableGestures c))]).
Proof.
  unfold JSON_parse, parseFuel.
  assert (∃ n, length (save c) = S (S n)) as [n ->].
  { rewrite save_shape. unfold QuoteJSONString at 1. simpl length.
    by eexists. }
  replace (2 * S (S n) + 2)%nat with (S (S (S (S (S (S (2 * n)))))))
    by lia.
  rewrite save_shape, parseValue_object.
  rewrite parseMembers_member with (v := JString (type c));
    [|apply parseValue_string|by left].
  change (44 =? 44) with true. cbv iota.
  rewrite parseMembers_member with (v := JString (persona c));
    [|apply parseValue_string|by left].
  change (44 =? 44) with true. cbv iota.
  rewrite parseMembers_member with (v := JString (context c));
    [|apply parseValue_string|by left].
  change (44 =? 44) with true. cbv iota.
  rewrite parseMembers_member with (v := JBool (enableGestures c));
    [|apply parseValue_boolean|by right].
  done.
Qed.

End Persistence.

(** X15. The saved settings come back (SetupForm.tsx). Loading the text
    that the form has saved for a configuration puts back its role, its
    persona, its context and its gesture switch as they were, whatever
    code units the strings hold, if role and persona are not empty, and
    leaves the configuration alone otherwise. The resume text is not part
    of the saved text. *)
Theorem saved_settings_come_back (c : SetupForm.InterviewConfig) :
  SetupForm.load (Some (SetupForm.save c))
  = (if truthy (SetupForm.type c) && truthy (SetupForm.persona c)
     then SetupForm.Install
            (JString (SetupForm.type c)) (JString (SetupForm.persona c))
            (JString (SetupForm.context c))
            (JBool (SetupForm.enableGestures c))
     else SetupForm.Keep)
  ∧ ∀ text, SetupForm.save (SetupForm.with_resumeText text c)
            = SetupForm.save c.
Proof.
  split; [|done]. unfold SetupForm.load.
  assert (truthy (SetupForm.save c) = true) as ->.
  { by rewrite save_shape. }
  rewrite JSON_parse_save.
  change (getProp _ (js "type")) with (Some (JString (SetupForm.type c))).
  change (getProp _ (js "persona"))
    with (Some (JString (SetupForm.persona c))).
  change (getProp _ (js "context"))
    with (Some (JString (SetupForm.context c))).
  change (getProp _ (js "enableGestures"))
    with (Some (JBool (SetupForm.enableGestures c))).
  cbn [truthyValue orDefault].
  destruct (truthy (SetupForm.type c)); [|done].
  destruct (truthy (SetupForm.persona c)); [|done]. simpl.
  f_equal.
  - by destruct (SetupForm.context c).
  - by destruct (SetupForm.enableGestures c).
Qed.

(** ** The capture block *)

Section CaptureOrder.
Context {sample : Type} (NaN : sample).

(** Picking the elements of a list at strictly increasing positions gives a
    sublist of it. *)
Lemma pick_sublist (l : list sample) (k : nat → nat) (n : nat) :
  (∀ i, (S i < n)%nat → (k i < k (S i))%nat) →
  (∀ i, (i < n)%nat → (k i < length l)%nat) →
  ((λ i, default NaN (l !! k i)) <$> seq 0 n) `sublist_of` l.
Proof.
  intros Hinc Hlt.
  assert (match n with
          | O => True
          | S n' => ((λ i, default NaN (l !! k i)) <$> seq 0 n)
                      `sublist_of` take (S (k n')) l
          end) as H.
  { induction n as [|n IH]; [done|].
    assert (k n < length l)%nat as Hn by (apply Hlt; lia).
    destruct (lookup_lt_is_Some_2 l (k n) Hn) as [x Hx].
    rewrite seq_S, fmap_app. simpl. rewrite Hx. simpl.
    rewrite (take_S_r l (k n) x Hx). apply sublist_app; [|done].
    destruct n as [|n'].
    - apply sublist_nil_l.
    - etrans.
      + apply IH; intros i Hi; [apply Hinc|apply Hlt]; lia.
      + assert (S (k n') <= k (S n'))%nat as Hle by (apply Hinc; lia).
        replace (S (k n')) with (min (S (k n')) (k (S n'))) by lia.
        rewrite <- take_take. apply sublist_take. }
  destruct n as [|n']; [apply sublist_nil_l|].
  etrans; [exact H|]. apply sublist_take.
Qed.

Lemma Qfloor_step (a b : Q) : (a + 1 <= b)%Q → Qfloor a < Qfloor b.
Proof.
  intros H. apply Z.add_lt_mono_r with (p := 1).
  rewrite Zlt_Qlt.
  eapply Qle_lt_trans; [|apply Qlt_floor].
  rewrite inject_Z_plus. eapply Qle_trans; [|exact H].
  apply Qplus_le_l. apply Qfloor_le.
Qed.


(** X16. Downsampling keeps the order of the samples ([onaudioprocess]).
    At every sample rate, the frame sent is made of samples of the capture
    block in their order, no sample taken twice and none made up: it is a
    sublist of the block, and so not longer than it. *)
Theorem finalData_is_a_sublist (sourceSampleRate : Q)
  (inputData : list sample) :
  finalData NaN sourceSampleRate inputData `sublist_of` inputData.
Proof.
  unfold finalData. destruct (Qgtb _ _) eqn:Hgt; [|done].
  assert (targetSampleRate < sourceSampleRate)%Q as Hrate.
  { unfold Qgtb in Hgt. apply negb_true_iff in Hgt.
    apply Qnot_le_lt. intros Hle. apply Qle_bool_iff in Hle. congruence. }
  cbv zeta. set (ratio := (sourceSampleRate / targetSampleRate)%Q).
  assert (1 <= ratio)%Q as Hratio.
  { unfold ratio. apply Qle_shift_div_l; [done|].
    rewrite Qmult_1_l. by apply Qlt_le_weak. }
  pose proof (ratio_pos _ Hrate) as Hpos. fold ratio in Hpos.
  unfold typed_get.
  apply (pick_sublist inputData
           (λ i, Z.to_nat (Qfloor (inject_Z (Z.of_nat i) * ratio)))).
  - intros i Hi.
    pose proof (selected_index_in_range ratio (length inputData) i Hpos
                  ltac:(lia)) as [H0 _].
    assert (Qfloor (inject_Z (Z.of_nat i) * ratio)
            < Qfloor (inject_Z (Z.of_nat (S i)) * ratio)); [|lia].
    apply Qfloor_step. rewrite Nat2Z.inj_succ. unfold Z.succ.
    rewrite inject_Z_plus, Qmult_plus_distr_l.
    apply Qplus_le_r. by rewrite Qmult_1_l.
  - intros i Hi.
    pose proof (selected_index_in_range ratio (length inputData) i Hpos Hi).
    lia.
Qed.

End CaptureOrder.

(** ** The recovery parse *)

Lemma startsWith_app_boundary pat s c0 o :
  s ≠ [] → c0 ∉ pat →
  startsWith pat (s ++ c0 :: o) = true →
  startsWith pat s = true ∧ (length pat <= length s)%nat.
Proof.
  revert s. induction pat as [|x pat IH]; intros s Hs Hc; simpl.
  { split; [done|lia]. }
  apply not_elem_of_cons in Hc as [Hx Hc].
  destruct s as [|y s]; [done|]. simpl.
  intros [Hxy Hrest]%andb_true_iff. rewrite Hxy. simpl.
  destruct s as [|z s].
  - simpl in Hrest. destruct pat as [|x' pat]; [split; [done|simpl; lia]|].
    simpl in Hrest. apply andb_true_iff in Hrest as [Hx' _].
    apply N.eqb_eq in Hx'. subst x'. exfalso. apply Hc. by left.
  - destruct (IH (z :: s)) as [H1 H2]; try done. split; [done|simpl in *; lia].
Qed.

Lemma startsWith_app_l pat s t :
  startsWith pat s = true → startsWith pat (s ++ t) = true.
Proof.
  revert s. induction pat as [|x pat IH]; intros s; simpl; [done|].
  destruct s as [|y s]; [done|]. simpl.
  intros [-> H]%andb_true_iff. simpl. by apply IH.
Qed.

(** A match cannot reach over a code unit that is not in the pattern. *)
Lemma replaceAll_from_boundary pat c0 o :
  c0 ∉ pat →
  ∀ s skip, (skip <= length s)%nat →
  replaceAll_from pat [] skip (s ++ c0 :: o)
  = replaceAll_from pat [] skip s ++ replaceAll_from pat [] 0 (c0 :: o).
Proof.
  intros Hc. induction s as [|c t IH]; intros skip Hskip.
  { simpl in Hskip. by replace skip with 0%nat by lia. }
  cbn [app replaceAll_from]. destruct skip as [|k].
  - destruct (startsWith pat (c :: t ++ c0 :: o)) eqn:E.
    + destruct (startsWith_app_boundary pat (c :: t) c0 o) as [-> Hlen];
        try done.
      simpl. apply IH. simpl in Hlen. lia.
    + destruct (startsWith pat (c :: t)) eqn:E'.
      * apply (startsWith_app_l _ _ (c0 :: o)) in E'. simpl in E'. congruence.
      * simpl. f_equal. apply IH. lia.
  - apply IH. simpl in Hskip. lia.
Qed.

(** No match starts at a code unit that is not the first of the pattern. *)
Lemma replaceAll_from_skip_over x pat o q :
  x ∉ o →
  replaceAll_from (x :: pat) [] 0 (o ++ q)
  = o ++ replaceAll_from (x :: pat) [] 0 q.
Proof.
  induction o as [|c o IH]; [done|].
  intros [Hc Ho]%not_elem_of_cons. cbn [app replaceAll_from startsWith].
  destruct (N.eqb_spec x c) as [->|_]; [done|]. simpl. f_equal. by apply IH.
Qed.

Lemma replaceAll_from_subseteq pat skip s c :
  c ∈ replaceAll_from pat [] skip s → c ∈ s.
Proof.
  revert skip. induction s as [|x t IH]; intros skip; simpl; [done|].
  destruct skip as [|k].
  - destruct (startsWith pat (x :: t)).
    + simpl. intros H%IH. by right.
    + intros [->|H%IH]%elem_of_cons; [by left|by right].
  - intros H%IH. by right.
Qed.

(** Removing a fence from a text that has a brace-delimited object free of
    back quotes in it leaves the object where it is. *)
Lemma replaceAll_around_object pat p body q :
  LBRACE ∉ 96%N :: pat → RBRACE ∉ 96%N :: pat →
  96%N ∉ LBRACE :: body ++ [RBRACE] →
  replaceAll (96%N :: pat) [] (p ++ (LBRACE :: body ++ [RBRACE]) ++ q)
  = replaceAll (96%N :: pat) [] p ++ (LBRACE :: body ++ [RBRACE])
    ++ replaceAll (96%N :: pat) [] q.
Proof.
  intros HL HR Ho. unfold replaceAll.
  change (p ++ (LBRACE :: body ++ [RBRACE]) ++ q)
    with (p ++ LBRACE :: (body ++ [RBRACE]) ++ q).
  rewrite replaceAll_from_boundary by (done || lia). f_equal.
  change (LBRACE :: (body ++ [RBRACE]) ++ q)
    with ((LBRACE :: body ++ [RBRACE]) ++ q).
  by rewrite replaceAll_from_skip_over.
Qed.

Lemma indexOf_from_app c i p r :
  c ∉ p → indexOf_from c i (p ++ c :: r) = i + Z.of_nat (length p).
Proof.
  revert i. induction p as [|x p IH]; intros i; simpl.
  - intros _. rewrite N.eqb_refl. lia.
  - intros [Hx Hp]%not_elem_of_cons.
    destruct (N.eqb_spec x c); [congruence|]. rewrite IH by done. lia.
Qed.

Lemma lastIndexOf_from_none c i found q :
  c ∉ q → lastIndexOf_from c i found q = found.
Proof.
  revert i. induction q as [|x q IH]; intros i; simpl; [done|].
  intros [Hx Hq]%not_elem_of_cons.
  destruct (N.eqb_spec x c); [congruence|]. by apply IH.
Qed.

Lemma lastIndexOf_from_app c i found s q :
  c ∉ q →
  lastIndexOf_from c i found (s ++ c :: q) = i + Z.of_nat (length s).
Proof.
  revert i found. induction s as [|x s IH]; intros i found Hq; simpl.
  - rewrite N.eqb_refl, lastIndexOf_from_none by done. lia.
  - rewrite IH by done. lia.
Qed.

Lemma substring_middle (p o q : jsstring) :
  substring (p ++ o ++ q) (Z.of_nat (length p))
    (Z.of_nat (length p) + Z.of_nat (length o)) = o.
Proof.
  unfold substring. rewrite !length_app.
  replace (Z.to_nat _) with (length o) by lia.
  replace (Z.to_nat _) with (length p) by lia.
  by rewrite drop_app_length, take_app_length.
Qed.

Lemma cleaned_around_object p body q :
  96%N ∉ LBRACE :: body ++ [RBRACE] →
  ∃ p' q',
    replaceAll BACKTICKS []
      (replaceAll (BACKTICKS ++ js "json") []
         (p ++ (LBRACE :: body ++ [RBRACE]) ++ q))
    = p' ++ (LBRACE :: body ++ [RBRACE]) ++ q'
    ∧ (LBRACE ∉ p → LBRACE ∉ p') ∧ (RBRACE ∉ q → RBRACE ∉ q')
    ∧ (p = [] → p' = []) ∧ (q = [] → q' = []).
Proof.
  intros Ho.
  change (BACKTICKS ++ js "json")
    with (96%N :: [96; 96; 106; 115; 111; 110]%N).
  change BACKTICKS with (96%N :: [96; 96]%N).
  assert (∀ pat : jsstring, LBRACE ∉ 96%N :: pat → RBRACE ∉ 96%N :: pat →
            ∀ p q, replaceAll (96%N :: pat) []
                     (p ++ (LBRACE :: body ++ [RBRACE]) ++ q)
                   = replaceAll (96%N :: pat) [] p
                     ++ (LBRACE :: body ++ [RBRACE])
                     ++ replaceAll (96%N :: pat) [] q) as Hrep.
  { intros pat HL HR p0 q0. by apply replaceAll_around_object. }
  assert (LBRACE ∉ [96; 96; 96; 106; 115; 111; 110]%N) as HL1.
  { apply (bool_decide_unpack _). by vm_compute. }
  assert (RBRACE ∉ [96; 96; 96; 106; 115; 111; 110]%N) as HR1.
  { apply (bool_decide_unpack _). by vm_compute. }
  assert (LBRACE ∉ [96; 96; 96]%N) as HL2.
  { apply (bool_decide_unpack _). by vm_compute. }
  assert (RBRACE ∉ [96; 96; 96]%N) as HR2.
  { apply (bool_decide_unpack _). by vm_compute. }
  rewrite (Hrep _ HL1 HR1), (Hrep _ HL2 HR2).
  eexists _, _. split; [reflexivity|].
  repeat split.
  - intros Hp Hin. unfold replaceAll in Hin.
    by do 2 apply replaceAll_from_subseteq in Hin.
  - intros Hq Hin. unfold replaceAll in Hin.
    by do 2 apply replaceAll_from_subseteq in Hin.
  - by intros ->.
  - by intros ->.
Qed.

Lemma braces_around_object p body q :
  LBRACE ∉ p → RBRACE ∉ q →
  let o := LBRACE :: body ++ [RBRACE] in
  indexOf LBRACE (p ++ o ++ q) = Z.of_nat (length p)
  ∧ lastIndexOf RBRACE (p ++ o ++ q) + 1
    = Z.of_nat (length p) + Z.of_nat (length o).
Proof.
  intros Hp Hq o. split.
  - unfold indexOf, o. change ((LBRACE :: body ++ [RBRACE]) ++ q)
      with (LBRACE :: (body ++ [RBRACE]) ++ q).
    by rewrite indexOf_from_app.
  - unfold lastIndexOf, o.
    replace (p ++ (LBRACE :: body ++ [RBRACE]) ++ q)
      with ((p ++ LBRACE :: body) ++ RBRACE :: q).
    + rewrite lastIndexOf_from_app by done.
      rewrite !length_app. simpl. rewrite length_app. simpl. lia.
    + rewrite <- !app_assoc. simpl. by rewrite <- app_assoc.
Qed.

Local Opaque JSON_parse dropCommaBefore substring.

(** X17. The recovery parse looks only at the object
    ([sanitizeAndParseJSON]). For a text that holds, from its first
    opening brace to its last closing brace, a part free of back quotes,
    whatever stands before and after this part (prose, code fences) does
    not count: the result is the one for the part alone, and it is the
    value of the part when the part is valid JSON. *)
Theorem sanitize_ignores_surrounding_text (p body q : jsstring) :
  let o := LBRACE :: body ++ [RBRACE] in
  LBRACE ∉ p → RBRACE ∉ q → 96%N ∉ o →
  sanitizeAndParseJSON (p ++ o ++ q) = sanitizeAndParseJSON o
  ∧ ∀ v, JSON_parse o = Return v →
         sanitizeAndParseJSON (p ++ o ++ q) = Return v.
Proof.
  cbv zeta. intros Hp Hq Ho.
  assert (∀ p q, LBRACE ∉ p → RBRACE ∉ q →
            sanitizeAndParseJSON (p ++ (LBRACE :: body ++ [RBRACE]) ++ q)
            = match JSON_parse (LBRACE :: body ++ [RBRACE]) with
              | Return v => Return v
              | Throw e =>
                  match JSON_parse
                          (dropCommaBefore RBRACKET
                             (dropCommaBefore RBRACE
                                (LBRACE :: body ++ [RBRACE]))) with
                  | Return v => Return v
                  | Throw _ => Throw e
                  end
              end) as Hgen.
  { intros p0 q0 Hp0 Hq0. unfold sanitizeAndParseJSON.
    destruct (cleaned_around_object p0 body q0 Ho)
      as (p' & q' & -> & Hp' & Hq' & _).
    cbv zeta.
    destruct (braces_around_object p' body q' (Hp' Hp0) (Hq' Hq0))
      as [-> Hlast].
    rewrite Hlast.
    assert (0 < Z.of_nat (length (LBRACE :: body ++ [RBRACE]))) as Hlen
      by (simpl; lia).
    assert (lastIndexOf RBRACE (p' ++ (LBRACE :: body ++ [RBRACE]) ++ q')
            ≠ -1) as Hne by lia.
    apply Z.eqb_neq in Hne. rewrite Hne.
    assert (Z.of_nat (length p') ≠ -1) as Hne' by lia.
    apply Z.eqb_neq in Hne'. rewrite Hne'. simpl negb. cbv iota.
    by rewrite substring_middle. }
  assert (sanitizeAndParseJSON (LBRACE :: body ++ [RBRACE])
          = sanitizeAndParseJSON ([] ++ (LBRACE :: body ++ [RBRACE]) ++ []))
    as Hself.
  { simpl. by rewrite app_nil_r. }
  split.
  - rewrite Hself, !Hgen; try done; apply not_elem_of_nil.
  - intros v Hv. by rewrite Hgen, Hv.
Qed.

Local Transparent JSON_parse dropCommaBefore substring.

Lemma sanitize_ignores_surrounding_text_witness :
  sanitizeAndParseJSON
    ((js "Here is the report you asked for:" ++ LF :: BACKTICKS
      ++ js "json" ++ [LF])
     ++ (LBRACE :: jsq "'score': 80" ++ [RBRACE])
     ++ (LF :: BACKTICKS ++ LF :: js "Good luck!"))
  = Return (JObject [(js "score", JNumber 80)]).
Proof.
  apply (sanitize_ignores_surrounding_text
           (js "Here is the report you asked for:" ++ LF :: BACKTICKS
            ++ js "json" ++ [LF])
           (jsq "'score': 80")
           (LF :: BACKTICKS ++ LF :: js "Good luck!")).
  - apply (bool_decide_unpack _). by vm_compute.
  - apply (bool_decide_unpack _). by vm_compute.
  - apply (bool_decide_unpack _). by vm_compute.
  - by vm_compute.
Defined.
